(** * Portfolio site: filter engine, router, loader and gallery viewer

    A shallow embedding of the client-side logic of the portfolio site:
    - [PostFilterUI] (filterUI.js): filtering, sorting and the memoised
      result of the post list;
    - [App] (app.js): the post loader, the hash router and its bounded
      navigation history;
    - [PostRenderer] (postRenderer.js): gallery preloading and the
      full-screen viewer.

    JavaScript strings are modelled as [string], read as sequences of code
    units in the Latin-1 range; arrays as [list], the end of the list being
    the end of the array. *)

From Stdlib Require Import List String Ascii ZArith NArith Lia Bool Arith.
From Stdlib Require Import Permutation Sorted.
Import ListNotations.

Local Open Scope list_scope.
Local Open Scope string_scope.

Infix "+++" := String.append (right associativity, at level 60).

(* ================================================================== *)
(** * Part I: definitions                                               *)
(* ================================================================== *)

(** ** The JavaScript built-ins the code relies on *)

Module JS.

(** A number as a comparator returns it: an integer or NaN. *)
Inductive number : Type :=
| NaN
| Num (z : Z).

(** [ToBoolean] on a string: only the empty string is falsy. *)
Definition truthy (s : string) : bool :=
  match s with
  | EmptyString => false
  | String _ _ => true
  end.

(** [x || null] on an optional string: undefined, null and the empty string
    all give null. *)
Definition orNull (o : option string) : option string :=
  match o with
  | Some s => if truthy s then Some s else None
  | None => None
  end.

(** [String.prototype.toLowerCase] on one Latin-1 code unit: A-Z and the
    accented capitals (all of 0xC0-0xDE but the multiplication sign). *)
Definition toLowerCase_unit (c : ascii) : ascii :=
  let n := N_of_ascii c in
  if (((65 <=? n) && (n <=? 90))
      || ((192 <=? n) && (n <=? 222) && negb (n =? 215)))%N
  then ascii_of_N (n + 32)
  else c.

Fixpoint toLowerCase (s : string) : string :=
  match s with
  | EmptyString => EmptyString
  | String c r => String (toLowerCase_unit c) (toLowerCase r)
  end.

Fixpoint startsWith (s p : string) {struct p} : bool :=
  match p with
  | EmptyString => true
  | String a p' =>
      match s with
      | EmptyString => false
      | String b s' => Ascii.eqb a b && startsWith s' p'
      end
  end.

(** [String.prototype.includes]: [sub] occurs somewhere in [s]. *)
Fixpoint includes (s sub : string) : bool :=
  startsWith s sub
  || match s with
     | EmptyString => false
     | String _ r => includes r sub
     end.

(** [s.substring(1)]. *)
Definition substring1 (s : string) : string :=
  match s with
  | EmptyString => EmptyString
  | String _ r => r
  end.

(** [s.split(sep)] for a one-unit separator: never the empty array. *)
Fixpoint split (sep : ascii) (s : string) : list string :=
  match s with
  | EmptyString => [EmptyString]
  | String c r =>
      if Ascii.eqb c sep then EmptyString :: split sep r
      else match split sep r with
           | x :: xs => String c x :: xs
           | [] => [String c EmptyString]
           end
  end.

(** [Array.prototype.includes] on an array of strings. *)
Definition arrayIncludes (l : list string) (x : string) : bool :=
  existsb (String.eqb x) l.

(** [Array.prototype.sort(cmp)].  The language requires the sort to be
    stable and treats a NaN from the comparator as 0; an element moves
    behind another one only when the comparator is positive on them.  The
    model is the stable insertion sort.  On a consistent comparator every
    conforming sort returns what this one returns; on an inconsistent one
    (below: an Invalid Date among the posts) the language leaves the order
    to the implementation and only promises a permutation, so the
    properties of order and stability are stated for valid dates. *)
Definition positive (n : number) : bool :=
  match n with
  | NaN => false
  | Num z => (0 <? z)%Z
  end.

Section Sort.
Context {A : Type} (cmp : A -> A -> number).

Fixpoint insert (x : A) (l : list A) : list A :=
  match l with
  | [] => [x]
  | y :: l' => if positive (cmp x y) then y :: insert x l' else x :: l
  end.

Fixpoint sort (l : list A) : list A :=
  match l with
  | [] => []
  | x :: l' => insert x (sort l')
  end.
End Sort.

(** The comparator of [sort()] without argument, on strings: the order of
    the code units. *)
Definition defaultCompare (x y : string) : number :=
  if String.ltb x y then Num (-1)
  else if String.ltb y x then Num 1
  else Num 0.

(** [JSON.stringify] on strings: QuoteJSONString. *)
Definition dquote : ascii := "034"%char.
Definition backslash : ascii := "092"%char.

Definition hexDigit (n : N) : ascii :=
  match n with
  | 0 => "0" | 1 => "1" | 2 => "2" | 3 => "3" | 4 => "4" | 5 => "5"
  | 6 => "6" | 7 => "7" | 8 => "8" | 9 => "9" | 10 => "a" | 11 => "b"
  | 12 => "c" | 13 => "d" | 14 => "e" | _ => "f"
  end%N%char.

Definition quoteUnit (c : ascii) : string :=
  let n := N_of_ascii c in
  let esc (x : ascii) := String backslash (String x EmptyString) in
  match n with
  | 8 => esc "b"
  | 9 => esc "t"
  | 10 => esc "n"
  | 12 => esc "f"
  | 13 => esc "r"
  | 34 => esc dquote
  | 92 => esc backslash
  | _ =>
      if (n <? 32)%N
      then String backslash
             (String "u" (String "0" (String "0"
                (String (hexDigit (n / 16)) (String (hexDigit (n mod 16))
                   EmptyString)))))
      else String c EmptyString
  end%N%char.

Fixpoint quoteBody (s : string) : string :=
  match s with
  | EmptyString => EmptyString
  | String c r => quoteUnit c +++ quoteBody r
  end.

Definition quoteJSONString (s : string) : string :=
  String dquote (quoteBody s +++ String dquote EmptyString).

(** [JSON.stringify] on an array of strings. *)
Definition stringifyArray (l : list string) : string :=
  "[" +++ String.concat "," (map quoteJSONString l) +++ "]".

(** Reading back one escaped code unit: the inverse of [quoteUnit], used to
    show that serialisations of different strings differ. *)
Definition hexValue (c : ascii) : N :=
  let n := N_of_ascii c in
  if (n <? 58)%N then (n - 48)%N else (n - 87)%N.

Definition unquoteUnit (s : string) : option (ascii * string) :=
  match s with
  | EmptyString => None
  | String c r =>
      if Ascii.eqb c backslash then
        match r with
        | String x r' =>
            if Ascii.eqb x "u" then
              match r' with
              | String _ (String _ (String h (String l r''))) =>
                  Some (ascii_of_N (hexValue h * 16 + hexValue l), r'')
              | _ => None
              end
            else if Ascii.eqb x "b" then Some ("008"%char, r')
            else if Ascii.eqb x "t" then Some ("009"%char, r')
            else if Ascii.eqb x "n" then Some ("010"%char, r')
            else if Ascii.eqb x "f" then Some ("012"%char, r')
            else if Ascii.eqb x "r" then Some ("013"%char, r')
            else Some (x, r')
        | EmptyString => None
        end
      else if Ascii.eqb c dquote then None
      else Some (c, r)
  end.

End JS.

(** ** Dates

    [new Date(s)] is taken as a parameter [Date_parse] of the development:
    the time value in milliseconds, or [None] for an Invalid Date (whose
    time value is NaN).  [Date.parseISO] is the instance used in the worked
    scenarios: the date-only ISO form YYYY-MM-DD, read as UTC midnight. *)

Module Date.

Definition digit (c : ascii) : option Z :=
  let n := N_of_ascii c in
  if ((48 <=? n) && (n <=? 57))%N then Some (Z.of_N n - 48)%Z else None.

Definition isLeap (y : Z) : bool :=
  ((y mod 4 =? 0) && (negb (y mod 100 =? 0) || (y mod 400 =? 0)))%Z.

Definition daysInMonth (y m : Z) : Z :=
  (if m =? 2 then (if isLeap y then 29 else 28)
   else if (m =? 4) || (m =? 6) || (m =? 9) || (m =? 11) then 30
   else 31)%Z.

(** Days from 1970-01-01 to the civil date y-m-d. *)
Definition daysFromCivil (y m d : Z) : Z :=
  (let y' := if m <=? 2 then y - 1 else y in
   let era := y' / 400 in
   let yoe := y' - era * 400 in
   let doy := (153 * (if 2 <? m then m - 3 else m + 9) + 2) / 5 + d - 1 in
   let doe := yoe * 365 + yoe / 4 - yoe / 100 + doy in
   era * 146097 + doe - 719468)%Z.

Definition msPerDay : Z := 86400000.

Definition parseISO (s : string) : option Z :=
  match s with
  | String y1 (String y2 (String y3 (String y4 (String "-"
      (String m1 (String m2 (String "-"
        (String d1 (String d2 EmptyString))))))))) =>
      match digit y1, digit y2, digit y3, digit y4,
            digit m1, digit m2, digit d1, digit d2 with
      | Some a, Some b, Some c, Some d, Some e, Some f, Some g, Some h =>
          (let y := a * 1000 + b * 100 + c * 10 + d in
           let m := e * 10 + f in
           let dd := g * 10 + h in
           if (1 <=? m) && (m <=? 12) && (1 <=? dd) && (dd <=? daysInMonth y m)
           then Some (daysFromCivil y m dd * msPerDay)
           else None)%Z
      | _, _, _, _, _, _, _, _ => None
      end
  | _ => None
  end.

End Date.

(** ** Posts *)

Module Post.

(** The fields of a post record the filter, the router and the loader read.
    [shortDescription] and [tags] may be absent from the JSON. *)
Record t : Type := mk {
  id : string;
  title : string;
  date : string;
  shortDescription : option string;
  tags : option (list string)
}.

End Post.

(** ** filterUI.js: class PostFilterUI *)

Module PostFilterUI.

Record FilterState : Type := mkFilterState {
  searchTerm : string;
  selectedTags : list string;
  sortOrder : string;
  viewMode : string
}.

(** The instance: [this]. *)
Record t : Type := mk {
  posts : list Post.t;
  filteredPosts : list Post.t;
  allTags : list string;
  filterState : FilterState;
  uiCache : option string;
  lastFilterKey : string
}.

(** [constructor()]. *)
Definition new : t :=
  {| posts := [];
     filteredPosts := [];
     allTags := [];
     filterState := {| searchTerm := ""; selectedTags := [];
                       sortOrder := "newest"; viewMode := "grid" |};
     uiCache := None;
     lastFilterKey := "" |}.

Definition set_filterState (fs : FilterState) (st : t) : t :=
  {| posts := posts st; filteredPosts := filteredPosts st;
     allTags := allTags st; filterState := fs;
     uiCache := uiCache st; lastFilterKey := lastFilterKey st |}.

Definition set_selectedTags (l : list string) (fs : FilterState) : FilterState :=
  {| searchTerm := searchTerm fs; selectedTags := l;
     sortOrder := sortOrder fs; viewMode := viewMode fs |}.

Definition set_searchTerm (s : string) (fs : FilterState) : FilterState :=
  {| searchTerm := s; selectedTags := selectedTags fs;
     sortOrder := sortOrder fs; viewMode := viewMode fs |}.

Definition set_sortOrder (s : string) (fs : FilterState) : FilterState :=
  {| searchTerm := searchTerm fs; selectedTags := selectedTags fs;
     sortOrder := s; viewMode := viewMode fs |}.

Definition set_viewMode (s : string) (fs : FilterState) : FilterState :=
  {| searchTerm := searchTerm fs; selectedTags := selectedTags fs;
     sortOrder := sortOrder fs; viewMode := s |}.

Definition set_lastFilterKey (k : string) (st : t) : t :=
  {| posts := posts st; filteredPosts := filteredPosts st;
     allTags := allTags st; filterState := filterState st;
     uiCache := uiCache st; lastFilterKey := k |}.

Definition set_filteredPosts (l : list Post.t) (st : t) : t :=
  {| posts := posts st; filteredPosts := l;
     allTags := allTags st; filterState := filterState st;
     uiCache := uiCache st; lastFilterKey := lastFilterKey st |}.

(** Insertion into a [Set]: the first occurrence keeps its place. *)
Fixpoint setAddAll (acc l : list string) : list string :=
  match l with
  | [] => acc
  | x :: l' =>
      setAddAll (if JS.arrayIncludes acc x then acc else (acc ++ [x])%list) l'
  end.

(** [extractAllTags()]. *)
Definition extractAllTags (st : t) : t :=
  let tagSet :=
    fold_left
      (fun acc post =>
         match Post.tags post with
         | Some ts => setAddAll acc ts
         | None => acc
         end)
      (posts st) [] in
  {| posts := posts st; filteredPosts := filteredPosts st;
     allTags := JS.sort JS.defaultCompare tagSet;
     filterState := filterState st;
     uiCache := uiCache st; lastFilterKey := lastFilterKey st |}.

(** The cache key: [JSON.stringify({search, tags, sort})]. *)
Definition filterKeyOf (search : string) (tags : list string) (sort : string)
  : string :=
  "{" +++ JS.quoteJSONString "search" +++ ":" +++ JS.quoteJSONString search
  +++ "," +++ JS.quoteJSONString "tags" +++ ":" +++ JS.stringifyArray tags
  +++ "," +++ JS.quoteJSONString "sort" +++ ":" +++ JS.quoteJSONString sort
  +++ "}".

(** The callback of the search filter, [searchLower] being the lowered
    term. *)
Definition searchMatch (searchLower : string) (post : Post.t) : bool :=
  let titleMatch := JS.includes (JS.toLowerCase (Post.title post)) searchLower in
  let descMatch :=
    match Post.shortDescription post with
    | Some d => JS.includes (JS.toLowerCase d) searchLower
    | None => false
    end in
  let tagMatch :=
    match Post.tags post with
    | Some ts =>
        existsb (fun tag => JS.includes (JS.toLowerCase tag) searchLower) ts
    | None => false
    end in
  titleMatch || descMatch || tagMatch.

(** The callback of the tag filter. *)
Definition tagMatch (selected : list string) (post : Post.t) : bool :=
  match Post.tags post with
  | Some ts => existsb (fun tag => JS.arrayIncludes ts tag) selected
  | None => false
  end.

Section WithDate.
Variable Date_parse : string -> option Z.

(** [new Date(x) - new Date(y)]: NaN as soon as one date is invalid.  Time
    values are integers, so the sign of the float difference is the sign
    of the integer difference. *)
Definition dateDiff (x y : string) : JS.number :=
  match Date_parse x, Date_parse y with
  | Some tx, Some ty => JS.Num (tx - ty)
  | _, _ => JS.NaN
  end.

Definition newestFirst (a b : Post.t) : JS.number :=
  dateDiff (Post.date b) (Post.date a).

Definition oldestFirst (a b : Post.t) : JS.number :=
  dateDiff (Post.date a) (Post.date b).

(** The key computed at the head of [filterAndSortPosts]; evaluating it
    sorts [selectedTags] in place. *)
Definition sortSelectedTags (st : t) : t :=
  set_filterState
    (set_selectedTags
       (JS.sort JS.defaultCompare (selectedTags (filterState st)))
       (filterState st))
    st.

Definition filterKey (st : t) : string :=
  let fs := filterState (sortSelectedTags st) in
  filterKeyOf (searchTerm fs) (selectedTags fs) (sortOrder fs).

(** The guard of the early return. *)
Definition cacheHit (st : t) : bool :=
  String.eqb (filterKey st) (lastFilterKey st)
  && (0 <? List.length (filteredPosts st))%nat.

(** The body after the early return: filter, then sort. *)
Definition computeFiltered (ps : list Post.t) (fs : FilterState)
  : list Post.t :=
  let result := ps in
  let result :=
    if JS.truthy (searchTerm fs)
    then filter (searchMatch (JS.toLowerCase (searchTerm fs))) result
    else result in
  let result :=
    if (0 <? List.length (selectedTags fs))%nat
    then filter (tagMatch (selectedTags fs)) result
    else result in
  if String.eqb (sortOrder fs) "newest"
  then JS.sort newestFirst result
  else JS.sort oldestFirst result.

(** [filterAndSortPosts()]: the returned array and the instance after the
    call. *)
Definition filterAndSortPosts (st : t) : list Post.t * t :=
  let st1 := sortSelectedTags st in
  if cacheHit st
  then (filteredPosts st1, st1)
  else
    let st2 := set_lastFilterKey (filterKey st) st1 in
    let result := computeFiltered (posts st2) (filterState st2) in
    (result, set_filteredPosts result st2).

(** [init(posts)]. *)
Definition init (ps : list Post.t) (st : t) : t :=
  let st1 :=
    {| posts := ps; filteredPosts := filteredPosts st;
       allTags := allTags st; filterState := filterState st;
       uiCache := uiCache st; lastFilterKey := lastFilterKey st |} in
  snd (filterAndSortPosts (extractAllTags st1)).

(** The assignments of [resetFilters()] before its closing call. *)
Definition clearFilterFields (st : t) : t :=
  set_lastFilterKey ""
    (set_filterState
       (set_sortOrder "newest"
          (set_selectedTags [] (set_searchTerm "" (filterState st))))
       st).

(** [resetFilters()]. *)
Definition resetFilters (st : t) : t :=
  snd (filterAndSortPosts (clearFilterFields st)).

(** [clearCache()]. *)
Definition clearCache (st : t) : t :=
  {| posts := posts st; filteredPosts := filteredPosts st;
     allTags := allTags st; filterState := filterState st;
     uiCache := None; lastFilterKey := "" |}.

(** [applyFilters(onFilterChange)], the callback left out. *)
Definition applyFilters (st : t) : t := snd (filterAndSortPosts st).

(** The listeners of [setupListeners]. *)
Inductive Event : Type :=
| SearchInput (value : string)
| TagChange (tag : string) (checked : bool)
| SortChange (value : string)
| GridClick
| ListClick
| ClearClick.

Definition handle (e : Event) (st : t) : t :=
  let fs := filterState st in
  match e with
  | SearchInput v =>
      applyFilters (set_filterState (set_searchTerm v fs) st)
  | TagChange tag true =>
      let sel := selectedTags fs in
      let sel' := if JS.arrayIncludes sel tag then sel else (sel ++ [tag])%list in
      applyFilters (set_filterState (set_selectedTags sel' fs) st)
  | TagChange tag false =>
      let sel' :=
        filter (fun t0 => negb (String.eqb t0 tag)) (selectedTags fs) in
      applyFilters (set_filterState (set_selectedTags sel' fs) st)
  | SortChange v =>
      applyFilters (set_filterState (set_sortOrder v fs) st)
  | GridClick => set_filterState (set_viewMode "grid" fs) st
  | ListClick => set_filterState (set_viewMode "list" fs) st
  | ClearClick => resetFilters st
  end.

(** The instances a session can be in once [init(ps)] has run on a new
    instance, or on any instance right after [clearCache()]: any listener
    may fire, the list view may be rendered again (which runs [init] on
    the same posts), the methods may be called directly, and the filter
    state may hold any value. *)
Inductive reachable (ps : list Post.t) : t -> Prop :=
| reach_init : reachable ps (init ps new)
| reach_handle e st : reachable ps st -> reachable ps (handle e st)
| reach_reinit st : reachable ps st -> reachable ps (init ps st)
| reach_filter st :
    reachable ps st -> reachable ps (snd (filterAndSortPosts st))
| reach_clearCache st : reachable ps st -> reachable ps (clearCache st)
| reach_state fs st :
    reachable ps st -> reachable ps (set_filterState fs st)
| reach_cleared st : reachable ps (init ps (clearCache st)).

End WithDate.

End PostFilterUI.

(** ** app.js: loader and router *)

Module App.

(** A resolved route, also the shape of a navigation-history entry. *)
Record Route : Type := mkRoute {
  view : string;
  postId : option string
}.

(** What [renderContent] puts into the content element. *)
Inductive Rendered : Type :=
| RenderHome
| RenderPostsList
| RenderPostDetail (postId : string).

(** The module-level state ([posts], [currentView], [navigationHistory]),
    with the two pieces of the page the router reads and writes: the value
    of [window.location.hash] and the view last rendered. *)
Record t : Type := mk {
  posts : list Post.t;
  currentView : string;
  navigationHistory : list Route;
  location_hash : string;
  content : option Rendered
}.

(** The state when the script is loaded, on a page whose hash is [hash]. *)
Definition start (hash : string) : t :=
  {| posts := []; currentView := "home"; navigationHistory := [];
     location_hash := hash; content := None |}.

(** An entry of posts/index.json. *)
Record PostMeta : Type := mkPostMeta {
  meta_id : string;
  meta_title : string;
  meta_date : string;
  meta_tags : option (list string)
}.

(** What the network answers during one run of [loadPosts].
    - [fetchIndex]: [fetch('posts/index.json')] followed by
      [response.json()]; [None] when the fetch rejects, the body is not
      JSON or is not an array (all of which throw inside the outer [try]).
    - [fetchPost id]: [fetch('posts/<id>.json').then(r => r.json())];
      [None] when that promise rejects, [Some None] when the body is the
      JSON literal null.
    - [fetchLegacy]: [fetch('posts.json')] followed by [.json()]. *)
Record Network : Type := mkNetwork {
  fetchIndex : option (list PostMeta);
  fetchPost : string -> option (option Post.t);
  fetchLegacy : option (list Post.t)
}.

Definition set_posts (ps : list Post.t) (st : t) : t :=
  {| posts := ps; currentView := currentView st;
     navigationHistory := navigationHistory st;
     location_hash := location_hash st; content := content st |}.

(** The promise built for one index entry: a rejection is caught and
    replaced by null. *)
Definition loadOne (net : Network) (postMeta : PostMeta) : option Post.t :=
  match fetchPost net (meta_id postMeta) with
  | Some r => r
  | None => None
  end.

Definition notNull (p : option Post.t) : bool :=
  match p with
  | Some _ => true
  | None => false
  end.

(** [posts.filter(p => p !== null)], the nulls gone from the type too. *)
Fixpoint filterNotNull (l : list (option Post.t)) : list Post.t :=
  match l with
  | [] => []
  | Some p :: l' => p :: filterNotNull l'
  | None :: l' => filterNotNull l'
  end.

Section WithDate.
Variable Date_parse : string -> option Z.

(** [loadPosts()]: the returned array and the state after the call.  The
    image preloading it starts in the background reads [posts] without
    changing it, and is left out. *)
Definition loadPosts (net : Network) (st : t) : list Post.t * t :=
  match fetchIndex net with
  | Some postIndex =>
      let loaded := map (loadOne net) postIndex in
      let ps :=
        JS.sort (PostFilterUI.newestFirst Date_parse) (filterNotNull loaded) in
      (ps, set_posts ps st)
  | None =>
      match fetchLegacy net with
      | Some ps => (ps, set_posts ps st)
      | None => ([], st)
      end
  end.
End WithDate.

(** What the browser does with a string assigned to
    [window.location.hash] (the fragment state of the URL parser): tabs
    and newlines are removed, and every code unit of the fragment
    percent-encode set (the C0 controls, the units above the tilde, space,
    the double quote, the two angle brackets and the backtick) is replaced
    by the percent-encoded bytes of its UTF-8 form.  Every other unit, the
    percent sign, the number sign and the slash among them, is kept. *)
Definition isTabOrNewline (c : ascii) : bool :=
  let n := N_of_ascii c in
  ((n =? 9) || (n =? 10) || (n =? 13))%N.

Definition inFragmentEncodeSet (c : ascii) : bool :=
  let n := N_of_ascii c in
  ((n <=? 31) || (126 <? n)
   || (n =? 32) || (n =? 34) || (n =? 60) || (n =? 62) || (n =? 96))%N.

Definition upperHexDigit (n : N) : ascii :=
  match n with
  | 0 => "0" | 1 => "1" | 2 => "2" | 3 => "3" | 4 => "4" | 5 => "5"
  | 6 => "6" | 7 => "7" | 8 => "8" | 9 => "9" | 10 => "A" | 11 => "B"
  | 12 => "C" | 13 => "D" | 14 => "E" | _ => "F"
  end%N%char.

Definition percentEncodeByte (b : N) : string :=
  String "%" (String (upperHexDigit (b / 16))
                (String (upperHexDigit (b mod 16)) EmptyString))%N.

(** One byte for a unit below 0x80, two bytes for a unit from 0x80 to
    0xFF. *)
Definition utf8PercentEncode (c : ascii) : string :=
  let n := N_of_ascii c in
  if (n <? 128)%N then percentEncodeByte n
  else percentEncodeByte (192 + n / 64) +++ percentEncodeByte (128 + n mod 64).

Fixpoint encodeFragment (s : string) : string :=
  match s with
  | EmptyString => EmptyString
  | String c r =>
      if isTabOrNewline c then encodeFragment r
      else if inFragmentEncodeSet c
           then utf8PercentEncode c +++ encodeFragment r
           else String c (encodeFragment r)
  end.

(** Assigning [v] to [window.location.hash], and reading the property
    back: one leading number sign of [v] is dropped, the rest goes through
    the fragment parser, and the getter gives the empty string for an
    empty fragment. *)
Definition assignHash (v : string) : string :=
  let input :=
    match v with
    | String c r => if Ascii.eqb c "#" then r else v
    | EmptyString => v
    end in
  match encodeFragment input with
  | EmptyString => EmptyString
  | String c r => String "#" (String c r)
  end.

(** [getCurrentRoute()], as a function of the hash. *)
Definition routeOfHash (h : string) : Route :=
  let hash := JS.substring1 h in
  let parts := JS.split "/" hash in
  {| view := match nth_error parts 0 with
             | Some s => if JS.truthy s then s else "home"
             | None => "home"
             end;
     postId := JS.orNull (nth_error parts 1) |}.

Definition getCurrentRoute (st : t) : Route :=
  routeOfHash (location_hash st).

(** The [switch] of [renderContent]. *)
Definition renderRoute (route : Route) : Rendered :=
  if String.eqb (view route) "home" then RenderHome
  else if String.eqb (view route) "posts" then
    match postId route with
    | Some i => if JS.truthy i then RenderPostDetail i else RenderPostsList
    | None => RenderPostsList
    end
  else RenderHome.

Definition renderContent (st : t) : t :=
  {| posts := posts st; currentView := currentView st;
     navigationHistory := navigationHistory st;
     location_hash := location_hash st;
     content := Some (renderRoute (getCurrentRoute st)) |}.

(** [view + (postId ? '/' + postId : '')]. *)
Definition hashOf (v : string) (p : option string) : string :=
  v +++ match p with
        | Some i => if JS.truthy i then "/" +++ i else ""
        | None => ""
        end.

(** [navigateTo(view, postId = null)]. *)
Definition navigateTo (v : string) (p : option string) (st : t) : t :=
  let currentRoute := getCurrentRoute st in
  let pushed :=
    (navigationHistory st
       ++ [{| view := view currentRoute; postId := postId currentRoute |}])%list in
  let history :=
    if (10 <? List.length pushed)%nat then tl pushed else pushed in
  renderContent
    {| posts := posts st; currentView := v;
       navigationHistory := history;
       location_hash := assignHash (hashOf v p);
       content := content st |}.

(** [Array.prototype.pop]: the last element and the array without it. *)
Definition pop {A : Type} (l : list A) : option (A * list A) :=
  match rev l with
  | [] => None
  | x :: r => Some (x, rev r)
  end.

(** [goBack()]. *)
Definition goBack (st : t) : t :=
  if (0 <? List.length (navigationHistory st))%nat then
    match pop (navigationHistory st) with
    | Some (previousState, rest) =>
        renderContent
          {| posts := posts st; currentView := view previousState;
             navigationHistory := rest;
             location_hash :=
               assignHash (hashOf (view previousState) (postId previousState));
             content := content st |}
    | None => st
    end
  else navigateTo "home" None st.

(** The two navigation operations, and a change of the hash made by the
    browser itself (address bar, back and forward buttons), which only
    renders. *)
Inductive Op : Type :=
| NavigateTo (v : string) (p : option string)
| GoBack
| HashChange (hash : string).

Definition step (st : t) (o : Op) : t :=
  match o with
  | NavigateTo v p => navigateTo v p st
  | GoBack => goBack st
  | HashChange h =>
      renderContent
        {| posts := posts st; currentView := currentView st;
           navigationHistory := navigationHistory st;
           location_hash := h; content := content st |}
  end.

Definition run (ops : list Op) (st : t) : t := fold_left step ops st.

(** The entries a sequence of operations makes [navigateTo] push, oldest
    first. *)
Fixpoint pushedRoutes (ops : list Op) (st : t) : list Route :=
  match ops with
  | [] => []
  | o :: ops' =>
      match o with
      | NavigateTo _ _ => getCurrentRoute st :: pushedRoutes ops' (step st o)
      | _ => pushedRoutes ops' (step st o)
      end
  end.

Definition isNavigateTo (o : Op) : bool :=
  match o with
  | NavigateTo _ _ => true
  | _ => false
  end.

Definition isGoBack (o : Op) : bool :=
  match o with
  | GoBack => true
  | _ => false
  end.

(** The last [n] elements of a list. *)
Definition lastn {A : Type} (n : nat) (l : list A) : list A :=
  skipn (List.length l - n) l.

End App.

(** ** postRenderer.js: gallery preloading and the full-screen viewer *)

Module PostRenderer.

(** A gallery image as the post data and the renderer hold it.
    [isPlaceholder] is the flag the preloader sets; the object spread copies
    whatever the post data carries. *)
Record GalleryImage : Type := mkImage {
  src : string;
  alt : option string;
  caption : option string;
  isPlaceholder : bool
}.

(** The fields of the instance the viewer uses, the visibility of the modal
    and the image its [img] element shows.  (The banner check and the
    load-status map, which the viewer never reads, are left out.) *)
Record t : Type := mk {
  galleryImages : list GalleryImage;
  loadedGalleryImages : list GalleryImage;
  currentGalleryImages : list GalleryImage;
  currentImageIndex : Z;
  placeholderImage : string;
  modalHidden : bool;
  galleryImg : option GalleryImage
}.

(** [constructor()]. *)
Definition new : t :=
  {| galleryImages := []; loadedGalleryImages := [];
     currentGalleryImages := []; currentImageIndex := 0;
     placeholderImage := "/img/placeholder.png";
     modalHidden := true; galleryImg := None |}.

(** The head of [renderPost]: the gallery of the post becomes
    [this.galleryImages]. *)
Definition set_galleryImages (g : list GalleryImage) (st : t) : t :=
  {| galleryImages := g; loadedGalleryImages := loadedGalleryImages st;
     currentGalleryImages := currentGalleryImages st;
     currentImageIndex := currentImageIndex st;
     placeholderImage := placeholderImage st;
     modalHidden := modalHidden st; galleryImg := galleryImg st |}.

(** The callback of [results.map] in [preloadGalleryImages]. *)
Definition substitute (placeholder : string) (img : GalleryImage)
  (loaded : bool) : GalleryImage :=
  if loaded then img
  else {| src := placeholder;
          alt := Some (match alt img with
                       | Some a => if JS.truthy a then a else "Image not available"
                       | None => "Image not available"
                       end);
          caption := caption img;
          isPlaceholder := true |}.

(** The outcomes of [checkImageLoads], one per gallery image, in order:
    [check i s] is what the promise for the i-th image, of source [s],
    resolves to ([false] on error and on the 5 second timeout). *)
Fixpoint checkAll (check : nat -> string -> bool) (i : nat)
  (l : list GalleryImage) : list (GalleryImage * bool) :=
  match l with
  | [] => []
  | img :: l' => (img, check i (src img)) :: checkAll check (S i) l'
  end.

(** [preloadGalleryImages()]. *)
Definition set_loadedGalleryImages (l : list GalleryImage) (st : t) : t :=
  {| galleryImages := galleryImages st; loadedGalleryImages := l;
     currentGalleryImages := currentGalleryImages st;
     currentImageIndex := currentImageIndex st;
     placeholderImage := placeholderImage st;
     modalHidden := modalHidden st; galleryImg := galleryImg st |}.

Definition preloadGalleryImages (check : nat -> string -> bool) (st : t) : t :=
  match galleryImages st with
  | [] => set_loadedGalleryImages [] st
  | _ :: _ =>
      let results := checkAll check 0 (galleryImages st) in
      set_loadedGalleryImages
        (map (fun r => substitute (placeholderImage st) (fst r) (snd r))
           results)
        st
  end.

(** [images[i]]: undefined out of range. *)
Definition arrayGet {A : Type} (l : list A) (i : Z) : option A :=
  if (i <? 0)%Z then None else nth_error l (Z.to_nat i).

Definition len {A : Type} (l : list A) : Z := Z.of_nat (List.length l).

(** [updateGalleryDisplay()].  [this.currentGalleryImages] is an array and
    so always truthy: the alternative [this.loadedGalleryImages] is never
    taken.  [None] is the TypeError raised on an undefined image. *)
Definition updateGalleryDisplay (st : t) : option t :=
  let images := currentGalleryImages st in
  match images with
  | [] => Some st
  | _ :: _ =>
      match arrayGet images (currentImageIndex st) with
      | Some img =>
          Some {| galleryImages := galleryImages st;
                  loadedGalleryImages := loadedGalleryImages st;
                  currentGalleryImages := currentGalleryImages st;
                  currentImageIndex := currentImageIndex st;
                  placeholderImage := placeholderImage st;
                  modalHidden := modalHidden st; galleryImg := Some img |}
      | None => None
      end
  end.

Definition viewableImages (st : t) : list GalleryImage :=
  filter (fun img => negb (isPlaceholder img)) (loadedGalleryImages st).

(** [openGallery(startIndex)]. *)
Definition openGallery (startIndex : Z) (st : t) : option t :=
  let viewable := viewableImages st in
  match viewable with
  | [] => Some st
  | _ :: _ =>
      updateGalleryDisplay
        {| galleryImages := galleryImages st;
           loadedGalleryImages := loadedGalleryImages st;
           currentGalleryImages := viewable;
           currentImageIndex :=
             Z.max 0 (Z.min startIndex (len viewable - 1));
           placeholderImage := placeholderImage st;
           modalHidden := false; galleryImg := galleryImg st |}
  end.

Definition set_currentImageIndex (i : Z) (st : t) : t :=
  {| galleryImages := galleryImages st;
     loadedGalleryImages := loadedGalleryImages st;
     currentGalleryImages := currentGalleryImages st;
     currentImageIndex := i;
     placeholderImage := placeholderImage st;
     modalHidden := modalHidden st; galleryImg := galleryImg st |}.

(** [nextImage()]; the remainder is JavaScript's, truncated. *)
Definition nextImage (st : t) : option t :=
  let images := currentGalleryImages st in
  match images with
  | [] => Some st
  | _ :: _ =>
      updateGalleryDisplay
        (set_currentImageIndex
           (Z.rem (currentImageIndex st + 1) (len images)) st)
  end.

(** [previousImage()]. *)
Definition previousImage (st : t) : option t :=
  let images := currentGalleryImages st in
  match images with
  | [] => Some st
  | _ :: _ =>
      updateGalleryDisplay
        (set_currentImageIndex
           (Z.rem (currentImageIndex st - 1 + len images) (len images)) st)
  end.

(** The navigation requests of the viewer: its two buttons and the arrow
    keys. *)
Inductive Nav : Type :=
| Next
| Previous.

Definition navigate (o : Nav) (st : t) : option t :=
  match o with
  | Next => nextImage st
  | Previous => previousImage st
  end.

Fixpoint navigateAll (l : list Nav) (st : t) : option t :=
  match l with
  | [] => Some st
  | o :: l' =>
      match navigate o st with
      | Some st' => navigateAll l' st'
      | None => None
      end
  end.

(** The gallery images whose load check succeeded, in order. *)
Definition loadedOnly (check : nat -> string -> bool)
  (g : list GalleryImage) : list GalleryImage :=
  map fst (filter snd (checkAll check 0 g)).

End PostRenderer.

(** ** The vocabulary of the specification

    The predicates of the filter engine as the specification words them,
    against which the code is compared. *)

Module Spec.

(** Two strings that differ at most by the case of their letters. *)
Inductive sameIgnoringCase : string -> string -> Prop :=
| same_empty : sameIgnoringCase "" ""
| same_unit a b s t :
    JS.toLowerCase_unit a = JS.toLowerCase_unit b ->
    sameIgnoringCase s t ->
    sameIgnoringCase (String a s) (String b t).

(** Case-insensitive substring match of [term] against [text]. *)
Definition matchesIgnoringCase (term text : string) : Prop :=
  exists pre mid post,
    text = pre +++ mid +++ post /\ sameIgnoringCase mid term.

(** The search predicate: term empty, or a match against the title, the
    short description or some tag. *)
Definition searchPredicate (term : string) (p : Post.t) : Prop :=
  term = ""
  \/ matchesIgnoringCase term (Post.title p)
  \/ (exists d, Post.shortDescription p = Some d
                /\ matchesIgnoringCase term d)
  \/ (exists ts tag, Post.tags p = Some ts /\ In tag ts
                     /\ matchesIgnoringCase term tag).

(** The tag predicate: selection empty, or the tag set of the post
    intersects it. *)
Definition tagPredicate (selected : list string) (p : Post.t) : Prop :=
  selected = []
  \/ (exists ts tag, Post.tags p = Some ts /\ In tag ts /\ In tag selected).

(** A component of the hash grammar: not empty and free of slashes. *)
Definition plain (s : string) : bool :=
  JS.truthy s && negb (JS.includes s "/").

(** A string the hash holds as it is written: none of its units is
    removed or percent-encoded by the assignment to
    [window.location.hash]. *)
Fixpoint hashSafe (s : string) : bool :=
  match s with
  | EmptyString => true
  | String c r => negb (App.inFragmentEncodeSet c) && hashSafe r
  end.

(** A value [window.location.hash] can have: empty, or a number sign
    followed by a fragment that is not empty and is held as written. *)
Definition browserHash (h : string) : bool :=
  match h with
  | EmptyString => true
  | String c r => Ascii.eqb c "#" && JS.truthy r && hashSafe r
  end.

(** A route of the grammar [#<view>] or [#<view>/<postId>]: both components
    plain and held by the hash as written, and a view that does not itself
    begin with a number sign. *)
Definition isRoute (r : App.Route) : bool :=
  plain (App.view r)
  && hashSafe (App.view r)
  && negb (JS.startsWith (App.view r) "#")
  && match App.postId r with
     | Some p => plain p && hashSafe p
     | None => true
     end.

(** The viewer is navigating the images [v]: they are the navigable set,
    the index is inside it and the image shown is one of them. *)
Definition viewing (v : list PostRenderer.GalleryImage) (st : PostRenderer.t)
  : Prop :=
  PostRenderer.currentGalleryImages st = v
  /\ (0 <= PostRenderer.currentImageIndex st < PostRenderer.len v)%Z
  /\ exists img, PostRenderer.galleryImg st = Some img /\ In img v.

(** [a] may stand before [b] in a sequence ordered by increasing [rank]. *)
Definition byRank {A : Type} (rank : A -> option Z) (a b : A) : Prop :=
  exists ra rb, rank a = Some ra /\ rank b = Some rb /\ (ra <= rb)%Z.

(** Both guards of [filterAndSortPosts] as one test on a post. *)
Definition kept (fs : PostFilterUI.FilterState) (p : Post.t) : bool :=
  (if JS.truthy (PostFilterUI.searchTerm fs)
   then PostFilterUI.searchMatch
          (JS.toLowerCase (PostFilterUI.searchTerm fs)) p
   else true)
  && (if (0 <? List.length (PostFilterUI.selectedTags fs))%nat
      then PostFilterUI.tagMatch (PostFilterUI.selectedTags fs) p
      else true).

Section WithDate.
Variable Date_parse : string -> option Z.

(** Every date of the sequence is a date. *)
Definition validDates (l : list Post.t) : Prop :=
  Forall (fun p => Date_parse (Post.date p) <> None) l.

(** [a] may stand before [b] in a newest-first sequence. *)
Definition notOlder (a b : Post.t) : Prop :=
  exists ta tb,
    Date_parse (Post.date a) = Some ta
    /\ Date_parse (Post.date b) = Some tb /\ (tb <= ta)%Z.

(** [a] may stand before [b] in an oldest-first sequence. *)
Definition notNewer (a b : Post.t) : Prop :=
  exists ta tb,
    Date_parse (Post.date a) = Some ta
    /\ Date_parse (Post.date b) = Some tb /\ (ta <= tb)%Z.

(** The posts dated [t]. *)
Definition dated (t : Z) (p : Post.t) : bool :=
  match Date_parse (Post.date p) with
  | Some t' => (t' =? t)%Z
  | None => false
  end.

(** The memoised result belongs to the posts [ps]: whenever it is
    non-empty, it is what the body computes on [ps] for every filter
    state whose key is the stored one. *)
Definition cacheCoherent (ps : list Post.t) (st : PostFilterUI.t) : Prop :=
  PostFilterUI.posts st = ps
  /\ (PostFilterUI.filteredPosts st <> [] ->
      forall fs,
        PostFilterUI.filterKeyOf (PostFilterUI.searchTerm fs)
          (PostFilterUI.selectedTags fs) (PostFilterUI.sortOrder fs)
        = PostFilterUI.lastFilterKey st ->
        PostFilterUI.filteredPosts st
        = PostFilterUI.computeFiltered Date_parse ps fs).
End WithDate.

End Spec.

(** ** The worked scenarios of the specification *)

Module Scenario.

(** Posts a and b; the scenario gives them no title, which the code does
    not read under an empty search term. *)
Definition postA : Post.t :=
  {| Post.id := "a"; Post.title := "a"; Post.date := "2024-01-01";
     Post.shortDescription := None; Post.tags := Some ["x"] |}.

Definition postB : Post.t :=
  {| Post.id := "b"; Post.title := "b"; Post.date := "2024-06-01";
     Post.shortDescription := None; Post.tags := Some ["y"] |}.

Definition posts : list Post.t := [postA; postB].

(** A new instance initialised with the two posts. *)
Definition ui : PostFilterUI.t :=
  PostFilterUI.init Date.parseISO posts PostFilterUI.new.


(** The same instance once zzz has been typed into the search box. *)
Definition uiZzz : PostFilterUI.t :=
  PostFilterUI.handle Date.parseISO (PostFilterUI.SearchInput "zzz") ui.

(** The site is opened without a fragment, then: home, posts, post a,
    back, back. *)
Definition navigation : list App.Op :=
  [App.NavigateTo "home" None; App.NavigateTo "posts" None;
   App.NavigateTo "posts" (Some "a"); App.GoBack; App.GoBack].

(** The same walk counted from the home view the site opens on. *)
Definition navigationFromHome : list App.Op :=
  [App.NavigateTo "posts" None; App.NavigateTo "posts" (Some "a");
   App.GoBack; App.GoBack].

(** Twelve navigations in a row. *)
Definition twelve : list App.Op :=
  [App.NavigateTo "posts" (Some "1"); App.NavigateTo "posts" (Some "2");
   App.NavigateTo "posts" (Some "3"); App.NavigateTo "posts" (Some "4");
   App.NavigateTo "posts" (Some "5"); App.NavigateTo "posts" (Some "6");
   App.NavigateTo "posts" (Some "7"); App.NavigateTo "posts" (Some "8");
   App.NavigateTo "posts" (Some "9"); App.NavigateTo "posts" (Some "10");
   App.NavigateTo "posts" (Some "11"); App.NavigateTo "posts" (Some "12")].

(** An index of three entries; the file of the second cannot be loaded. *)
Definition index : list App.PostMeta :=
  [ {| App.meta_id := "a"; App.meta_title := "a";
       App.meta_date := "2024-01-01"; App.meta_tags := Some ["x"] |};
    {| App.meta_id := "lost"; App.meta_title := "lost";
       App.meta_date := "2024-03-01"; App.meta_tags := None |};
    {| App.meta_id := "b"; App.meta_title := "b";
       App.meta_date := "2024-06-01"; App.meta_tags := Some ["y"] |} ].

Definition network : App.Network :=
  {| App.fetchIndex := Some index;
     App.fetchPost :=
       fun i => if String.eqb i "a" then Some (Some postA)
                else if String.eqb i "b" then Some (Some postB)
                else None;
     App.fetchLegacy := None |}.

(** The index is unavailable, the legacy file is there. *)
Definition legacyNetwork : App.Network :=
  {| App.fetchIndex := None;
     App.fetchPost := fun _ => None;
     App.fetchLegacy := Some [postA; postB] |}.

(** Nothing can be fetched. *)
Definition deadNetwork : App.Network :=
  {| App.fetchIndex := None;
     App.fetchPost := fun _ => None;
     App.fetchLegacy := None |}.

(** A gallery of three images; the second one does not load. *)
Definition image (s : string) : PostRenderer.GalleryImage :=
  {| PostRenderer.src := s; PostRenderer.alt := Some s;
     PostRenderer.caption := None; PostRenderer.isPlaceholder := false |}.

Definition gallery : list PostRenderer.GalleryImage :=
  [image "img/1.png"; image "img/2.png"; image "img/3.png"].

Definition check (i : nat) (s : string) : bool :=
  negb (String.eqb s "img/2.png").

Definition preloaded : PostRenderer.t :=
  PostRenderer.preloadGalleryImages check
    (PostRenderer.set_galleryImages gallery PostRenderer.new).

End Scenario.

(** ** filterUI.js: a session driven by the listeners alone *)

Module FilterSession.

(** The listeners firing one after the other. *)
Definition listen (Date_parse : string -> option Z)
  (events : list PostFilterUI.Event) (st : PostFilterUI.t) : PostFilterUI.t :=
  fold_left (fun s e => PostFilterUI.handle Date_parse e s) events st.

(** The instance of the list view: created, then initialised with the
    posts. *)
Definition opened (Date_parse : string -> option Z) (ps : list Post.t)
  : PostFilterUI.t :=
  PostFilterUI.init Date_parse ps PostFilterUI.new.

End FilterSession.

(** ** app.js: the cache of rendered list items *)

Module DomCache.

(** A [Map] with string keys: the entries in insertion order, one per
    key. *)
Definition Map (V : Type) : Type := list (string * V).

Section MapOps.
Context {V : Type}.

Fixpoint get (m : Map V) (k : string) : option V :=
  match m with
  | [] => None
  | (k', v) :: m' => if String.eqb k' k then Some v else get m' k
  end.

Definition has (m : Map V) (k : string) : bool :=
  match get m k with
  | Some _ => true
  | None => false
  end.

(** [set]: the value of an existing key is replaced where it stands, a new
    key is added at the end. *)
Fixpoint set (m : Map V) (k : string) (v : V) : Map V :=
  match m with
  | [] => [(k, v)]
  | (k', v') :: m' =>
      if String.eqb k' k then (k, v) :: m' else (k', v') :: set m' k v
  end.

Definition delete (m : Map V) (k : string) : Map V :=
  filter (fun e => negb (String.eqb (fst e) k)) m.

Definition clear (m : Map V) : Map V := [].

Definition size (m : Map V) : nat := List.length m.
End MapOps.

(** [domCache]; [Node] stands for the cloned containers of post pages and
    [Image] for the loaded image objects. *)
Section Cache.
Variables Node Image : Type.

Record t : Type := mk {
  postDetails : Map Node;
  postListItems : Map string;
  images : Map Image
}.

(** [clearPostCache(postId)]. *)
Definition clearPostCache (postId : string) (c : t) : t :=
  {| postDetails := delete (postDetails c) postId;
     postListItems := delete (postListItems c) postId;
     images := images c |}.

(** [clearAllCache()]. *)
Definition clearAllCache (c : t) : t :=
  {| postDetails := clear (postDetails c);
     postListItems := clear (postListItems c);
     images := images c |}.

(** The template literal of [createPostListItemHTML] is a parameter: it is
    a function of the post alone, which formats the date with the locale
    of the browser. *)
Variable itemHTML : Post.t -> string.

(** [createPostListItemHTML(post)]: the returned HTML and the cache after
    the call. *)
Definition createPostListItemHTML (post : Post.t) (c : t) : string * t :=
  let cacheKey := Post.id post +++ "-list" in
  if has (postListItems c) cacheKey then
    (match get (postListItems c) cacheKey with
     | Some html => html
     | None => ""
     end, c)
  else
    let html := itemHTML post in
    (html,
     {| postDetails := postDetails c;
        postListItems := set (postListItems c) cacheKey html;
        images := images c |}).

(** The body of [displayPosts] on a non-empty list: the items joined, the
    cache threaded through the calls. *)
Fixpoint displayItems (l : list Post.t) (c : t) : string * t :=
  match l with
  | [] => ("", c)
  | post :: l' =>
      let (html, c1) := createPostListItemHTML post c in
      let (rest, c2) := displayItems l' c1 in
      (html +++ rest, c2)
  end.
End Cache.

Arguments postDetails {Node Image} _.
Arguments postListItems {Node Image} _.
Arguments images {Node Image} _.
Arguments clearPostCache {Node Image} _ _.
Arguments clearAllCache {Node Image} _.
Arguments createPostListItemHTML {Node Image} _ _ _.
Arguments displayItems {Node Image} _ _ _.

End DomCache.

(** ** postRenderer.js: the inline gallery, its click handlers, escaping *)

Module Gallery.

(** [escapeHtml(text)]: the text becomes the content of a fresh element and
    the markup of that element is read back, which writes the ampersand,
    the two angle brackets and the no-break space as character
    references. *)
Definition escapeUnit (c : ascii) : string :=
  if Ascii.eqb c "&" then "&amp;"
  else if Ascii.eqb c "<" then "&lt;"
  else if Ascii.eqb c ">" then "&gt;"
  else if Ascii.eqb c "160" then "&nbsp;"
  else String c EmptyString.

Fixpoint escapeHtml (text : string) : string :=
  match text with
  | EmptyString => EmptyString
  | String c r => escapeUnit c +++ escapeHtml r
  end.

(** Reading one character reference or plain character back. *)
Definition unescapeUnit (s : string) : option (ascii * string) :=
  match s with
  | EmptyString => None
  | String c r =>
      if Ascii.eqb c "&" then
        match r with
        | String "a" (String "m" (String "p" (String ";" r'))) =>
            Some ("&"%char, r')
        | String "l" (String "t" (String ";" r')) => Some ("<"%char, r')
        | String "g" (String "t" (String ";" r')) => Some (">"%char, r')
        | String "n" (String "b" (String "s" (String "p" (String ";" r')))) =>
            Some ("160"%char, r')
        | _ => None
        end
      else Some (c, r)
  end.

(** [closeGallery()]. *)
Definition closeGallery (st : PostRenderer.t) : PostRenderer.t :=
  {| PostRenderer.galleryImages := PostRenderer.galleryImages st;
     PostRenderer.loadedGalleryImages := PostRenderer.loadedGalleryImages st;
     PostRenderer.currentGalleryImages := PostRenderer.currentGalleryImages st;
     PostRenderer.currentImageIndex := PostRenderer.currentImageIndex st;
     PostRenderer.placeholderImage := PostRenderer.placeholderImage st;
     PostRenderer.modalHidden := true;
     PostRenderer.galleryImg := PostRenderer.galleryImg st |}.

(** The images [renderPost] shows inline: [loadedGalleryImages.slice(0, 3)],
    and whether the item that stands for the others is there. *)
Definition displayImages (st : PostRenderer.t) : list PostRenderer.GalleryImage :=
  firstn 3 (PostRenderer.loadedGalleryImages st).

Definition hasMore (st : PostRenderer.t) : bool :=
  (3 <? List.length (PostRenderer.loadedGalleryImages st))%nat.

(** The items of the inline gallery. *)
Inductive Item : Type :=
| Inline (idx : nat)
| ShowAll.

(** A click on an item, with the handlers [setupGalleryHandlers] installs:
    an inline image opens the viewer at its own index unless it is a
    placeholder, the item for the others opens it at 0; a click on an item
    that is not on the page does nothing. *)
Definition click (item : Item) (st : PostRenderer.t) : option PostRenderer.t :=
  match item with
  | Inline idx =>
      match nth_error (displayImages st) idx with
      | Some img =>
          if PostRenderer.isPlaceholder img then Some st
          else PostRenderer.openGallery (Z.of_nat idx) st
      | None => Some st
      end
  | ShowAll =>
      if hasMore st then PostRenderer.openGallery 0 st else Some st
  end.

(** [n] requests of the same kind in a row. *)
Fixpoint repeatNav (o : PostRenderer.Nav) (n : nat) (st : PostRenderer.t)
  : option PostRenderer.t :=
  match n with
  | O => Some st
  | S n' =>
      match PostRenderer.navigate o st with
      | Some st' => repeatNav o n' st'
      | None => None
      end
  end.

End Gallery.

(** ** timeline.js: class TimelineRenderer *)

Module TimelineRenderer.

Record Accomplishment : Type := mkAccomplishment {
  title : string;
  description : string;
  year : Z;
  month : string
}.

Record Job : Type := mkJob {
  position : string;
  company : string;
  startYear : Z;
  startMonth : string;
  current : bool
}.

(** The document of timeline.json; either collection may be missing. *)
Record TimelineData : Type := mkData {
  accomplishments : option (list Accomplishment);
  workHistory : option (list Job)
}.

Record t : Type := mk {
  timelineData : option TimelineData;
  initialized : bool
}.

(** [constructor()]. *)
Definition new : t := {| timelineData := None; initialized := false |}.

(** What [fetch('timeline.json')] and [response.json()] come to. *)
Inductive Response : Type :=
| Rejected
| NotOk
| BadJSON
| Ok (data : TimelineData).

(** [loadTimelineData()]: the returned boolean and the instance after the
    call. *)
Definition loadTimelineData (r : Response) (st : t) : bool * t :=
  match r with
  | Ok data =>
      (true, {| timelineData := Some data; initialized := initialized st |})
  | _ => (false, st)
  end.

(** The names every object literal inherits; looking one of them up in
    [monthOrder] gives a function or an object, not undefined. *)
Definition inherited (m : string) : bool :=
  existsb (String.eqb m)
    ["constructor"; "hasOwnProperty"; "isPrototypeOf";
     "propertyIsEnumerable"; "toLocaleString"; "toString"; "valueOf";
     "__proto__"; "__defineGetter__"; "__defineSetter__";
     "__lookupGetter__"; "__lookupSetter__"].

(** [monthOrder[m] || 0] as an operand of the subtraction: the rank of a
    month name, 0 for a string that is no key, NaN for an inherited
    name. *)
Definition monthOrder (m : string) : JS.number :=
  if String.eqb m "January" then JS.Num 1
  else if String.eqb m "February" then JS.Num 2
  else if String.eqb m "March" then JS.Num 3
  else if String.eqb m "April" then JS.Num 4
  else if String.eqb m "May" then JS.Num 5
  else if String.eqb m "June" then JS.Num 6
  else if String.eqb m "July" then JS.Num 7
  else if String.eqb m "August" then JS.Num 8
  else if String.eqb m "September" then JS.Num 9
  else if String.eqb m "October" then JS.Num 10
  else if String.eqb m "November" then JS.Num 11
  else if String.eqb m "December" then JS.Num 12
  else if inherited m then JS.NaN
  else JS.Num 0.

Definition minus (a b : JS.number) : JS.number :=
  match a, b with
  | JS.Num x, JS.Num y => JS.Num (x - y)
  | _, _ => JS.NaN
  end.

(** The comparator of [getAccomplishments]. *)
Definition byDate (a b : Accomplishment) : JS.number :=
  if negb (year b =? year a)%Z then JS.Num (year b - year a)
  else minus (monthOrder (month b)) (monthOrder (month a)).

(** The comparator of [getWorkHistory]. *)
Definition byStart (a b : Job) : JS.number :=
  if negb (startYear b =? startYear a)%Z
  then JS.Num (startYear b - startYear a)
  else minus (monthOrder (startMonth b)) (monthOrder (startMonth a)).

(** [getAccomplishments()]. *)
Definition getAccomplishments (st : t) : list Accomplishment :=
  match timelineData st with
  | None => []
  | Some data =>
      match accomplishments data with
      | None => []
      | Some l => JS.sort byDate l
      end
  end.

(** [getWorkHistory()]. *)
Definition getWorkHistory (st : t) : list Job :=
  match timelineData st with
  | None => []
  | Some data =>
      match workHistory data with
      | None => []
      | Some l => JS.sort byStart l
      end
  end.

(** The comparator of [getAccomplishments] in the other copy of the file
    (js/timeline.js), which orders the accomplishments oldest first. *)
Definition byDateChronological (a b : Accomplishment) : JS.number :=
  if negb (year a =? year b)%Z then JS.Num (year a - year b)
  else minus (monthOrder (month a)) (monthOrder (month b)).

Definition getAccomplishmentsChronological (st : t) : list Accomplishment :=
  match timelineData st with
  | None => []
  | Some data =>
      match accomplishments data with
      | None => []
      | Some l => JS.sort byDateChronological l
      end
  end.

End TimelineRenderer.

(** ** scripts/generate-index.js *)

Module GenerateIndex.

(** [String.prototype.endsWith]. *)
Definition endsWith (s suffix : string) : bool :=
  let n := String.length s in
  let m := String.length suffix in
  (m <=? n)%nat && String.eqb (String.substring (n - m) m s) suffix.

(** A file of the posts directory: its name and what
    [JSON.parse(fs.readFileSync(...))] gives for it, [None] when that
    throws. *)
Definition File : Type := (string * option Post.t)%type.

(** The callback of [filter]. *)
Definition isPostFile (file : string) : bool :=
  endsWith file ".json" && negb (String.eqb file "index.json").

(** The record built by the callback of [map]; [content.tags || []]. *)
Definition entryOf (content : Post.t) : App.PostMeta :=
  {| App.meta_id := Post.id content;
     App.meta_title := Post.title content;
     App.meta_date := Post.date content;
     App.meta_tags := Some (match Post.tags content with
                            | Some ts => ts
                            | None => []
                            end) |}.

(** [map] with a callback that may throw: the first failure ends it. *)
Fixpoint readAll (files : list File) : option (list App.PostMeta) :=
  match files with
  | [] => Some []
  | (_, None) :: _ => None
  | (_, Some content) :: files' =>
      match readAll files' with
      | Some l => Some (entryOf content :: l)
      | None => None
      end
  end.

Section WithDate.
Variable Date_parse : string -> option Z.

Definition newestFirst (a b : App.PostMeta) : JS.number :=
  PostFilterUI.dateDiff Date_parse (App.meta_date b) (App.meta_date a).

(** The script: the entries written to posts/index.json, [None] when it
    stops on an exception and writes nothing. *)
Definition generate (dir : list File) : option (list App.PostMeta) :=
  match readAll (filter (fun f => isPostFile (fst f)) dir) with
  | Some l => Some (JS.sort newestFirst l)
  | None => None
  end.
End WithDate.

End GenerateIndex.

(** ** The order of the timeline, in words *)

Module TimelineOrder.

(** The number a month counts for in the comparators: 1 to 12 for the
    month names, 0 for anything else. *)
Definition monthNumber (m : string) : Z :=
  match TimelineRenderer.monthOrder m with
  | JS.Num n => n
  | JS.NaN => 0%Z
  end.

(** The date (y1, m1) is not before the date (y2, m2). *)
Definition notBefore (y1 : Z) (m1 : string) (y2 : Z) (m2 : string) : Prop :=
  (y2 < y1)%Z \/ (y1 = y2 /\ (monthNumber m2 <= monthNumber m1)%Z).

(** The date (y', m') counts as the year [y] and the month number [n]. *)
Definition onDate (y n : Z) (y' : Z) (m' : string) : bool :=
  (y' =? y)%Z && (monthNumber m' =? n)%Z.

(** Two comparators of the shape the getters use, on any record with a
    year and a month: later dates first, and earlier dates first. *)
Section Shape.
Context {A : Type} (yearOf : A -> Z) (monthOf : A -> string).

Definition descending (a b : A) : JS.number :=
  if negb (yearOf b =? yearOf a)%Z then JS.Num (yearOf b - yearOf a)
  else TimelineRenderer.minus (TimelineRenderer.monthOrder (monthOf b))
         (TimelineRenderer.monthOrder (monthOf a)).

Definition ascending (a b : A) : JS.number :=
  if negb (yearOf a =? yearOf b)%Z then JS.Num (yearOf a - yearOf b)
  else TimelineRenderer.minus (TimelineRenderer.monthOrder (monthOf a))
         (TimelineRenderer.monthOrder (monthOf b)).
End Shape.

End TimelineOrder.

(** ** Data for the worked examples of the further properties *)

Module Examples.

Definition postC : Post.t :=
  {| Post.id := "c"; Post.title := "Deploy Notes"; Post.date := "2023-02-10";
     Post.shortDescription := Some "Shipping the site";
     Post.tags := Some ["y"; "ops"] |}.

Definition posts : list Post.t :=
  [Scenario.postA; Scenario.postB; postC].

Definition ui : PostFilterUI.t := FilterSession.opened Date.parseISO posts.



Definition cache : DomCache.t unit unit :=
  {| DomCache.postDetails := []; DomCache.postListItems := [];
     DomCache.images := [] |}.

Definition itemHTML (post : Post.t) : string :=
  "<article>" +++ Post.title post +++ "</article>".

(** Post a with another title. *)
Definition postA' : Post.t :=
  {| Post.id := "a"; Post.title := "renamed"; Post.date := "2024-01-01";
     Post.shortDescription := None; Post.tags := Some ["x"] |}.

(** The viewer opened on the preloaded gallery of the scenario. *)
Definition gallery4 : list PostRenderer.GalleryImage :=
  [Scenario.image "img/1.png"; Scenario.image "img/2.png";
   Scenario.image "img/3.png"; Scenario.image "img/4.png"].

Definition allLoaded : PostRenderer.t :=
  PostRenderer.preloadGalleryImages (fun _ _ => true)
    (PostRenderer.set_galleryImages gallery4 PostRenderer.new).

Definition timeline : TimelineRenderer.TimelineData :=
  {| TimelineRenderer.accomplishments :=
       Some [ {| TimelineRenderer.title := "first";
                 TimelineRenderer.description := "";
                 TimelineRenderer.year := 2022;
                 TimelineRenderer.month := "March" |};
              {| TimelineRenderer.title := "second";
                 TimelineRenderer.description := "";
                 TimelineRenderer.year := 2024;
                 TimelineRenderer.month := "January" |};
              {| TimelineRenderer.title := "third";
                 TimelineRenderer.description := "";
                 TimelineRenderer.year := 2024;
                 TimelineRenderer.month := "Spring" |} ];
     TimelineRenderer.workHistory :=
       Some [ {| TimelineRenderer.position := "intern";
                 TimelineRenderer.company := "A";
                 TimelineRenderer.startYear := 2021;
                 TimelineRenderer.startMonth := "June";
                 TimelineRenderer.current := false |};
              {| TimelineRenderer.position := "developer";
                 TimelineRenderer.company := "B";
                 TimelineRenderer.startYear := 2023;
                 TimelineRenderer.startMonth := "May";
                 TimelineRenderer.current := true |} ] |}.

Definition loaded : TimelineRenderer.t :=
  snd (TimelineRenderer.loadTimelineData (TimelineRenderer.Ok timeline)
         TimelineRenderer.new).

(** A posts directory: two posts, the index of an earlier run that no
    longer parses, and a file that is no JSON file. *)
Definition directory : list GenerateIndex.File :=
  [("a.json", Some Scenario.postA); ("index.json", None);
   ("notes.txt", None); ("b.json", Some Scenario.postB)].

End Examples.

(* ================================================================== *)
(** * Part II: properties                                               *)
(* ================================================================== *)

(** ** Serialisation: different filter states have different keys *)

Lemma append_assoc (a b c : string) : (a +++ b) +++ c = a +++ (b +++ c).
Proof.
  induction a as [|x a IH]; simpl; [reflexivity | now rewrite IH].
Qed.

Lemma append_empty_r (a : string) : a +++ "" = a.
Proof.
  induction a as [|x a IH]; simpl; [reflexivity | now rewrite IH].
Qed.

Lemma String_tail_inj (a b : ascii) (s t : string) :
  String a s = String b t -> s = t.
Proof. intros H. now injection H. Qed.

Lemma unquoteUnit_quoteUnit (c : ascii) (r : string) :
  JS.unquoteUnit (JS.quoteUnit c +++ r) = Some (c, r).
Proof.
  destruct c as [[] [] [] [] [] [] [] []]; reflexivity.
Qed.

Lemma quoteBody_inj (s1 : string) :
  forall s2 r1 r2,
    JS.quoteBody s1 +++ String JS.dquote r1
    = JS.quoteBody s2 +++ String JS.dquote r2 ->
    s1 = s2 /\ r1 = r2.
Proof.
  induction s1 as [|c1 s1 IH]; intros [|c2 s2] r1 r2 H; simpl in H.
  - injection H as ->. now split.
  - apply (f_equal JS.unquoteUnit) in H.
    rewrite append_assoc, unquoteUnit_quoteUnit in H. discriminate H.
  - apply (f_equal JS.unquoteUnit) in H.
    rewrite append_assoc, unquoteUnit_quoteUnit in H. discriminate H.
  - apply (f_equal JS.unquoteUnit) in H.
    rewrite !append_assoc, !unquoteUnit_quoteUnit in H.
    injection H as -> H.
    destruct (IH _ _ _ H) as [-> ->]. now split.
Qed.

Lemma quoteJSONString_inj (s1 s2 r1 r2 : string) :
  JS.quoteJSONString s1 +++ r1 = JS.quoteJSONString s2 +++ r2 ->
  s1 = s2 /\ r1 = r2.
Proof.
  unfold JS.quoteJSONString. simpl. intros H. injection H as H.
  rewrite !append_assoc in H. simpl in H.
  now apply quoteBody_inj.
Qed.

Lemma concat_quoted_inj (l1 : list string) :
  forall l2 r1 r2,
    String.concat "," (map JS.quoteJSONString l1) +++ String "]" r1
    = String.concat "," (map JS.quoteJSONString l2) +++ String "]" r2 ->
    l1 = l2 /\ r1 = r2.
Proof.
  induction l1 as [|x l1 IH]; intros [|y l2] r1 r2 H.
  - simpl in H. injection H as ->. now split.
  - exfalso. destruct l2; simpl in H; discriminate H.
  - exfalso. destruct l1; simpl in H; discriminate H.
  - assert (E : forall (z : string) (l : list string) (r : string),
               String.concat "," (map JS.quoteJSONString (z :: l))
                 +++ String "]" r
               = JS.quoteJSONString z
                   +++ match l with
                       | [] => String "]" r
                       | _ :: _ =>
                           String ","
                             (String.concat "," (map JS.quoteJSONString l)
                                +++ String "]" r)
                       end).
    { intros z [|w l] r; [reflexivity|].
      cbn [map String.concat]. now rewrite !append_assoc. }
    rewrite !E in H. apply quoteJSONString_inj in H. destruct H as [-> H].
    destruct l1 as [|x1 l1], l2 as [|y1 l2]; try discriminate H.
    + injection H as ->. now split.
    + apply String_tail_inj in H.
      destruct (IH _ _ _ H) as [E' ->]. now rewrite E'.
Qed.

Lemma stringifyArray_inj (l1 l2 : list string) (r1 r2 : string) :
  JS.stringifyArray l1 +++ r1 = JS.stringifyArray l2 +++ r2 ->
  l1 = l2 /\ r1 = r2.
Proof.
  unfold JS.stringifyArray. simpl. intros H. injection H as H.
  rewrite !append_assoc in H. simpl in H.
  now apply concat_quoted_inj.
Qed.

Lemma append_prefix_inj (p a b : string) : p +++ a = p +++ b -> a = b.
Proof.
  induction p as [|c p IH]; simpl; intros H; [exact H|].
  apply IH. now injection H.
Qed.

Lemma filterKeyOf_inj (s1 s2 : string) (t1 t2 : list string) (o1 o2 : string) :
  PostFilterUI.filterKeyOf s1 t1 o1 = PostFilterUI.filterKeyOf s2 t2 o2 ->
  s1 = s2 /\ t1 = t2 /\ o1 = o2.
Proof.
  unfold PostFilterUI.filterKeyOf. intros H.
  do 3 apply append_prefix_inj in H.
  apply quoteJSONString_inj in H. destruct H as [-> H].
  do 3 apply append_prefix_inj in H.
  apply stringifyArray_inj in H. destruct H as [-> H].
  do 3 apply append_prefix_inj in H.
  apply quoteJSONString_inj in H. destruct H as [-> _].
  now repeat split.
Qed.

Lemma filterKeyOf_nonempty (s : string) (t : list string) (o : string) :
  PostFilterUI.filterKeyOf s t o <> "".
Proof.
  unfold PostFilterUI.filterKeyOf. simpl. discriminate.
Qed.

(** ** The stable sort *)

Section SortFacts.
Context {A : Type} (cmp : A -> A -> JS.number).

Lemma insert_perm (x : A) (l : list A) :
  Permutation (x :: l) (JS.insert cmp x l).
Proof.
  induction l as [|y l IH]; simpl; [apply Permutation_refl|].
  destruct (JS.positive (cmp x y)); [|apply Permutation_refl].
  eapply perm_trans; [apply perm_swap|]. now apply perm_skip.
Qed.

Lemma sort_perm (l : list A) : Permutation l (JS.sort cmp l).
Proof.
  induction l as [|x l IH]; simpl; [apply perm_nil|].
  eapply perm_trans; [apply perm_skip, IH | apply insert_perm].
Qed.

Lemma sort_In (l : list A) (x : A) : In x (JS.sort cmp l) <-> In x l.
Proof.
  split; apply Permutation_in;
    [apply Permutation_sym|]; apply sort_perm.
Qed.

Lemma sort_length (l : list A) : List.length (JS.sort cmp l) = List.length l.
Proof. symmetry. apply Permutation_length, sort_perm. Qed.

Lemma sort_nil_iff (l : list A) : JS.sort cmp l = [] <-> l = [].
Proof.
  split; intros H.
  - apply length_zero_iff_nil. rewrite <- sort_length, H. reflexivity.
  - now subst.
Qed.

(** Stability: an element never passes one of its own class. *)
Section Stable.
Variable P : A -> bool.
Hypothesis same_class :
  forall x y, P x = true -> P y = true -> JS.positive (cmp x y) = false.

Lemma filter_insert (x : A) (l : list A) :
  filter P (JS.insert cmp x l) = filter P (x :: l).
Proof.
  induction l as [|y l IH]; [reflexivity|].
  cbn [JS.insert].
  destruct (JS.positive (cmp x y)) eqn:E; [|reflexivity].
  cbn [filter] in *. rewrite IH.
  destruct (P x) eqn:Px, (P y) eqn:Py; try reflexivity.
  rewrite (same_class x y Px Py) in E. discriminate E.
Qed.

Lemma sort_stable (l : list A) : filter P (JS.sort cmp l) = filter P l.
Proof.
  induction l as [|x l IH]; [reflexivity|].
  cbn [JS.sort]. rewrite filter_insert. cbn [filter]. now rewrite IH.
Qed.
End Stable.

(** Order: when the comparator is the difference of two ranks, the result
    is sorted by rank. *)
Section Ranked.
Variable rank : A -> option Z.
Hypothesis cmp_rank :
  forall x y rx ry,
    rank x = Some rx -> rank y = Some ry ->
    JS.positive (cmp x y) = (ry <? rx)%Z.

Lemma byRank_trans (a b c : A) :
  Spec.byRank rank a b -> Spec.byRank rank b c -> Spec.byRank rank a c.
Proof.
  intros (ra & rb & Ha & Hb & Hab) (rb' & rc & Hb' & Hc & Hbc).
  rewrite Hb in Hb'. injection Hb' as <-.
  exists ra, rc. repeat split; auto. lia.
Qed.

Lemma insert_sorted (x : A) (l : list A) :
  rank x <> None ->
  Forall (fun y => rank y <> None) l ->
  StronglySorted (Spec.byRank rank) l ->
  StronglySorted (Spec.byRank rank) (JS.insert cmp x l).
Proof.
  intros Hx Hl Hs. induction Hs as [|y l Hs IH Hy]; cbn [JS.insert].
  - constructor; constructor.
  - inversion Hl as [|? ? Hyv Hlv]; subst.
    assert (Ex : exists rx, rank x = Some rx)
      by (destruct (rank x); [eauto | congruence]).
    assert (Ey : exists ry, rank y = Some ry)
      by (destruct (rank y); [eauto | congruence]).
    destruct Ex as [rx Ex]. destruct Ey as [ry Ey].
    rewrite (cmp_rank x y rx ry Ex Ey).
    destruct (Z.ltb_spec ry rx) as [Hlt|Hge].
    + constructor; [now apply IH|].
      apply Forall_forall. intros z Hz.
      apply (Permutation_in _ (Permutation_sym (insert_perm x l))) in Hz.
      destruct Hz as [<-|Hz].
      * exists ry, rx. repeat split; auto. lia.
      * rewrite Forall_forall in Hy. now apply Hy.
    + assert (Hxy : Spec.byRank rank x y) by (exists rx, ry; repeat split; auto).
      constructor; [now constructor|].
      constructor; [exact Hxy|].
      rewrite Forall_forall in Hy |- *. intros z Hz.
      eapply byRank_trans; [exact Hxy | now apply Hy].
Qed.

Lemma sort_sorted (l : list A) :
  Forall (fun y => rank y <> None) l ->
  StronglySorted (Spec.byRank rank) (JS.sort cmp l).
Proof.
  induction l as [|x l IH]; intros Hl; cbn [JS.sort]; [constructor|].
  inversion Hl as [|? ? Hx Hl']; subst.
  apply insert_sorted; auto.
  rewrite Forall_forall in Hl' |- *. intros y Hy.
  apply Hl'. now apply sort_In.
Qed.
End Ranked.

(** A list in which no element could move is left as it is. *)
Lemma sort_fixed (l : list A) :
  Sorted (fun a b => JS.positive (cmp a b) = false) l ->
  JS.sort cmp l = l.
Proof.
  induction 1 as [|x l Hs IH Hx]; [reflexivity|].
  cbn [JS.sort]. rewrite IH.
  destruct Hx as [|y l' Hxy]; [reflexivity|].
  cbn [JS.insert]. now rewrite Hxy.
Qed.

Lemma insert_locally_sorted (x : A) (l : list A) :
  (forall a b, JS.positive (cmp a b) = true -> JS.positive (cmp b a) = false) ->
  Sorted (fun a b => JS.positive (cmp a b) = false) l ->
  Sorted (fun a b => JS.positive (cmp a b) = false) (JS.insert cmp x l).
Proof.
  intros asym Hs. induction Hs as [|y l Hs IH Hy]; cbn [JS.insert].
  - repeat constructor.
  - destruct (JS.positive (cmp x y)) eqn:E.
    + constructor; [exact IH|].
      destruct Hy as [|z l' Hyz]; cbn [JS.insert].
      * constructor. now apply asym.
      * destruct (JS.positive (cmp x z)); constructor; auto.
    + constructor; [now constructor | now constructor].
Qed.

Lemma sort_locally_sorted (l : list A) :
  (forall a b, JS.positive (cmp a b) = true -> JS.positive (cmp b a) = false) ->
  Sorted (fun a b => JS.positive (cmp a b) = false) (JS.sort cmp l).
Proof.
  intros asym. induction l as [|x l IH]; cbn [JS.sort]; [constructor|].
  now apply insert_locally_sorted.
Qed.

Lemma sort_idempotent (l : list A) :
  (forall a b, JS.positive (cmp a b) = true -> JS.positive (cmp b a) = false) ->
  JS.sort cmp (JS.sort cmp l) = JS.sort cmp l.
Proof.
  intros asym. apply sort_fixed. now apply sort_locally_sorted.
Qed.
End SortFacts.

Lemma defaultCompare_asym (a b : string) :
  JS.positive (JS.defaultCompare a b) = true ->
  JS.positive (JS.defaultCompare b a) = false.
Proof.
  unfold JS.defaultCompare.
  destruct (String.ltb a b) eqn:Eab, (String.ltb b a) eqn:Eba;
    cbn; try reflexivity; discriminate.
Qed.

Lemma sort_tags_idempotent (l : list string) :
  JS.sort JS.defaultCompare (JS.sort JS.defaultCompare l)
  = JS.sort JS.defaultCompare l.
Proof. apply sort_idempotent, defaultCompare_asym. Qed.

(** ** Substring search and case folding *)

Lemma startsWith_spec (p s : string) :
  JS.startsWith s p = true <-> exists post, s = p +++ post.
Proof.
  revert s. induction p as [|a p IH]; intros s; cbn [JS.startsWith].
  - split; [intros _; now exists s | reflexivity].
  - destruct s as [|b s].
    + split; [discriminate | intros [post H]; discriminate H].
    + rewrite andb_true_iff, IH. split.
      * intros [E [post ->]]. apply Ascii.eqb_eq in E. subst b.
        now exists post.
      * intros [post H]. cbn in H. injection H as -> ->.
        split; [apply Ascii.eqb_refl | now exists post].
Qed.

Lemma includes_spec (s sub : string) :
  JS.includes s sub = true <-> exists pre post, s = pre +++ sub +++ post.
Proof.
  induction s as [|c s IH]; cbn [JS.includes]; rewrite orb_true_iff.
  - rewrite startsWith_spec. split.
    + intros [[post H]|H]; [|discriminate H]. now exists "", post.
    + intros (pre & post & H). left.
      destruct pre; [now exists post | discriminate H].
  - rewrite startsWith_spec, IH. split.
    + intros [[post H]|(pre & post & H)].
      * now exists "", post.
      * exists (String c pre), post. cbn. now rewrite H.
    + intros (pre & post & H). destruct pre as [|d pre].
      * left. now exists post.
      * right. cbn in H. injection H as _ H. now exists pre, post.
Qed.

Lemma toLowerCase_append (a b : string) :
  JS.toLowerCase (a +++ b) = JS.toLowerCase a +++ JS.toLowerCase b.
Proof.
  induction a as [|c a IH]; cbn; [reflexivity | now rewrite IH].
Qed.

Lemma toLowerCase_split (s : string) :
  forall a b,
    JS.toLowerCase s = a +++ b ->
    exists a' b', s = a' +++ b'
                  /\ JS.toLowerCase a' = a /\ JS.toLowerCase b' = b.
Proof.
  induction s as [|c s IH]; intros a b H.
  - destruct a; [|discriminate H]. cbn in H. subst b.
    now exists "", "".
  - destruct a as [|d a].
    + cbn in H. subst b. now exists "", (String c s).
    + cbn in H. injection H as <- H.
      destruct (IH _ _ H) as (a' & b' & -> & <- & <-).
      now exists (String c a'), b'.
Qed.

Lemma sameIgnoringCase_iff (a b : string) :
  Spec.sameIgnoringCase a b <-> JS.toLowerCase a = JS.toLowerCase b.
Proof.
  split.
  - induction 1 as [|x y s t Hxy _ IH]; cbn; [reflexivity|].
    now rewrite Hxy, IH.
  - revert b. induction a as [|x a IH]; intros [|y b] H;
      try discriminate H.
    + constructor.
    + cbn in H. injection H as Hxy H. constructor; auto.
Qed.

Lemma includes_ignoring_case (term text : string) :
  JS.includes (JS.toLowerCase text) (JS.toLowerCase term) = true
  <-> Spec.matchesIgnoringCase term text.
Proof.
  rewrite includes_spec. unfold Spec.matchesIgnoringCase. split.
  - intros (pre & post & H).
    apply toLowerCase_split in H. destruct H as (pre' & rest & -> & _ & H).
    apply toLowerCase_split in H. destruct H as (mid & post' & -> & H & _).
    exists pre', mid, post'. split; [reflexivity|].
    now apply sameIgnoringCase_iff.
  - intros (pre & mid & post & -> & H). apply sameIgnoringCase_iff in H.
    exists (JS.toLowerCase pre), (JS.toLowerCase post).
    now rewrite !toLowerCase_append, H.
Qed.

Lemma truthy_false_iff (s : string) : JS.truthy s = false <-> s = "".
Proof. destruct s; cbn; split; congruence. Qed.

Lemma arrayIncludes_In (l : list string) (x : string) :
  JS.arrayIncludes l x = true <-> In x l.
Proof.
  unfold JS.arrayIncludes. rewrite existsb_exists. split.
  - intros (y & Hy & E). apply String.eqb_eq in E. now subst.
  - intros H. exists x. split; [exact H | apply String.eqb_refl].
Qed.

(** ** The two filters against the predicates of the specification *)

Lemma searchMatch_spec (term : string) (p : Post.t) :
  PostFilterUI.searchMatch (JS.toLowerCase term) p = true
  <-> Spec.matchesIgnoringCase term (Post.title p)
      \/ (exists d, Post.shortDescription p = Some d
                    /\ Spec.matchesIgnoringCase term d)
      \/ (exists ts tag, Post.tags p = Some ts /\ In tag ts
                         /\ Spec.matchesIgnoringCase term tag).
Proof.
  unfold PostFilterUI.searchMatch.
  rewrite !orb_true_iff, includes_ignoring_case, or_assoc.
  apply or_iff_compat_l. apply Morphisms_Prop.or_iff_morphism.
  - destruct (Post.shortDescription p) as [d|].
    + rewrite includes_ignoring_case. split.
      * intros H. now exists d.
      * intros (d' & E & H). now injection E as ->.
    + split; [discriminate | intros (d' & E & _); discriminate E].
  - destruct (Post.tags p) as [ts|].
    + rewrite existsb_exists. split.
      * intros (tag & Hin & H). apply includes_ignoring_case in H.
        now exists ts, tag.
      * intros (ts' & tag & E & Hin & H). injection E as <-.
        exists tag. split; [exact Hin | now apply includes_ignoring_case].
    + split; [discriminate | intros (ts' & tag & E & _); discriminate E].
Qed.

Lemma tagMatch_spec (selected : list string) (p : Post.t) :
  PostFilterUI.tagMatch selected p = true
  <-> exists ts tag, Post.tags p = Some ts /\ In tag ts /\ In tag selected.
Proof.
  unfold PostFilterUI.tagMatch. destruct (Post.tags p) as [ts|].
  - rewrite existsb_exists. split.
    + intros (tag & Hsel & H). apply arrayIncludes_In in H.
      now exists ts, tag.
    + intros (ts' & tag & E & Hin & Hsel). injection E as <-.
      exists tag. split; [exact Hsel | now apply arrayIncludes_In].
  - split; [discriminate | intros (ts' & tag & E & _); discriminate E].
Qed.

Lemma kept_spec (fs : PostFilterUI.FilterState) (p : Post.t) :
  Spec.kept fs p = true
  <-> Spec.searchPredicate (PostFilterUI.searchTerm fs) p
      /\ Spec.tagPredicate (PostFilterUI.selectedTags fs) p.
Proof.
  unfold Spec.kept, Spec.searchPredicate, Spec.tagPredicate.
  rewrite andb_true_iff. apply Morphisms_Prop.and_iff_morphism.
  - destruct (JS.truthy (PostFilterUI.searchTerm fs)) eqn:E.
    + rewrite searchMatch_spec. split; [now right|].
      intros [H|H]; [|exact H]. rewrite H in E. discriminate E.
    + apply truthy_false_iff in E. split; [now left | reflexivity].
  - destruct (PostFilterUI.selectedTags fs) as [|t0 sel] eqn:E.
    + cbn. split; [now left | reflexivity].
    + cbn [List.length Nat.ltb Nat.leb]. rewrite tagMatch_spec.
      split; [now right|]. intros [H|H]; [discriminate H | exact H].
Qed.

(** ** The filter engine *)

Lemma filter_filter {A : Type} (f g : A -> bool) (l : list A) :
  filter f (filter g l) = filter (fun x => g x && f x) l.
Proof.
  induction l as [|x l IH]; cbn; [reflexivity|].
  destruct (g x); cbn; [destruct (f x)|]; now rewrite IH.
Qed.

Lemma filter_all {A : Type} (f : A -> bool) (l : list A) :
  (forall x, f x = true) -> filter f l = l.
Proof.
  intros H. induction l as [|x l IH]; cbn; [reflexivity|].
  now rewrite H, IH.
Qed.

Section FilterFacts.
Variable Date_parse : string -> option Z.

(** The body of [filterAndSortPosts]: one filter, then the sort. *)
Lemma computeFiltered_eq (ps : list Post.t) (fs : PostFilterUI.FilterState) :
  PostFilterUI.computeFiltered Date_parse ps fs
  = JS.sort (if String.eqb (PostFilterUI.sortOrder fs) "newest"
             then PostFilterUI.newestFirst Date_parse else PostFilterUI.oldestFirst Date_parse)
      (filter (Spec.kept fs) ps).
Proof.
  unfold PostFilterUI.computeFiltered, Spec.kept.
  set (sm := PostFilterUI.searchMatch _).
  set (tm := PostFilterUI.tagMatch _).
  assert (E : (if JS.truthy (PostFilterUI.searchTerm fs)
               then
                 if (0 <? List.length (PostFilterUI.selectedTags fs))%nat
                 then filter tm (filter sm ps) else filter sm ps
               else
                 if (0 <? List.length (PostFilterUI.selectedTags fs))%nat
                 then filter tm ps else ps)
              = filter
                  (fun p =>
                     (if JS.truthy (PostFilterUI.searchTerm fs)
                      then sm p else true)
                     && (if (0 <? List.length
                                    (PostFilterUI.selectedTags fs))%nat
                         then tm p else true)) ps).
  { destruct (JS.truthy _), (0 <? _)%nat.
    - apply filter_filter.
    - apply filter_ext. intros p. now rewrite andb_true_r.
    - reflexivity.
    - symmetry. now apply filter_all. }
  rewrite <- E.
  destruct (JS.truthy _), (0 <? _)%nat,
    (String.eqb (PostFilterUI.sortOrder fs) "newest"); reflexivity.
Qed.

Lemma computeFiltered_ext (ps : list Post.t)
  (fs fs' : PostFilterUI.FilterState) :
  PostFilterUI.searchTerm fs = PostFilterUI.searchTerm fs' ->
  PostFilterUI.selectedTags fs = PostFilterUI.selectedTags fs' ->
  PostFilterUI.sortOrder fs = PostFilterUI.sortOrder fs' ->
  PostFilterUI.computeFiltered Date_parse ps fs = PostFilterUI.computeFiltered Date_parse ps fs'.
Proof.
  unfold PostFilterUI.computeFiltered. now intros -> -> ->.
Qed.

Lemma filterKey_unfold (st : PostFilterUI.t) :
  PostFilterUI.filterKey st
  = PostFilterUI.filterKeyOf
      (PostFilterUI.searchTerm (PostFilterUI.filterState st))
      (JS.sort JS.defaultCompare
         (PostFilterUI.selectedTags (PostFilterUI.filterState st)))
      (PostFilterUI.sortOrder (PostFilterUI.filterState st)).
Proof. reflexivity. Qed.

Lemma filterKey_sortSelectedTags (st : PostFilterUI.t) :
  PostFilterUI.filterKey (PostFilterUI.sortSelectedTags st)
  = PostFilterUI.filterKey st.
Proof.
  rewrite !filterKey_unfold. cbn. now rewrite sort_tags_idempotent.
Qed.

Lemma cacheHit_true (st : PostFilterUI.t) :
  PostFilterUI.cacheHit st = true
  <-> PostFilterUI.filterKey st = PostFilterUI.lastFilterKey st
      /\ PostFilterUI.filteredPosts st <> [].
Proof.
  unfold PostFilterUI.cacheHit.
  rewrite andb_true_iff, String.eqb_eq, Nat.ltb_lt.
  destruct (PostFilterUI.filteredPosts st); cbn; split; intros [H1 H2];
    split; auto; try lia; try discriminate; congruence.
Qed.

(** The sorted selection filters as the selection itself does. *)
Lemma kept_sortSelectedTags (st : PostFilterUI.t) (p : Post.t) :
  Spec.kept (PostFilterUI.filterState (PostFilterUI.sortSelectedTags st)) p
  = Spec.kept (PostFilterUI.filterState st) p.
Proof.
  apply eq_true_iff_eq. rewrite !kept_spec. cbn.
  apply and_iff_compat_l. unfold Spec.tagPredicate.
  apply Morphisms_Prop.or_iff_morphism.
  - apply sort_nil_iff.
  - split; intros (ts & tag & E & Hin & Hsel); exists ts, tag;
      repeat split; auto; now apply (sort_In JS.defaultCompare).
Qed.

(** One call on a coherent instance computes the filter of the posts and
    leaves the instance coherent. *)
Lemma filterAndSortPosts_coherent (ps : list Post.t) (st : PostFilterUI.t) :
  Spec.cacheCoherent Date_parse ps st ->
  fst (PostFilterUI.filterAndSortPosts Date_parse st)
  = PostFilterUI.computeFiltered Date_parse ps
      (PostFilterUI.filterState (PostFilterUI.sortSelectedTags st))
  /\ Spec.cacheCoherent Date_parse ps (snd (PostFilterUI.filterAndSortPosts Date_parse st)).
Proof.
  intros [Hps Hc]. unfold PostFilterUI.filterAndSortPosts.
  destruct (PostFilterUI.cacheHit st) eqn:E.
  - apply cacheHit_true in E. destruct E as [Hk Hne]. cbn [fst snd].
    split.
    + cbn. apply (Hc Hne). rewrite <- Hk. apply filterKey_unfold.
    + split; [exact Hps | exact Hc].
  - cbn [fst snd]. split.
    + cbn. now rewrite Hps.
    + split; [exact Hps|].
      cbn [PostFilterUI.set_filteredPosts PostFilterUI.set_lastFilterKey
           PostFilterUI.lastFilterKey PostFilterUI.filteredPosts
           PostFilterUI.posts PostFilterUI.filterState
           PostFilterUI.sortSelectedTags PostFilterUI.set_filterState].
      intros _ fs Hfs.
      rewrite filterKey_unfold in Hfs.
      apply filterKeyOf_inj in Hfs. destruct Hfs as (H1 & H2 & H3).
      rewrite Hps. apply computeFiltered_ext; cbn; congruence.
Qed.

Lemma coherent_set_filterState (ps : list Post.t)
  (fs : PostFilterUI.FilterState) (st : PostFilterUI.t) :
  Spec.cacheCoherent Date_parse ps st ->
  Spec.cacheCoherent Date_parse ps (PostFilterUI.set_filterState fs st).
Proof. intros H. exact H. Qed.

Lemma coherent_no_key (ps : list Post.t) (st : PostFilterUI.t) :
  PostFilterUI.posts st = ps ->
  PostFilterUI.lastFilterKey st = "" ->
  Spec.cacheCoherent Date_parse ps st.
Proof.
  intros Hps Hk. split; [exact Hps|]. intros _ fs Hfs.
  rewrite Hk in Hfs. now apply filterKeyOf_nonempty in Hfs.
Qed.

Lemma coherent_init (ps : list Post.t) (st : PostFilterUI.t) :
  Spec.cacheCoherent Date_parse ps st ->
  Spec.cacheCoherent Date_parse ps (PostFilterUI.init Date_parse ps st).
Proof.
  intros [Hps Hc]. unfold PostFilterUI.init.
  apply filterAndSortPosts_coherent. split; [reflexivity | exact Hc].
Qed.

Lemma coherent_handle (ps : list Post.t) (e : PostFilterUI.Event)
  (st : PostFilterUI.t) :
  Spec.cacheCoherent Date_parse ps st ->
  Spec.cacheCoherent Date_parse ps (PostFilterUI.handle Date_parse e st).
Proof.
  intros H. destruct e as [v|tag [|]|v| | |]; cbn [PostFilterUI.handle];
    unfold PostFilterUI.applyFilters, PostFilterUI.resetFilters;
    try (apply filterAndSortPosts_coherent);
    try (apply coherent_set_filterState; exact H).
  apply coherent_no_key; [apply H | reflexivity].
Qed.

Lemma reachable_coherent (ps : list Post.t) (st : PostFilterUI.t) :
  PostFilterUI.reachable Date_parse ps st ->
  Spec.cacheCoherent Date_parse ps st.
Proof.
  induction 1 as [|e st _ IH|st _ IH|st _ IH|st _ IH|fs st _ IH|st].
  - unfold PostFilterUI.init. apply filterAndSortPosts_coherent.
    split; [reflexivity|]. intros Hne. now contradiction Hne.
  - now apply coherent_handle.
  - now apply coherent_init.
  - now apply filterAndSortPosts_coherent.
  - apply coherent_no_key; [apply IH | reflexivity].
  - now apply coherent_set_filterState.
  - unfold PostFilterUI.init. apply filterAndSortPosts_coherent.
    apply coherent_no_key; reflexivity.
Qed.

(** What a call returns in a session on the posts [ps]. *)
Lemma reachable_result (ps : list Post.t) (st : PostFilterUI.t) :
  PostFilterUI.reachable Date_parse ps st ->
  fst (PostFilterUI.filterAndSortPosts Date_parse st)
  = JS.sort (if String.eqb (PostFilterUI.sortOrder
                              (PostFilterUI.filterState st)) "newest"
             then PostFilterUI.newestFirst Date_parse else PostFilterUI.oldestFirst Date_parse)
      (filter (Spec.kept (PostFilterUI.filterState st)) ps).
Proof.
  intros H. apply reachable_coherent in H.
  destruct (filterAndSortPosts_coherent ps st H) as [-> _].
  rewrite computeFiltered_eq. cbn [PostFilterUI.sortSelectedTags
    PostFilterUI.set_filterState PostFilterUI.filterState
    PostFilterUI.set_selectedTags PostFilterUI.sortOrder].
  f_equal. apply filter_ext. intros p. apply kept_sortSelectedTags.
Qed.
End FilterFacts.

Lemma StronglySorted_weaken {A : Type} (R R' : A -> A -> Prop) (l : list A) :
  (forall a b, R a b -> R' a b) -> StronglySorted R l -> StronglySorted R' l.
Proof.
  intros HR. induction 1 as [|x l _ IH Hx]; constructor; [exact IH|].
  eapply Forall_impl; [|exact Hx]. intros b. apply HR.
Qed.

Section OrderFacts.
Variable Date_parse : string -> option Z.

Lemma sort_newestFirst_sorted (l : list Post.t) :
  Spec.validDates Date_parse l ->
  StronglySorted (Spec.notOlder Date_parse)
    (JS.sort (PostFilterUI.newestFirst Date_parse) l).
Proof.
  intros Hv.
  apply StronglySorted_weaken
    with (R := Spec.byRank
                 (fun p => option_map Z.opp (Date_parse (Post.date p)))).
  - intros a b (ra & rb & Ha & Hb & Hab). unfold Spec.notOlder.
    destruct (Date_parse (Post.date a)) as [ta|]; [|discriminate Ha].
    destruct (Date_parse (Post.date b)) as [tb|]; [|discriminate Hb].
    cbn in Ha, Hb. injection Ha as <-. injection Hb as <-.
    exists ta, tb. repeat split. lia.
  - apply sort_sorted.
    + intros x y rx ry Hx Hy.
      unfold PostFilterUI.newestFirst, PostFilterUI.dateDiff.
      destruct (Date_parse (Post.date x)) as [tx|]; [|discriminate Hx].
      destruct (Date_parse (Post.date y)) as [ty|]; [|discriminate Hy].
      cbn in Hx, Hy |- *. injection Hx as <-. injection Hy as <-.
      destruct (Z.ltb_spec 0 (ty - tx)), (Z.ltb_spec (- ty) (- tx));
        try reflexivity; lia.
    + eapply Forall_impl; [|exact Hv]. cbn. intros p Hp.
      destruct (Date_parse (Post.date p)); [discriminate | congruence].
Qed.

Lemma sort_oldestFirst_sorted (l : list Post.t) :
  Spec.validDates Date_parse l ->
  StronglySorted (Spec.notNewer Date_parse)
    (JS.sort (PostFilterUI.oldestFirst Date_parse) l).
Proof.
  intros Hv.
  apply StronglySorted_weaken
    with (R := Spec.byRank (fun p => Date_parse (Post.date p))).
  - intros a b H. exact H.
  - apply sort_sorted.
    + intros x y rx ry Hx Hy.
      unfold PostFilterUI.oldestFirst, PostFilterUI.dateDiff.
      rewrite Hx, Hy. cbn.
      destruct (Z.ltb_spec 0 (rx - ry)), (Z.ltb_spec ry rx);
        try reflexivity; lia.
    + exact Hv.
Qed.

Lemma dated_same_class_newest (t : Z) (x y : Post.t) :
  Spec.dated Date_parse t x = true ->
  Spec.dated Date_parse t y = true ->
  JS.positive (PostFilterUI.newestFirst Date_parse x y) = false.
Proof.
  unfold Spec.dated, PostFilterUI.newestFirst, PostFilterUI.dateDiff.
  destruct (Date_parse (Post.date x)) as [tx|]; [|discriminate].
  destruct (Date_parse (Post.date y)) as [ty|]; [|discriminate].
  intros Hx Hy. apply Z.eqb_eq in Hx, Hy. subst. cbn.
  apply Z.ltb_ge. lia.
Qed.


Lemma validDates_filter (f : Post.t -> bool) (l : list Post.t) :
  Spec.validDates Date_parse l -> Spec.validDates Date_parse (filter f l).
Proof.
  unfold Spec.validDates. rewrite !Forall_forall. intros H p Hp.
  apply filter_In in Hp. now apply H.
Qed.

End OrderFacts.

(** ** Claims on the filter engine *)

(** C1, as the code has it.  In a session on the posts [ps], that is on
    an instance initialised with [ps] when it was new or right after
    [clearCache()], and initialised again with [ps] only, whatever the
    filter state has become, the array returned by [filterAndSortPosts] is
    a subset of [ps], and a post is in it if and only if it is in [ps] and
    satisfies the search predicate (empty term, or a case-insensitive
    substring match on the title, the short description or some tag) and
    the tag predicate (empty selection, or a tag in common with it). *)
Theorem filterAndSortPosts_membership
  (Date_parse : string -> option Z) (ps : list Post.t) (st : PostFilterUI.t) :
  PostFilterUI.reachable Date_parse ps st ->
  let result := fst (PostFilterUI.filterAndSortPosts Date_parse st) in
  incl result ps
  /\ forall p,
       In p result
       <-> In p ps
           /\ Spec.searchPredicate
                (PostFilterUI.searchTerm (PostFilterUI.filterState st)) p
           /\ Spec.tagPredicate
                (PostFilterUI.selectedTags (PostFilterUI.filterState st)) p.
Proof.
  intros H result.
  assert (E : forall p,
             In p result
             <-> In p ps
                 /\ Spec.kept (PostFilterUI.filterState st) p = true).
  { intros p. unfold result. rewrite (reachable_result _ _ _ H).
    rewrite sort_In. apply filter_In. }
  split.
  - intros p Hp. now apply E in Hp.
  - intros p. rewrite E, kept_spec. reflexivity.
Qed.

(** On three posts, with SHIP typed into the search box and the tag y
    checked: of the two posts tagged y only the one whose description has
    the term is left.  And on an instance that held other posts, after
    [clearCache()] and [init]. *)
Lemma filterAndSortPosts_membership_witness :
  let st :=
    PostFilterUI.handle Date.parseISO (PostFilterUI.TagChange "y" true)
      (PostFilterUI.handle Date.parseISO (PostFilterUI.SearchInput "SHIP")
         Examples.ui) in
  let result := fst (PostFilterUI.filterAndSortPosts Date.parseISO st) in
  let st' :=
    PostFilterUI.init Date.parseISO Examples.posts
      (PostFilterUI.clearCache
         (PostFilterUI.init Date.parseISO [Scenario.postB] PostFilterUI.new)) in
  result = [Examples.postC]
  /\ incl result Examples.posts
  /\ (forall p,
        In p result
        <-> In p Examples.posts
            /\ Spec.searchPredicate "SHIP" p
            /\ Spec.tagPredicate ["y"] p)
  /\ incl (fst (PostFilterUI.filterAndSortPosts Date.parseISO st'))
       Examples.posts
  /\ List.length (fst (PostFilterUI.filterAndSortPosts Date.parseISO st'))
     = 3%nat.
Proof.
  intros st result st'.
  assert (R : PostFilterUI.reachable Date.parseISO Examples.posts st).
  { apply PostFilterUI.reach_handle, PostFilterUI.reach_handle.
    apply PostFilterUI.reach_init. }
  destruct (filterAndSortPosts_membership Date.parseISO Examples.posts st R)
    as [H1 H2].
  destruct (filterAndSortPosts_membership Date.parseISO Examples.posts st'
              (PostFilterUI.reach_cleared _ _ _)) as [H3 _].
  split; [vm_compute; reflexivity|]. split; [exact H1|].
  split; [exact H2|]. split; [exact H3 | vm_compute; reflexivity].
Defined.

(** The scenario of the specification with the tag x selected: only post
    a is left. *)
Example scenario_tag_x :
  fst (PostFilterUI.filterAndSortPosts Date.parseISO
         (PostFilterUI.handle Date.parseISO
            (PostFilterUI.TagChange "x" true) Scenario.ui))
  = [Scenario.postA].
Proof. vm_compute. reflexivity. Qed.

(** The claim as the specification words it, for every posts sequence the
    instance was initialised with, fails: [init] keeps the stored key and
    result, so an instance initialised with post a and then with post b,
    the filter state left at its defaults, returns post a, which is not
    among its posts, and leaves out post b, which passes both predicates.
    [clearCache()] is what the class offers for a change of the posts. *)
Lemma init_keeps_the_stored_result :
  let st :=
    PostFilterUI.init Date.parseISO [Scenario.postB]
      (PostFilterUI.init Date.parseISO [Scenario.postA] PostFilterUI.new) in
  let result := fst (PostFilterUI.filterAndSortPosts Date.parseISO st) in
  PostFilterUI.posts st = [Scenario.postB]
  /\ result = [Scenario.postA]
  /\ ~ incl result [Scenario.postB]
  /\ ~ (forall p,
          In p result
          <-> In p [Scenario.postB]
              /\ Spec.searchPredicate
                   (PostFilterUI.searchTerm (PostFilterUI.filterState st)) p
              /\ Spec.tagPredicate
                   (PostFilterUI.selectedTags (PostFilterUI.filterState st))
                   p).
Proof.
  intros st result.
  assert (E : result = [Scenario.postA]) by (vm_compute; reflexivity).
  split; [vm_compute; reflexivity|]. split; [exact E|]. split.
  - intros H. specialize (H Scenario.postA). rewrite E in H.
    destruct (H (or_introl eq_refl)) as [F|[]]. discriminate F.
  - intros H. destruct (proj1 (H Scenario.postA)) as [[F|[]] _].
    + rewrite E. now left.
    + discriminate F.
Qed.

(** Two calls in a row: what the second one returns and compares. *)
Lemma second_call
  (Date_parse : string -> option Z) (st : PostFilterUI.t) :
  let r1 := fst (PostFilterUI.filterAndSortPosts Date_parse st) in
  let st1 := snd (PostFilterUI.filterAndSortPosts Date_parse st) in
  let r2 := fst (PostFilterUI.filterAndSortPosts Date_parse st1) in
  r2 = r1
  /\ (r1 <> [] ->
      PostFilterUI.cacheHit st1 = true
      /\ r2 = PostFilterUI.filteredPosts st1)
  /\ PostFilterUI.lastFilterKey st1
     = PostFilterUI.filterKeyOf
         (PostFilterUI.searchTerm (PostFilterUI.filterState st))
         (JS.sort JS.defaultCompare
            (PostFilterUI.selectedTags (PostFilterUI.filterState st)))
         (PostFilterUI.sortOrder (PostFilterUI.filterState st))
  /\ forall st',
       PostFilterUI.filterKey st' = PostFilterUI.filterKey st
       <-> PostFilterUI.searchTerm (PostFilterUI.filterState st')
           = PostFilterUI.searchTerm (PostFilterUI.filterState st)
           /\ JS.sort JS.defaultCompare
                (PostFilterUI.selectedTags (PostFilterUI.filterState st'))
              = JS.sort JS.defaultCompare
                  (PostFilterUI.selectedTags (PostFilterUI.filterState st))
           /\ PostFilterUI.sortOrder (PostFilterUI.filterState st')
              = PostFilterUI.sortOrder (PostFilterUI.filterState st).
Proof.
  intros r1 st1 r2.
  assert (Hkey : PostFilterUI.lastFilterKey st1 = PostFilterUI.filterKey st).
  { unfold st1, PostFilterUI.filterAndSortPosts.
    destruct (PostFilterUI.cacheHit st) eqn:E; [|reflexivity].
    apply cacheHit_true in E. cbn. symmetry. apply E. }
  assert (Hkey1 : PostFilterUI.filterKey st1 = PostFilterUI.filterKey st).
  { unfold st1, PostFilterUI.filterAndSortPosts.
    destruct (PostFilterUI.cacheHit st);
      apply (filterKey_sortSelectedTags st). }
  assert (Hstored : PostFilterUI.filteredPosts st1 = r1).
  { unfold st1, r1, PostFilterUI.filterAndSortPosts.
    destruct (PostFilterUI.cacheHit st); reflexivity. }
  assert (Hhit : r1 <> [] -> PostFilterUI.cacheHit st1 = true).
  { intros Hne. apply cacheHit_true. split; [congruence|].
    now rewrite Hstored. }
  assert (Hret : PostFilterUI.cacheHit st1 = true ->
                 r2 = PostFilterUI.filteredPosts st1).
  { intros Hh. unfold r2, PostFilterUI.filterAndSortPosts.
    now rewrite Hh. }
  split; [|split; [|split]].
  - destruct (PostFilterUI.cacheHit st1) eqn:Hh.
    + now rewrite (Hret eq_refl).
    + destruct (PostFilterUI.cacheHit st) eqn:E.
      * exfalso.
        assert (Hr : r1 = PostFilterUI.filteredPosts st)
          by (unfold r1, PostFilterUI.filterAndSortPosts; now rewrite E).
        destruct (proj1 (cacheHit_true st) E) as [_ Hne].
        assert (F : false = true) by (apply Hhit; now rewrite Hr).
        discriminate F.
      * unfold r2, PostFilterUI.filterAndSortPosts. rewrite Hh.
        unfold r1, st1, PostFilterUI.filterAndSortPosts. rewrite E.
        cbn. now rewrite sort_tags_idempotent.
  - intros Hne. split; [now apply Hhit | apply Hret; now apply Hhit].
  - rewrite Hkey. apply filterKey_unfold.
  - intros st'. rewrite !filterKey_unfold. split.
    + apply filterKeyOf_inj.
    + now intros (-> & -> & ->).
Qed.

(** A call leaves the selected tags sorted, so sorting them again changes
    nothing. *)
Lemma sortSelectedTags_after_call
  (Date_parse : string -> option Z) (st : PostFilterUI.t) :
  PostFilterUI.sortSelectedTags
    (snd (PostFilterUI.filterAndSortPosts Date_parse st))
  = snd (PostFilterUI.filterAndSortPosts Date_parse st).
Proof.
  unfold PostFilterUI.filterAndSortPosts.
  destruct (PostFilterUI.cacheHit st); cbn;
    unfold PostFilterUI.sortSelectedTags, PostFilterUI.set_filterState,
      PostFilterUI.set_selectedTags; cbn;
    now rewrite sort_tags_idempotent.
Qed.

(** C2.  Two calls of [filterAndSortPosts] in a row, nothing changed in
    between, return the same array.  When the first result is not empty the
    second call takes the early return: it hands back the stored array and
    writes nothing, the instance is after it what it was before.  The
    early return itself, on any instance: it is taken exactly when the
    stored key is the serialisation of the search term, the sorted
    selected tags and the sort order and the stored array is not empty,
    and the call then returns the stored array as it is, whatever the
    posts are, and changes nothing but the order of the selected tags.
    Two instances have the same key exactly when they agree on the three
    components. *)
Theorem filterAndSortPosts_idempotent
  (Date_parse : string -> option Z) (st : PostFilterUI.t) :
  let r1 := fst (PostFilterUI.filterAndSortPosts Date_parse st) in
  let st1 := snd (PostFilterUI.filterAndSortPosts Date_parse st) in
  let r2 := fst (PostFilterUI.filterAndSortPosts Date_parse st1) in
  r2 = r1
  /\ (r1 <> [] ->
      PostFilterUI.cacheHit st1 = true
      /\ r2 = PostFilterUI.filteredPosts st1)
  /\ PostFilterUI.lastFilterKey st1
     = PostFilterUI.filterKeyOf
         (PostFilterUI.searchTerm (PostFilterUI.filterState st))
         (JS.sort JS.defaultCompare
            (PostFilterUI.selectedTags (PostFilterUI.filterState st)))
         (PostFilterUI.sortOrder (PostFilterUI.filterState st))
  /\ (forall st',
        PostFilterUI.filterKey st' = PostFilterUI.filterKey st
        <-> PostFilterUI.searchTerm (PostFilterUI.filterState st')
            = PostFilterUI.searchTerm (PostFilterUI.filterState st)
            /\ JS.sort JS.defaultCompare
                 (PostFilterUI.selectedTags (PostFilterUI.filterState st'))
               = JS.sort JS.defaultCompare
                   (PostFilterUI.selectedTags (PostFilterUI.filterState st))
            /\ PostFilterUI.sortOrder (PostFilterUI.filterState st')
               = PostFilterUI.sortOrder (PostFilterUI.filterState st))
  /\ (r1 <> [] ->
      snd (PostFilterUI.filterAndSortPosts Date_parse st1) = st1)
  /\ (forall s : PostFilterUI.t,
        PostFilterUI.cacheHit s = true ->
        PostFilterUI.filterAndSortPosts Date_parse s
        = (PostFilterUI.filteredPosts s, PostFilterUI.sortSelectedTags s))
  /\ (forall s : PostFilterUI.t,
        PostFilterUI.cacheHit s = true
        <-> PostFilterUI.lastFilterKey s
            = PostFilterUI.filterKeyOf
                (PostFilterUI.searchTerm (PostFilterUI.filterState s))
                (JS.sort JS.defaultCompare
                   (PostFilterUI.selectedTags (PostFilterUI.filterState s)))
                (PostFilterUI.sortOrder (PostFilterUI.filterState s))
            /\ PostFilterUI.filteredPosts s <> []).
Proof.
  intros r1 st1 r2.
  destruct (second_call Date_parse st) as (H1 & H2 & H3 & H4).
  assert (Hret : forall s : PostFilterUI.t,
             PostFilterUI.cacheHit s = true ->
             PostFilterUI.filterAndSortPosts Date_parse s
             = (PostFilterUI.filteredPosts s,
                PostFilterUI.sortSelectedTags s)).
  { intros s Hs. unfold PostFilterUI.filterAndSortPosts. now rewrite Hs. }
  split; [exact H1|]. split; [exact H2|]. split; [exact H3|].
  split; [exact H4|]. split; [|split; [exact Hret|]].
  - intros Hne. destruct (H2 Hne) as [Hh _].
    pose proof (Hret st1 Hh) as E. rewrite E. cbn [snd].
    exact (sortSelectedTags_after_call Date_parse st).
  - intros s. rewrite cacheHit_true, filterKey_unfold.
    split; intros [K N]; split; auto.
Qed.

(** On the two posts of the scenario, and on an instance whose stored
    result is stale (initialised with post a, then with post b): the early
    return hands back the stored post a, where a recomputation would give
    post b. *)
Lemma filterAndSortPosts_idempotent_witness :
  let r1 := fst (PostFilterUI.filterAndSortPosts Date.parseISO Scenario.ui) in
  let st1 := snd (PostFilterUI.filterAndSortPosts Date.parseISO Scenario.ui) in
  let stale :=
    PostFilterUI.init Date.parseISO [Scenario.postB]
      (PostFilterUI.init Date.parseISO [Scenario.postA] PostFilterUI.new) in
  r1 <> []
  /\ PostFilterUI.cacheHit st1 = true
  /\ fst (PostFilterUI.filterAndSortPosts Date.parseISO st1) = r1
  /\ fst (PostFilterUI.filterAndSortPosts Date.parseISO st1)
     = PostFilterUI.filteredPosts st1
  /\ snd (PostFilterUI.filterAndSortPosts Date.parseISO st1) = st1
  /\ PostFilterUI.cacheHit stale = true
  /\ PostFilterUI.filterAndSortPosts Date.parseISO stale
     = ([Scenario.postA], PostFilterUI.sortSelectedTags stale)
  /\ PostFilterUI.computeFiltered Date.parseISO (PostFilterUI.posts stale)
       (PostFilterUI.filterState stale)
     = [Scenario.postB].
Proof.
  intros r1 st1 stale.
  destruct (filterAndSortPosts_idempotent Date.parseISO Scenario.ui)
    as (H1 & H2 & _ & _ & H5 & H6 & _).
  assert (Hne : r1 <> []) by (vm_compute; discriminate).
  destruct (H2 Hne) as [H3 H4].
  assert (Hs : PostFilterUI.cacheHit stale = true) by (vm_compute; reflexivity).
  split; [exact Hne|]. split; [exact H3|]. split; [exact H1|].
  split; [exact H4|]. split; [exact (H5 Hne)|]. split; [exact Hs|].
  split; [exact (H6 stale Hs) | vm_compute; reflexivity].
Defined.

Lemma empty_store_misses (st : PostFilterUI.t) :
  PostFilterUI.filteredPosts st = [] -> PostFilterUI.cacheHit st = false.
Proof.
  intros H. unfold PostFilterUI.cacheHit. rewrite H. cbn.
  apply andb_false_r.
Qed.

Lemma stored_is_returned (Date_parse : string -> option Z)
  (st : PostFilterUI.t) :
  PostFilterUI.filteredPosts
    (snd (PostFilterUI.filterAndSortPosts Date_parse st))
  = fst (PostFilterUI.filterAndSortPosts Date_parse st).
Proof.
  unfold PostFilterUI.filterAndSortPosts.
  destruct (PostFilterUI.cacheHit st); reflexivity.
Qed.

Lemma miss_recomputes (Date_parse : string -> option Z)
  (st : PostFilterUI.t) :
  PostFilterUI.cacheHit st = false ->
  fst (PostFilterUI.filterAndSortPosts Date_parse st)
  = PostFilterUI.computeFiltered Date_parse (PostFilterUI.posts st)
      (PostFilterUI.filterState (PostFilterUI.sortSelectedTags st)).
Proof.
  intros H. unfold PostFilterUI.filterAndSortPosts. now rewrite H.
Qed.

(** C3.  An empty result is never served from the cache: the early return
    is not taken when the stored array is empty; and once a call has
    returned the empty array, every later call with the filter state
    unchanged, however many there are, misses the cache, recomputes the
    result from the posts and returns the empty array again. *)
Theorem empty_result_never_cached
  (Date_parse : string -> option Z) (st : PostFilterUI.t) :
  (PostFilterUI.filteredPosts st = [] -> PostFilterUI.cacheHit st = false)
  /\ (fst (PostFilterUI.filterAndSortPosts Date_parse st) = [] ->
      forall n : nat,
        let stn :=
          Nat.iter n
            (fun s => snd (PostFilterUI.filterAndSortPosts Date_parse s))
            (snd (PostFilterUI.filterAndSortPosts Date_parse st)) in
        PostFilterUI.filteredPosts stn = []
        /\ PostFilterUI.cacheHit stn = false
        /\ fst (PostFilterUI.filterAndSortPosts Date_parse stn)
           = PostFilterUI.computeFiltered Date_parse (PostFilterUI.posts stn)
               (PostFilterUI.filterState (PostFilterUI.sortSelectedTags stn))
        /\ fst (PostFilterUI.filterAndSortPosts Date_parse stn) = []).
Proof.
  split; [apply empty_store_misses|].
  intros H n.
  assert (G : forall s,
             fst (PostFilterUI.filterAndSortPosts Date_parse s) = [] ->
             let s' := snd (PostFilterUI.filterAndSortPosts Date_parse s) in
             PostFilterUI.filteredPosts s' = []
             /\ fst (PostFilterUI.filterAndSortPosts Date_parse s') = []).
  { intros s Hs s'. split.
    - unfold s'. now rewrite stored_is_returned.
    - unfold s'. now rewrite (proj1 (second_call Date_parse s)). }
  cbv zeta. induction n as [|n IH]; cbn [Nat.iter].
  - destruct (G st H) as [G1 G2].
    repeat split; auto using empty_store_misses.
    apply miss_recomputes. now apply empty_store_misses.
  - destruct IH as (_ & _ & _ & IH4).
    destruct (G _ IH4) as [G1 G2].
    repeat split; auto using empty_store_misses.
    apply miss_recomputes. now apply empty_store_misses.
Qed.

Lemma empty_result_never_cached_witness :
  PostFilterUI.filteredPosts Scenario.uiZzz = []
  /\ PostFilterUI.cacheHit Scenario.uiZzz = false
  /\ fst (PostFilterUI.filterAndSortPosts Date.parseISO Scenario.uiZzz) = []
  /\ let st1 :=
       Nat.iter 1
         (fun s => snd (PostFilterUI.filterAndSortPosts Date.parseISO s))
         (snd (PostFilterUI.filterAndSortPosts Date.parseISO Scenario.uiZzz)) in
     PostFilterUI.filteredPosts st1 = []
     /\ PostFilterUI.cacheHit st1 = false
     /\ fst (PostFilterUI.filterAndSortPosts Date.parseISO st1)
        = PostFilterUI.computeFiltered Date.parseISO (PostFilterUI.posts st1)
            (PostFilterUI.filterState (PostFilterUI.sortSelectedTags st1))
     /\ fst (PostFilterUI.filterAndSortPosts Date.parseISO st1) = [].
Proof.
  split; [vm_compute; reflexivity|].
  split.
  { apply (proj1 (empty_result_never_cached Date.parseISO Scenario.uiZzz)).
    vm_compute. reflexivity. }
  split; [vm_compute; reflexivity|].
  apply (proj2 (empty_result_never_cached Date.parseISO Scenario.uiZzz)).
  vm_compute. reflexivity.
Defined.



(** C10.  Whatever the instance, [resetFilters] leaves the search term
    empty, no tag selected and the sort order 'newest'; the view mode and
    the posts are as before.  The stored key is wiped before the closing
    call of [filterAndSortPosts], which therefore never takes the early
    return: the stored result is recomputed from the posts (all of them,
    newest first) and the key of the cleared filter state is stored. *)
Theorem resetFilters_effect
  (Date_parse : string -> option Z) (st : PostFilterUI.t) :
  let st' := PostFilterUI.resetFilters Date_parse st in
  PostFilterUI.searchTerm (PostFilterUI.filterState st') = ""
  /\ PostFilterUI.selectedTags (PostFilterUI.filterState st') = []
  /\ PostFilterUI.sortOrder (PostFilterUI.filterState st') = "newest"
  /\ PostFilterUI.viewMode (PostFilterUI.filterState st')
     = PostFilterUI.viewMode (PostFilterUI.filterState st)
  /\ PostFilterUI.posts st' = PostFilterUI.posts st
  /\ PostFilterUI.allTags st' = PostFilterUI.allTags st
  /\ PostFilterUI.lastFilterKey (PostFilterUI.clearFilterFields st) = ""
  /\ PostFilterUI.cacheHit (PostFilterUI.clearFilterFields st) = false
  /\ PostFilterUI.filteredPosts st'
     = JS.sort (PostFilterUI.newestFirst Date_parse) (PostFilterUI.posts st)
  /\ PostFilterUI.lastFilterKey st' = PostFilterUI.filterKeyOf "" [] "newest".
Proof.
  assert (M : PostFilterUI.cacheHit (PostFilterUI.clearFilterFields st) = false).
  { unfold PostFilterUI.cacheHit.
    replace (PostFilterUI.lastFilterKey (PostFilterUI.clearFilterFields st))
      with "" by reflexivity.
    rewrite filterKey_unfold.
    destruct (String.eqb_spec
                (PostFilterUI.filterKeyOf
                   (PostFilterUI.searchTerm
                      (PostFilterUI.filterState
                         (PostFilterUI.clearFilterFields st)))
                   (JS.sort JS.defaultCompare
                      (PostFilterUI.selectedTags
                         (PostFilterUI.filterState
                            (PostFilterUI.clearFilterFields st))))
                   (PostFilterUI.sortOrder
                      (PostFilterUI.filterState
                         (PostFilterUI.clearFilterFields st)))) "") as [E|E];
      [now apply filterKeyOf_nonempty in E | reflexivity]. }
  intros st'. unfold st', PostFilterUI.resetFilters,
    PostFilterUI.filterAndSortPosts.
  rewrite M. cbn. repeat split; reflexivity.
Qed.

(** ** The router *)

Lemma pop_snoc {A : Type} (l : list A) (x : A) :
  App.pop (l ++ [x])%list = Some (x, l).
Proof.
  unfold App.pop. rewrite rev_app_distr. cbn. now rewrite rev_involutive.
Qed.

Lemma pop_some {A : Type} (l r : list A) (x : A) :
  App.pop l = Some (x, r) -> l = (r ++ [x])%list.
Proof.
  unfold App.pop. destruct (rev l) as [|y m] eqn:E; [discriminate|].
  intros H. injection H as <- <-.
  rewrite <- (rev_involutive l), E. reflexivity.
Qed.

Lemma lastn_short {A : Type} (n : nat) (l : list A) :
  (List.length l <= n)%nat -> App.lastn n l = l.
Proof.
  intros H. unfold App.lastn.
  replace (List.length l - n)%nat with 0%nat by lia. reflexivity.
Qed.

Lemma lastn_length {A : Type} (n : nat) (l : list A) :
  List.length (App.lastn n l) = Nat.min n (List.length l).
Proof. unfold App.lastn. rewrite length_skipn. lia. Qed.

Lemma lastn_app_lastn {A : Type} (n : nat) (a b : list A) :
  App.lastn n (App.lastn n a ++ b)%list = App.lastn n (a ++ b)%list.
Proof.
  destruct (Nat.le_gt_cases (List.length a) n) as [H|H].
  - now rewrite (lastn_short n a H).
  - unfold App.lastn. rewrite !length_app, length_skipn.
    set (k := (List.length a - n)%nat).
    replace (List.length a - k + List.length b - n)%nat
      with (List.length b) by lia.
    replace (List.length a + List.length b - n)%nat
      with (List.length b + k)%nat by lia.
    rewrite <- (skipn_skipn (List.length b) k (a ++ b)%list).
    rewrite (skipn_app k a b).
    replace (k - List.length a)%nat with 0%nat by lia. reflexivity.
Qed.

(** The push of [navigateTo] with its cap, on a history within the cap. *)
Lemma push_capped {A : Type} (h : list A) (x : A) :
  (List.length h <= 10)%nat ->
  (if (10 <? List.length (h ++ [x]))%nat then tl (h ++ [x])%list
   else (h ++ [x])%list)
  = App.lastn 10 (h ++ [x])%list.
Proof.
  intros H. rewrite length_app. cbn [List.length].
  destruct (Nat.ltb_spec 10 (List.length h + 1)) as [L|L].
  - unfold App.lastn. rewrite length_app. cbn [List.length].
    replace (List.length h + 1 - 10)%nat with 1%nat by lia.
    destruct h; reflexivity.
  - symmetry. apply lastn_short. rewrite length_app. cbn. lia.
Qed.

Lemma navigateTo_history (v : string) (p : option string) (st : App.t) :
  (List.length (App.navigationHistory st) <= 10)%nat ->
  App.navigationHistory (App.navigateTo v p st)
  = App.lastn 10 (App.navigationHistory st ++ [App.getCurrentRoute st])%list.
Proof.
  intros H. unfold App.navigateTo. cbn [App.navigationHistory App.renderContent].
  destruct (App.getCurrentRoute st) as [cv cp] eqn:E. cbn [App.view App.postId].
  now apply push_capped.
Qed.

Lemma step_bounded (st : App.t) (o : App.Op) :
  (List.length (App.navigationHistory st) <= 10)%nat ->
  (List.length (App.navigationHistory (App.step st o)) <= 10)%nat.
Proof.
  intros H. destruct o as [v p| |h]; cbn [App.step].
  - rewrite navigateTo_history by exact H. rewrite lastn_length. lia.
  - unfold App.goBack.
    destruct (0 <? List.length (App.navigationHistory st))%nat.
    + destruct (App.pop (App.navigationHistory st)) as [[e r]|] eqn:E;
        [|exact H].
      apply pop_some in E. cbn. rewrite E, length_app in H. lia.
    + rewrite navigateTo_history by exact H. rewrite lastn_length. lia.
  - exact H.
Qed.

Lemma run_bounded (ops : list App.Op) (st : App.t) :
  (List.length (App.navigationHistory st) <= 10)%nat ->
  (List.length (App.navigationHistory (App.run ops st)) <= 10)%nat.
Proof.
  revert st. induction ops as [|o ops IH]; intros st H; [exact H|].
  cbn [App.run fold_left]. apply IH. now apply step_bounded.
Qed.

Lemma run_pushes (ops : list App.Op) (st : App.t) :
  (List.length (App.navigationHistory st) <= 10)%nat ->
  forallb (fun o => negb (App.isGoBack o)) ops = true ->
  App.navigationHistory (App.run ops st)
  = App.lastn 10 (App.navigationHistory st ++ App.pushedRoutes ops st)%list.
Proof.
  revert st. induction ops as [|o ops IH]; intros st H Hops.
  - cbn. rewrite app_nil_r. symmetry. now apply lastn_short.
  - cbn [forallb] in Hops. apply andb_true_iff in Hops.
    destruct Hops as [Ho Hops].
    change (App.run (o :: ops) st) with (App.run ops (App.step st o)).
    rewrite (IH _ (step_bounded st o H) Hops).
    destruct o as [v p| |h]; [| discriminate Ho |].
    + cbn [App.pushedRoutes]. cbn [App.step].
      rewrite navigateTo_history by exact H.
      rewrite lastn_app_lastn, <- app_assoc. reflexivity.
    + reflexivity.
Qed.

Lemma pushedRoutes_length (ops : list App.Op) (st : App.t) :
  List.length (App.pushedRoutes ops st)
  = List.length (filter App.isNavigateTo ops).
Proof.
  revert st. induction ops as [|o ops IH]; intros st; [reflexivity|].
  destruct o; cbn [App.pushedRoutes filter App.isNavigateTo List.length];
    now rewrite IH.
Qed.

(** C5.  From an empty history, after any sequence of [navigateTo],
    [goBack] and hash changes, the history holds at most 10 entries; and
    as long as nothing is popped, the history is made of the last 10
    entries pushed, oldest first: after N > 10 navigations, exactly the 10
    most recent ones. *)
Theorem navigationHistory_capped (hash : string) (ops : list App.Op) :
  (List.length (App.navigationHistory (App.run ops (App.start hash))) <= 10)%nat
  /\ (forallb (fun o => negb (App.isGoBack o)) ops = true ->
      let pushed := App.pushedRoutes ops (App.start hash) in
      List.length pushed = List.length (filter App.isNavigateTo ops)
      /\ App.navigationHistory (App.run ops (App.start hash))
         = App.lastn 10 pushed
      /\ ((10 < List.length pushed)%nat ->
          List.length (App.navigationHistory (App.run ops (App.start hash)))
          = 10%nat)).
Proof.
  split.
  - apply run_bounded. cbn. lia.
  - intros Hops pushed.
    assert (E : App.navigationHistory (App.run ops (App.start hash))
                = App.lastn 10 pushed).
    { rewrite run_pushes; [reflexivity | cbn; lia | exact Hops]. }
    split; [apply pushedRoutes_length|]. split; [exact E|].
    intros L. rewrite E, lastn_length. lia.
Qed.

Lemma navigationHistory_capped_witness :
  let pushed := App.pushedRoutes Scenario.twelve (App.start "") in
  (10 < List.length pushed)%nat
  /\ List.length pushed = 12%nat
  /\ App.navigationHistory (App.run Scenario.twelve (App.start ""))
     = App.lastn 10 pushed
  /\ List.length (App.navigationHistory (App.run Scenario.twelve (App.start "")))
     = 10%nat.
Proof.
  intros pushed.
  destruct (proj2 (navigationHistory_capped "" Scenario.twelve) eq_refl)
    as (L & E & C).
  split; [vm_compute; lia|]. split; [exact L|]. split; [exact E|].
  apply C. vm_compute. lia.
Defined.

(** Splitting at the slashes. *)
Lemma includes_slash_cons (c : ascii) (s : string) :
  JS.includes (String c s) "/" = false ->
  Ascii.eqb c "/" = false /\ JS.includes s "/" = false.
Proof.
  cbn [JS.includes JS.startsWith]. rewrite andb_true_r, Ascii.eqb_sym.
  apply orb_false_iff.
Qed.

Lemma split_no_slash (s : string) :
  JS.includes s "/" = false -> JS.split "/" s = [s].
Proof.
  induction s as [|c s IH]; intros H; [reflexivity|].
  apply includes_slash_cons in H. destruct H as [Hc Hs].
  cbn [JS.split]. now rewrite Hc, (IH Hs).
Qed.

Lemma split_at_slash (v r : string) :
  JS.includes v "/" = false ->
  JS.split "/" (v +++ String "/" r) = v :: JS.split "/" r.
Proof.
  induction v as [|c v IH]; intros H; [reflexivity|].
  apply includes_slash_cons in H. destruct H as [Hc Hv].
  cbn [String.append JS.split]. now rewrite Hc, (IH Hv).
Qed.

Lemma plain_spec (s : string) :
  Spec.plain s = true -> JS.truthy s = true /\ JS.includes s "/" = false.
Proof.
  unfold Spec.plain. rewrite andb_true_iff, negb_true_iff. tauto.
Qed.

Lemma routeOfHash_view (v : string) :
  Spec.plain v = true ->
  App.routeOfHash (String "#" v) = {| App.view := v; App.postId := None |}.
Proof.
  intros H. apply plain_spec in H. destruct H as [Ht Hs].
  unfold App.routeOfHash. cbn [JS.substring1].
  rewrite (split_no_slash v Hs). cbn. now rewrite Ht.
Qed.

Lemma routeOfHash_view_postId (v p : string) :
  Spec.plain v = true -> Spec.plain p = true ->
  App.routeOfHash (String "#" (v +++ String "/" p))
  = {| App.view := v; App.postId := Some p |}.
Proof.
  intros Hv Hp. apply plain_spec in Hv, Hp.
  destruct Hv as [Hvt Hvs], Hp as [Hpt Hps].
  unfold App.routeOfHash. cbn [JS.substring1].
  rewrite (split_at_slash v p Hvs), (split_no_slash p Hps). cbn.
  now rewrite Hvt, Hpt.
Qed.

(** The fragment parser. *)
Lemma encode_set_covers_removed (c : ascii) :
  App.inFragmentEncodeSet c = false -> App.isTabOrNewline c = false.
Proof.
  destruct c as [[] [] [] [] [] [] [] []]; vm_compute; congruence.
Qed.

Lemma encodeFragment_safe (s : string) :
  Spec.hashSafe s = true -> App.encodeFragment s = s.
Proof.
  induction s as [|c s IH]; [reflexivity|]. cbn [Spec.hashSafe App.encodeFragment].
  rewrite andb_true_iff, negb_true_iff. intros [Hc Hs].
  now rewrite (encode_set_covers_removed c Hc), Hc, (IH Hs).
Qed.

Lemma hashSafe_append (a b : string) :
  Spec.hashSafe (a +++ b) = Spec.hashSafe a && Spec.hashSafe b.
Proof.
  induction a as [|c a IH]; [reflexivity|].
  cbn [String.append Spec.hashSafe]. now rewrite IH, andb_assoc.
Qed.

Lemma encodeFragment_append (a b : string) :
  App.encodeFragment (a +++ b) = App.encodeFragment a +++ App.encodeFragment b.
Proof.
  induction a as [|c a IH]; [reflexivity|].
  cbn [String.append App.encodeFragment].
  destruct (App.isTabOrNewline c); [exact IH|].
  destruct (App.inFragmentEncodeSet c).
  - now rewrite IH, append_assoc.
  - cbn [String.append]. now rewrite IH.
Qed.

Lemma utf8PercentEncode_safe (c : ascii) :
  Spec.hashSafe (App.utf8PercentEncode c) = true.
Proof.
  destruct c as [[] [] [] [] [] [] [] []]; vm_compute; reflexivity.
Qed.

Lemma utf8PercentEncode_no_slash (c : ascii) :
  JS.includes (App.utf8PercentEncode c) "/" = false.
Proof.
  destruct c as [[] [] [] [] [] [] [] []]; vm_compute; reflexivity.
Qed.

(** What was assigned is held as written from then on: assigning it again
    changes nothing. *)
Lemma encodeFragment_hashSafe (s : string) :
  Spec.hashSafe (App.encodeFragment s) = true.
Proof.
  induction s as [|c s IH]; [reflexivity|]. cbn [App.encodeFragment].
  destruct (App.isTabOrNewline c); [exact IH|].
  destruct (App.inFragmentEncodeSet c) eqn:Hc.
  - now rewrite hashSafe_append, utf8PercentEncode_safe, IH.
  - cbn [Spec.hashSafe]. now rewrite Hc, IH.
Qed.

Lemma includes_slash_append (a b : string) :
  JS.includes (a +++ b) "/" = JS.includes a "/" || JS.includes b "/".
Proof.
  induction a as [|c a IH].
  - cbn [String.append]. destruct (JS.includes b "/"); reflexivity.
  - cbn [String.append JS.includes JS.startsWith].
    rewrite !andb_true_r, IH. now rewrite orb_assoc.
Qed.

(** The parser neither makes nor removes a slash. *)
Lemma encodeFragment_slash (s : string) :
  JS.includes (App.encodeFragment s) "/" = JS.includes s "/".
Proof.
  induction s as [|c s IH]; [reflexivity|]. cbn [App.encodeFragment].
  destruct (Ascii.eqb "/" c) eqn:E.
  - apply Ascii.eqb_eq in E. subst c. cbn. reflexivity.
  - assert (R : JS.includes (String c s) "/" = JS.includes s "/").
    { cbn [JS.includes JS.startsWith]. now rewrite E. }
    rewrite R.
    destruct (App.isTabOrNewline c); [exact IH|].
    destruct (App.inFragmentEncodeSet c).
    + now rewrite includes_slash_append, utf8PercentEncode_no_slash, IH.
    + cbn [JS.includes JS.startsWith]. now rewrite E, IH.
Qed.

Lemma assignHash_browserHash (v : string) :
  Spec.browserHash (App.assignHash v) = true.
Proof.
  unfold App.assignHash.
  set (input := match v with
                | String c r => if Ascii.eqb c "#" then r else v
                | EmptyString => v
                end).
  pose proof (encodeFragment_hashSafe input) as H.
  destruct (App.encodeFragment input) as [|c r]; [reflexivity|].
  cbn [Spec.browserHash JS.truthy]. now rewrite H.
Qed.

Lemma assignHash_safe (s : string) :
  Spec.hashSafe s = true -> JS.truthy s = true ->
  JS.startsWith s "#" = false ->
  App.assignHash s = String "#" s.
Proof.
  intros Hs Ht Hh. destruct s as [|c s]; [discriminate Ht|].
  assert (Hc : Ascii.eqb c "#" = false).
  { cbn [JS.startsWith] in Hh. rewrite andb_true_r, Ascii.eqb_sym in Hh.
    exact Hh. }
  unfold App.assignHash. rewrite Hc, (encodeFragment_safe _ Hs). reflexivity.
Qed.

(** The parts of a split string: free of slashes, and held by the hash as
    written when the string is. *)
Lemma split_parts (s : string) :
  Forall (fun x => JS.includes x "/" = false) (JS.split "/" s)
  /\ (Spec.hashSafe s = true ->
      Forall (fun x => Spec.hashSafe x = true) (JS.split "/" s)).
Proof.
  induction s as [|c s [IH1 IH2]].
  - split; [|intros _]; repeat constructor.
  - cbn [JS.split Spec.hashSafe]. destruct (Ascii.eqb c "/") eqn:E.
    + split; [now constructor|]. rewrite andb_true_iff. intros [_ Hs].
      constructor; [reflexivity | now apply IH2].
    + destruct (JS.split "/" s) as [|x xs].
      * split; [|rewrite andb_true_iff; intros [Hc _]];
          constructor; try constructor.
        -- cbn [JS.includes JS.startsWith].
           now rewrite Ascii.eqb_sym, E.
        -- cbn [Spec.hashSafe]. now rewrite Hc.
      * inversion IH1 as [|? ? Hx Hxs]; subst. split.
        -- constructor; [|exact Hxs].
           cbn [JS.includes JS.startsWith].
           rewrite andb_true_r, Ascii.eqb_sym, E. exact Hx.
        -- rewrite andb_true_iff. intros [Hc Hs].
           specialize (IH2 Hs). inversion IH2 as [|? ? Hx' Hxs']; subst.
           constructor; [|exact Hxs'].
           cbn [Spec.hashSafe]. now rewrite Hc, Hx'.
Qed.

(** The routes the router reads from the browser are routes of the
    grammar, unless the fragment itself begins with a number sign. *)
Lemma getCurrentRoute_isRoute (h : string) :
  Spec.browserHash h = true ->
  JS.startsWith (App.view (App.routeOfHash h)) "#" = false ->
  Spec.isRoute (App.routeOfHash h) = true.
Proof.
  intros Hb Hh.
  assert (Hs : Spec.hashSafe (JS.substring1 h) = true).
  { destruct h as [|c r]; [reflexivity|]. cbn [Spec.browserHash] in Hb.
    rewrite !andb_true_iff in Hb. apply Hb. }
  destruct (split_parts (JS.substring1 h)) as [P1 P2]. specialize (P2 Hs).
  unfold Spec.isRoute. revert Hh. unfold App.routeOfHash.
  cbn [App.view App.postId].
  destruct (JS.split "/" (JS.substring1 h)) as [|x [|y ys]].
  - intros _. reflexivity.
  - inversion P1 as [|? ? Hx _]; inversion P2 as [|? ? Hx' _]; subst.
    destruct x as [|c x]; cbn [nth_error JS.orNull JS.truthy]; intros Hh;
      [reflexivity|].
    unfold Spec.plain. cbn [JS.truthy]. now rewrite Hx, Hx', Hh.
  - inversion P1 as [|? ? Hx Q1]; inversion P2 as [|? ? Hx' Q2]; subst.
    inversion Q1 as [|? ? Hy _]; inversion Q2 as [|? ? Hy' _]; subst.
    destruct y as [|d y]; destruct x as [|c x];
      cbn [nth_error JS.orNull JS.truthy]; intros Hh;
      unfold Spec.plain; cbn [JS.truthy];
      rewrite ?Hx, ?Hx', ?Hy, ?Hy', ?Hh; reflexivity.
Qed.

(** A route of the grammar survives the round trip through the hash. *)
Lemma routeOfHash_assignHash (r : App.Route) :
  Spec.isRoute r = true ->
  App.routeOfHash (App.assignHash (App.hashOf (App.view r) (App.postId r))) = r.
Proof.
  destruct r as [v p]. unfold Spec.isRoute. cbn [App.view App.postId].
  rewrite !andb_true_iff, negb_true_iff. intros [[[Hv Hsv] Hh] Hp].
  destruct (plain_spec v Hv) as [Hvt Hvs].
  unfold App.hashOf. destruct p as [p|].
  - apply andb_true_iff in Hp. destruct Hp as [Hp Hsp].
    destruct (plain_spec p Hp) as [Hpt Hps]. rewrite Hpt.
    rewrite assignHash_safe.
    + apply (routeOfHash_view_postId v p Hv Hp).
    + rewrite !hashSafe_append, Hsv, Hsp. reflexivity.
    + destruct v; [discriminate Hvt | reflexivity].
    + destruct v as [|c v]; [discriminate Hvt|]. exact Hh.
  - rewrite append_empty_r, (assignHash_safe v Hsv Hvt Hh).
    apply (routeOfHash_view v Hv).
Qed.

(** What [navigateTo] pushes is the route read from the hash: a route of
    the grammar whenever the hash is one the browser can hold and its
    fragment does not begin with a number sign; and the hash it leaves is
    again one the browser can hold. *)
Lemma navigateTo_pushes_a_route (v : string) (p : option string) (st : App.t) :
  exists h,
    App.navigationHistory (App.navigateTo v p st)
    = (h ++ [App.getCurrentRoute st])%list
    /\ Spec.browserHash (App.location_hash (App.navigateTo v p st)) = true
    /\ (Spec.browserHash (App.location_hash st) = true ->
        JS.startsWith (App.view (App.getCurrentRoute st)) "#" = false ->
        Spec.isRoute (App.getCurrentRoute st) = true).
Proof.
  assert (R : forall r : App.Route,
             {| App.view := App.view r; App.postId := App.postId r |} = r)
    by (intros []; reflexivity).
  assert (B : Spec.browserHash (App.location_hash (App.navigateTo v p st))
              = true).
  { unfold App.navigateTo.
    destruct (10 <? _)%nat; cbn [App.renderContent App.location_hash];
      apply assignHash_browserHash. }
  assert (G : Spec.browserHash (App.location_hash st) = true ->
              JS.startsWith (App.view (App.getCurrentRoute st)) "#" = false ->
              Spec.isRoute (App.getCurrentRoute st) = true)
    by (apply getCurrentRoute_isRoute).
  unfold App.navigateTo in *. rewrite R in *.
  destruct (App.navigationHistory st) as [|x h] eqn:E.
  - exists []. split; [reflexivity|]. split; [exact B | exact G].
  - destruct (10 <? List.length ((x :: h) ++ [App.getCurrentRoute st]))%nat.
    + exists h. split; [reflexivity|]. split; [exact B | exact G].
    + exists (x :: h). split; [reflexivity|]. split; [exact B | exact G].
Qed.

(** C6.  With an entry on the history, [goBack] pops it: what is left is
    the history without its last entry, the hash is assigned from the
    popped entry and the route of that hash is rendered, which is the
    popped route itself whenever it is a route of the grammar (its
    components are such as the hash holds as written).  With an empty
    history [goBack] is [navigateTo('home')] and the home view is
    rendered.  The walk home, posts, post a, back, back ends on the home
    view.  The entries [goBack] finds are those [navigateTo] has pushed:
    each is the route read from the hash of its moment, and a route of the
    grammar when that hash is one the browser can hold and its fragment
    does not begin with a number sign. *)
Theorem goBack_pops_or_home :
  (forall (st : App.t) (h : list App.Route) (e : App.Route),
      App.navigationHistory st = (h ++ [e])%list ->
      let st' := App.goBack st in
      App.navigationHistory st' = h
      /\ App.currentView st' = App.view e
      /\ App.location_hash st'
         = App.assignHash (App.hashOf (App.view e) (App.postId e))
      /\ App.content st' = Some (App.renderRoute (App.getCurrentRoute st'))
      /\ (Spec.isRoute e = true ->
          App.getCurrentRoute st' = e
          /\ App.content st' = Some (App.renderRoute e)))
  /\ (forall st : App.t,
         App.navigationHistory st = [] ->
         let st' := App.goBack st in
         st' = App.navigateTo "home" None st
         /\ App.location_hash st' = "#home"
         /\ App.currentView st' = "home"
         /\ App.content st' = Some App.RenderHome)
  /\ (let st' := App.run Scenario.navigation (App.start "") in
      App.content st' = Some App.RenderHome
      /\ App.location_hash st' = "#home"
      /\ App.currentView st' = "home")
  /\ (let st' := App.run Scenario.navigationFromHome (App.start "") in
      App.content st' = Some App.RenderHome
      /\ App.location_hash st' = "#home"
      /\ App.currentView st' = "home")
  /\ (forall (v : string) (p : option string) (st : App.t),
        exists h,
          App.navigationHistory (App.navigateTo v p st)
          = (h ++ [App.getCurrentRoute st])%list
          /\ Spec.browserHash (App.location_hash (App.navigateTo v p st))
             = true
          /\ (Spec.browserHash (App.location_hash st) = true ->
              JS.startsWith (App.view (App.getCurrentRoute st)) "#" = false ->
              Spec.isRoute (App.getCurrentRoute st) = true)).
Proof.
  split; [|split; [|split; [|split; [|exact navigateTo_pushes_a_route]]]].
  - intros st h e Hh st'.
    assert (E : st' = App.renderContent
                        {| App.posts := App.posts st;
                           App.currentView := App.view e;
                           App.navigationHistory := h;
                           App.location_hash :=
                             App.assignHash
                               (App.hashOf (App.view e) (App.postId e));
                           App.content := App.content st |}).
    { unfold st', App.goBack. rewrite Hh, pop_snoc, length_app. cbn [List.length].
      destruct (Nat.ltb_spec 0 (List.length h + 1)); [reflexivity | lia]. }
    rewrite E. cbn [App.renderContent App.navigationHistory App.currentView
                    App.location_hash App.content App.getCurrentRoute].
    repeat split.
    + now apply routeOfHash_assignHash.
    + unfold App.getCurrentRoute. cbn [App.location_hash].
      now rewrite routeOfHash_assignHash.
  - intros st Hh st'. unfold st', App.goBack. rewrite Hh. cbn [List.length Nat.ltb Nat.leb].
    repeat split.
  - vm_compute. repeat split.
  - vm_compute. repeat split.
Qed.

Lemma goBack_pops_or_home_witness :
  let st := App.run [App.NavigateTo "posts" None; App.NavigateTo "posts" (Some "a")]
              (App.start "") in
  let e := {| App.view := "posts"; App.postId := None |} in
  App.navigationHistory st
  = ([{| App.view := "home"; App.postId := None |}] ++ [e])%list
  /\ Spec.isRoute e = true
  /\ App.navigationHistory (App.goBack st)
     = [{| App.view := "home"; App.postId := None |}]
  /\ App.getCurrentRoute (App.goBack st) = e
  /\ App.content (App.goBack st) = Some App.RenderPostsList
  /\ App.content (App.goBack (App.start "")) = Some App.RenderHome
  /\ Spec.isRoute (App.getCurrentRoute (App.start "#posts/my%20post")) = true.
Proof.
  intros st e.
  destruct (proj2 (proj2 (proj2 (proj2 goBack_pops_or_home)))
              "home" None (App.start "#posts/my%20post")) as (_ & _ & _ & H9).
  assert (Hh : App.navigationHistory st
               = ([{| App.view := "home"; App.postId := None |}] ++ [e])%list)
    by (vm_compute; reflexivity).
  destruct (proj1 goBack_pops_or_home st _ e Hh) as (H1 & _ & _ & _ & H5).
  destruct (H5 eq_refl) as [H6 H7].
  destruct (proj1 (proj2 goBack_pops_or_home) (App.start "") eq_refl)
    as (_ & _ & _ & H8).
  repeat split; auto.
Defined.

(** A fragment whose view component is empty. *)
Lemma routeOfHash_empty_view (rest : string) :
  App.view (App.routeOfHash (String "#" (String "/" rest))) = "home"
  /\ (Spec.plain rest = true ->
      App.routeOfHash (String "#" (String "/" rest))
      = {| App.view := "home"; App.postId := Some rest |}).
Proof.
  unfold App.routeOfHash. cbn [JS.substring1].
  change (JS.split "/" (String "/" rest))
    with (EmptyString :: JS.split "/" rest).
  split; [reflexivity|]. intros Hp. destruct (plain_spec rest Hp) as [Ht Hs].
  rewrite (split_no_slash rest Hs). cbn. now rewrite Ht.
Qed.

(** C8, as the code has it.  A hash [#<view>] or [#<view>/<postId>]
    resolves to that view and that post id; an empty fragment, and a
    fragment whose view component is empty ([#/<postId>], which keeps its
    post id), resolve to the home view.  A view component that is neither home nor posts is not
    replaced: the resolved route keeps it as its view, and it is
    [renderContent] that renders the home view for every view other than
    posts. *)
Theorem route_resolution :
  (forall v, Spec.plain v = true ->
     App.routeOfHash (String "#" v)
     = {| App.view := v; App.postId := None |})
  /\ (forall v p, Spec.plain v = true -> Spec.plain p = true ->
        App.routeOfHash (String "#" (v +++ String "/" p))
        = {| App.view := v; App.postId := Some p |})
  /\ App.routeOfHash "" = {| App.view := "home"; App.postId := None |}
  /\ App.routeOfHash "#" = {| App.view := "home"; App.postId := None |}
  /\ (forall rest,
        App.view (App.routeOfHash (String "#" (String "/" rest))) = "home")
  /\ (forall p, Spec.plain p = true ->
        App.routeOfHash (String "#" (String "/" p))
        = {| App.view := "home"; App.postId := Some p |})
  /\ (forall st : App.t,
        App.content (App.renderContent st)
        = Some (App.renderRoute (App.routeOfHash (App.location_hash st))))
  /\ (forall r : App.Route,
        App.view r <> "posts" -> App.renderRoute r = App.RenderHome)
  /\ (forall v, Spec.plain v = true -> v <> "home" -> v <> "posts" ->
        App.view (App.routeOfHash (String "#" v)) = v
        /\ App.renderRoute (App.routeOfHash (String "#" v)) = App.RenderHome).
Proof.
  split; [apply routeOfHash_view|].
  split; [apply routeOfHash_view_postId|].
  split; [reflexivity|]. split; [reflexivity|].
  split; [intros rest; apply routeOfHash_empty_view|].
  split; [intros p Hp; now apply routeOfHash_empty_view|].
  split; [reflexivity|]. split; [|split].
  - intros r Hr. unfold App.renderRoute.
    destruct (String.eqb (App.view r) "home"); [reflexivity|].
    destruct (String.eqb_spec (App.view r) "posts"); [contradiction|reflexivity].
  - now rewrite routeOfHash_view.
  - rewrite routeOfHash_view by assumption. unfold App.renderRoute.
    cbn [App.view].
    destruct (String.eqb v "home"); [reflexivity|].
    destruct (String.eqb_spec v "posts"); [contradiction|reflexivity].
Qed.

Lemma route_resolution_witness :
  App.routeOfHash "#/a" = {| App.view := "home"; App.postId := Some "a" |}
  /\ App.routeOfHash "#posts" = {| App.view := "posts"; App.postId := None |}
  /\ App.routeOfHash "#posts/a"
     = {| App.view := "posts"; App.postId := Some "a" |}
  /\ App.renderRoute {| App.view := "about"; App.postId := None |}
     = App.RenderHome
  /\ App.view (App.routeOfHash "#about") = "about"
  /\ App.renderRoute (App.routeOfHash "#about") = App.RenderHome.
Proof.
  destruct route_resolution as (H1 & H2 & _ & _ & _ & H5 & _ & H6 & H7).
  split; [apply (H5 "a"); reflexivity|].
  split; [apply (H1 "posts"); reflexivity|].
  split; [apply (H2 "posts" "a"); reflexivity|].
  split; [apply H6; discriminate|].
  apply (H7 "about"); [reflexivity | discriminate | discriminate].
Defined.

(** The claim as the specification words it fails on an unrecognised view:
    the route resolved from [#about] has the view about, not home. *)
Lemma unrecognized_view_is_kept :
  App.routeOfHash "#about" = {| App.view := "about"; App.postId := None |}
  /\ App.view (App.routeOfHash "#about") <> "home".
Proof.
  split; [reflexivity | discriminate].
Qed.

(** ** The loader *)

Lemma filterNotNull_In (l : list (option Post.t)) (p : Post.t) :
  In p (App.filterNotNull l) <-> In (Some p) l.
Proof.
  induction l as [|[q|] l IH]; cbn; [tauto| |].
  - rewrite IH. split; intros [H|H]; auto; left; congruence.
  - rewrite IH. split; [auto | intros [H|H]; [discriminate H | exact H]].
Qed.

Lemma filterNotNull_length (l : list (option Post.t)) :
  List.length (App.filterNotNull l) = List.length (filter App.notNull l).
Proof.
  induction l as [|[q|] l IH]; cbn; [reflexivity | now rewrite IH | exact IH].
Qed.

Lemma filter_map_length {A B : Type} (f : A -> B) (g : B -> bool)
  (l : list A) :
  List.length (filter g (map f l))
  = List.length (filter (fun x => g (f x)) l).
Proof.
  induction l as [|x l IH]; [reflexivity|].
  cbn [map filter]. destruct (g (f x)); cbn; now rewrite IH.
Qed.

Lemma loadOne_some (net : App.Network) (m : App.PostMeta) (p : Post.t) :
  App.loadOne net m = Some p
  <-> App.fetchPost net (App.meta_id m) = Some (Some p).
Proof.
  unfold App.loadOne. destruct (App.fetchPost net (App.meta_id m)) as [r|].
  - split; congruence.
  - split; discriminate.
Qed.

(** C7.  With the index at hand, [loadPosts] returns the posts whose own
    file could be fetched and parsed, and only them: an entry whose fetch
    fails is left out and the others are kept.  They are stored in the
    module-level [posts] and, all of them dated, come back newest first
    (posts of one date in the order of the index).  Without the index, the legacy posts.json is
    returned as it is; when that fails too, the empty array is returned. *)
Theorem loadPosts_best_effort
  (Date_parse : string -> option Z) (net : App.Network) (st : App.t) :
  (forall postIndex,
      App.fetchIndex net = Some postIndex ->
      let result := fst (App.loadPosts Date_parse net st) in
      let loaded := App.filterNotNull (map (App.loadOne net) postIndex) in
      Permutation loaded result
      /\ (forall p,
             In p result
             <-> exists m, In m postIndex
                           /\ App.fetchPost net (App.meta_id m) = Some (Some p))
      /\ List.length result
         = List.length
             (filter (fun m => App.notNull (App.loadOne net m)) postIndex)
      /\ (Spec.validDates Date_parse loaded ->
          StronglySorted (Spec.notOlder Date_parse) result
          /\ forall t,
               filter (Spec.dated Date_parse t) result
               = filter (Spec.dated Date_parse t) loaded)
      /\ App.posts (snd (App.loadPosts Date_parse net st)) = result)
  /\ (App.fetchIndex net = None ->
      forall ps,
        App.fetchLegacy net = Some ps ->
        fst (App.loadPosts Date_parse net st) = ps
        /\ App.posts (snd (App.loadPosts Date_parse net st)) = ps)
  /\ (App.fetchIndex net = None ->
      App.fetchLegacy net = None ->
      fst (App.loadPosts Date_parse net st) = []
      /\ snd (App.loadPosts Date_parse net st) = st).
Proof.
  split; [|split].
  - intros postIndex Hi result loaded.
    assert (E : result = JS.sort (PostFilterUI.newestFirst Date_parse) loaded)
      by (unfold result, App.loadPosts; now rewrite Hi).
    assert (S : App.posts (snd (App.loadPosts Date_parse net st)) = result)
      by (unfold result, App.loadPosts; now rewrite Hi).
    rewrite E. split; [apply sort_perm|]. split; [|split; [|split]].
    + intros p. rewrite sort_In. unfold loaded.
      rewrite filterNotNull_In, in_map_iff.
      split; intros (m & H1 & H2); exists m.
      * split; [exact H2 | now apply loadOne_some].
      * split; [now apply loadOne_some | exact H1].
    + rewrite sort_length. unfold loaded.
      rewrite filterNotNull_length. apply filter_map_length.
    + intros Hv. split; [now apply sort_newestFirst_sorted|].
      intros t. apply sort_stable. intros x y.
      apply dated_same_class_newest.
    + now rewrite <- E.
  - intros Hi ps Hl. unfold App.loadPosts. rewrite Hi, Hl. now split.
  - intros Hi Hl. unfold App.loadPosts. rewrite Hi, Hl. now split.
Qed.

Lemma loadPosts_best_effort_witness :
  fst (App.loadPosts Date.parseISO Scenario.network (App.start ""))
  = [Scenario.postB; Scenario.postA]
  /\ StronglySorted (Spec.notOlder Date.parseISO)
       (fst (App.loadPosts Date.parseISO Scenario.network (App.start "")))
  /\ fst (App.loadPosts Date.parseISO Scenario.legacyNetwork (App.start ""))
     = [Scenario.postA; Scenario.postB]
  /\ fst (App.loadPosts Date.parseISO Scenario.deadNetwork (App.start "")) = [].
Proof.
  split; [vm_compute; reflexivity|]. split; [|split].
  - destruct (proj1 (loadPosts_best_effort Date.parseISO Scenario.network
                       (App.start "")) Scenario.index eq_refl)
      as (_ & _ & _ & H & _).
    apply H. repeat constructor; discriminate.
  - apply (proj1 (proj2 (loadPosts_best_effort Date.parseISO
                           Scenario.legacyNetwork (App.start "")))
             eq_refl _ eq_refl).
  - apply (proj2 (proj2 (loadPosts_best_effort Date.parseISO
                           Scenario.deadNetwork (App.start "")))
             eq_refl eq_refl).
Defined.

(** ** The gallery viewer *)

Lemma viewable_after_substitute (ph : string) (check : nat -> string -> bool)
  (g : list PostRenderer.GalleryImage) :
  (forall img, In img g -> PostRenderer.isPlaceholder img = false) ->
  forall i,
    filter (fun img => negb (PostRenderer.isPlaceholder img))
      (map (fun r => PostRenderer.substitute ph (fst r) (snd r))
         (PostRenderer.checkAll check i g))
    = map fst (filter snd (PostRenderer.checkAll check i g)).
Proof.
  induction g as [|img g IH]; intros Hg i; [reflexivity|].
  cbn [PostRenderer.checkAll map filter fst snd].
  rewrite (IH (fun x Hx => Hg x (or_intror Hx))).
  destruct (check i (PostRenderer.src img)); cbn.
  - now rewrite (Hg img (or_introl eq_refl)).
  - reflexivity.
Qed.

Lemma viewable_after_preload (check : nat -> string -> bool)
  (g : list PostRenderer.GalleryImage) (st : PostRenderer.t) :
  (forall img, In img g -> PostRenderer.isPlaceholder img = false) ->
  PostRenderer.viewableImages
    (PostRenderer.preloadGalleryImages check
       (PostRenderer.set_galleryImages g st))
  = PostRenderer.loadedOnly check g.
Proof.
  intros Hg. unfold PostRenderer.viewableImages,
    PostRenderer.preloadGalleryImages, PostRenderer.loadedOnly.
  cbn [PostRenderer.set_galleryImages PostRenderer.galleryImages].
  destruct g as [|img g]; [reflexivity|].
  cbn [PostRenderer.set_loadedGalleryImages PostRenderer.loadedGalleryImages
       PostRenderer.placeholderImage].
  now apply viewable_after_substitute.
Qed.

Lemma loadedOnly_In (check : nat -> string -> bool)
  (g : list PostRenderer.GalleryImage) (img : PostRenderer.GalleryImage) :
  In img (PostRenderer.loadedOnly check g) -> In img g.
Proof.
  unfold PostRenderer.loadedOnly. generalize 0%nat.
  induction g as [|x g IH]; intros i; [tauto|].
  cbn [PostRenderer.checkAll filter snd].
  destruct (check i (PostRenderer.src x)); cbn.
  - intros [H|H]; [now left | right; now apply (IH (S i))].
  - intros H. right. now apply (IH (S i)).
Qed.

Lemma arrayGet_in_range {A : Type} (l : list A) (i : Z) :
  (0 <= i < PostRenderer.len l)%Z ->
  exists x, PostRenderer.arrayGet l i = Some x /\ In x l.
Proof.
  intros [H0 H1]. unfold PostRenderer.arrayGet, PostRenderer.len in *.
  destruct (Z.ltb_spec i 0) as [L|_]; [lia|].
  destruct (nth_error l (Z.to_nat i)) as [x|] eqn:E.
  - exists x. split; [reflexivity | now apply nth_error_In in E].
  - apply nth_error_None in E. lia.
Qed.

(** Showing the image under an index inside the navigable set. *)
Lemma updateGalleryDisplay_viewing (v : list PostRenderer.GalleryImage)
  (st : PostRenderer.t) :
  PostRenderer.currentGalleryImages st = v ->
  (0 <= PostRenderer.currentImageIndex st < PostRenderer.len v)%Z ->
  exists st',
    PostRenderer.updateGalleryDisplay st = Some st'
    /\ Spec.viewing v st'
    /\ PostRenderer.modalHidden st' = PostRenderer.modalHidden st.
Proof.
  intros Hv Hi. unfold PostRenderer.updateGalleryDisplay. rewrite Hv.
  destruct (arrayGet_in_range v _ Hi) as (img & E & Hin). rewrite E.
  destruct v as [|x v]; [destruct Hin|].
  eexists. split; [reflexivity|]. split; [|reflexivity].
  unfold Spec.viewing. cbn. repeat split; try exact Hv; try apply Hi.
  now exists img.
Qed.

Lemma len_pos {A : Type} (l : list A) :
  l <> [] -> (0 < PostRenderer.len l)%Z.
Proof.
  destruct l; [congruence|]. intros _. unfold PostRenderer.len. cbn. lia.
Qed.

Lemma openGallery_viewing (startIndex : Z) (st : PostRenderer.t) :
  PostRenderer.viewableImages st <> [] ->
  exists st',
    PostRenderer.openGallery startIndex st = Some st'
    /\ Spec.viewing (PostRenderer.viewableImages st) st'
    /\ PostRenderer.modalHidden st' = false.
Proof.
  intros Hne. unfold PostRenderer.openGallery.
  pose proof (len_pos _ Hne) as Hl.
  destruct (PostRenderer.viewableImages st) as [|x v] eqn:E; [congruence|].
  apply updateGalleryDisplay_viewing; [reflexivity|].
  cbn [PostRenderer.currentImageIndex]. lia.
Qed.

Lemma navigate_viewing (v : list PostRenderer.GalleryImage) (o : PostRenderer.Nav)
  (st : PostRenderer.t) :
  Spec.viewing v st ->
  exists st', PostRenderer.navigate o st = Some st' /\ Spec.viewing v st'.
Proof.
  intros (Hv & Hi & img & _ & Hin).
  assert (Hl : (0 < PostRenderer.len v)%Z)
    by (apply len_pos; intros ->; destruct Hin).
  destruct o; cbn [PostRenderer.navigate];
    unfold PostRenderer.nextImage, PostRenderer.previousImage;
    rewrite Hv; (destruct v as [|x v'] eqn:Ev; [destruct Hin|]); rewrite <- Ev in *.
  - destruct (updateGalleryDisplay_viewing v
                (PostRenderer.set_currentImageIndex
                   (Z.rem (PostRenderer.currentImageIndex st + 1)
                      (PostRenderer.len v)) st))
      as (st' & E & V & _).
    + exact Hv.
    + cbn [PostRenderer.set_currentImageIndex PostRenderer.currentImageIndex].
      apply Z.rem_bound_pos; lia.
    + now exists st'.
  - destruct (updateGalleryDisplay_viewing v
                (PostRenderer.set_currentImageIndex
                   (Z.rem (PostRenderer.currentImageIndex st - 1
                           + PostRenderer.len v)
                      (PostRenderer.len v)) st))
      as (st' & E & V & _).
    + exact Hv.
    + cbn [PostRenderer.set_currentImageIndex PostRenderer.currentImageIndex].
      apply Z.rem_bound_pos; lia.
    + now exists st'.
Qed.

Lemma navigateAll_viewing (v : list PostRenderer.GalleryImage)
  (navs : list PostRenderer.Nav) (st : PostRenderer.t) :
  Spec.viewing v st ->
  exists st', PostRenderer.navigateAll navs st = Some st' /\ Spec.viewing v st'.
Proof.
  revert st. induction navs as [|o navs IH]; intros st H.
  - now exists st.
  - destruct (navigate_viewing v o st H) as (st1 & E & H1).
    cbn [PostRenderer.navigateAll]. rewrite E. now apply IH.
Qed.

(** C9.  A post's gallery [g] (whose images carry no placeholder flag of
    their own) is preloaded, at least one image loads, and the viewer is
    opened at any index: the modal is shown and the navigable set is made
    of exactly the images whose load check succeeded, in order; after any
    sequence of next and previous requests the set is the same and the
    image shown is one of them, an image of the gallery and not a
    placeholder. *)
Theorem viewer_shows_loaded_images_only
  (check : nat -> string -> bool) (g : list PostRenderer.GalleryImage)
  (st : PostRenderer.t) (startIndex : Z) :
  (forall img, In img g -> PostRenderer.isPlaceholder img = false) ->
  PostRenderer.loadedOnly check g <> [] ->
  let st1 :=
    PostRenderer.preloadGalleryImages check
      (PostRenderer.set_galleryImages g st) in
  exists st2,
    PostRenderer.openGallery startIndex st1 = Some st2
    /\ PostRenderer.modalHidden st2 = false
    /\ PostRenderer.currentGalleryImages st2 = PostRenderer.loadedOnly check g
    /\ forall navs,
         exists st3 img,
           PostRenderer.navigateAll navs st2 = Some st3
           /\ PostRenderer.currentGalleryImages st3
              = PostRenderer.loadedOnly check g
           /\ PostRenderer.galleryImg st3 = Some img
           /\ In img (PostRenderer.loadedOnly check g)
           /\ In img g
           /\ PostRenderer.isPlaceholder img = false.
Proof.
  intros Hg Hne st1.
  assert (Ev : PostRenderer.viewableImages st1 = PostRenderer.loadedOnly check g)
    by (now apply viewable_after_preload).
  destruct (openGallery_viewing startIndex st1) as (st2 & E & V & M).
  { now rewrite Ev. }
  rewrite Ev in V. exists st2. split; [exact E|]. split; [exact M|].
  split; [apply V|]. intros navs.
  destruct (navigateAll_viewing _ navs st2 V)
    as (st3 & E3 & Hc & _ & img & Hshown & Hin).
  exists st3, img. repeat split; auto.
  - now apply loadedOnly_In in Hin.
  - apply Hg. now apply loadedOnly_In in Hin.
Qed.

Lemma viewer_shows_loaded_images_only_witness :
  PostRenderer.loadedOnly Scenario.check Scenario.gallery
  = [Scenario.image "img/1.png"; Scenario.image "img/3.png"]
  /\ exists st2,
       PostRenderer.openGallery 2 Scenario.preloaded = Some st2
       /\ PostRenderer.modalHidden st2 = false
       /\ PostRenderer.currentGalleryImages st2
          = PostRenderer.loadedOnly Scenario.check Scenario.gallery
       /\ forall navs,
            exists st3 img,
              PostRenderer.navigateAll navs st2 = Some st3
              /\ PostRenderer.currentGalleryImages st3
                 = PostRenderer.loadedOnly Scenario.check Scenario.gallery
              /\ PostRenderer.galleryImg st3 = Some img
              /\ In img (PostRenderer.loadedOnly Scenario.check Scenario.gallery)
              /\ In img Scenario.gallery
              /\ PostRenderer.isPlaceholder img = false.
Proof.
  split; [vm_compute; reflexivity|].
  apply (viewer_shows_loaded_images_only Scenario.check Scenario.gallery
           PostRenderer.new 2).
  - intros img [<-|[<-|[<-|[]]]]; reflexivity.
  - vm_compute. discriminate.
Defined.

(** The hypothesis on the post data is needed: the preloader copies the
    image object as it is, so an image that loads but carries a placeholder
    flag in the post data is left out of the navigable set. *)
Example flagged_image_is_left_out :
  PostRenderer.viewableImages
    (PostRenderer.preloadGalleryImages (fun _ _ => true)
       (PostRenderer.set_galleryImages
          [{| PostRenderer.src := "img/1.png"; PostRenderer.alt := None;
              PostRenderer.caption := None;
              PostRenderer.isPlaceholder := true |}]
          PostRenderer.new))
  = [].
Proof. reflexivity. Qed.

(* ================================================================== *)
(** * Part III: further properties of the code                          *)
(* ================================================================== *)

(** ** The order of the code units *)

Lemma ltb_trichotomy (a b : string) :
  String.ltb a b = false -> String.ltb b a = false -> a = b.
Proof.
  unfold String.ltb. intros Hab Hba.
  apply String.compare_eq_iff.
  rewrite (String.compare_antisym b a) in Hba.
  destruct (String.compare a b); [reflexivity | discriminate | discriminate].
Qed.

Lemma defaultCompare_not_positive (a b : string) :
  JS.positive (JS.defaultCompare a b) = false -> a <> b ->
  String.ltb a b = true.
Proof.
  unfold JS.defaultCompare. intros H Hne.
  destruct (String.ltb a b) eqn:Eab; [reflexivity|].
  destruct (String.ltb b a) eqn:Eba; [discriminate H|].
  exfalso. apply Hne. now apply ltb_trichotomy.
Qed.

Lemma NoDup_sort {A : Type} (cmp : A -> A -> JS.number) (l : list A) :
  NoDup l -> NoDup (JS.sort cmp l).
Proof. apply Permutation_NoDup, sort_perm. Qed.

(** A sorted array of distinct strings is strictly increasing. *)
Lemma sort_strings_increasing (l : list string) :
  NoDup l ->
  Sorted (fun a b => String.ltb a b = true) (JS.sort JS.defaultCompare l).
Proof.
  intros Hnd.
  pose proof (NoDup_sort JS.defaultCompare l Hnd) as Hnd'.
  pose proof (sort_locally_sorted JS.defaultCompare l defaultCompare_asym) as Hs.
  induction Hs as [|x m Hs IH Hx]; [constructor|].
  inversion Hnd' as [|? ? Hnotin Hnd'']; subst.
  constructor; [now apply IH|].
  destruct Hx as [|y m' Hxy]; constructor.
  apply defaultCompare_not_positive; [exact Hxy|].
  intros ->. apply Hnotin. now left.
Qed.

(** ** filterUI.js: the tag universe *)

Lemma setAddAll_In (l acc : list string) (x : string) :
  In x (PostFilterUI.setAddAll acc l) <-> In x acc \/ In x l.
Proof.
  revert acc. induction l as [|y l IH]; intros acc; cbn [PostFilterUI.setAddAll].
  - cbn. tauto.
  - rewrite IH. destruct (JS.arrayIncludes acc y) eqn:E.
    + apply arrayIncludes_In in E. cbn. split; [tauto|].
      intros [H|[<-|H]]; auto.
    + rewrite in_app_iff. cbn. tauto.
Qed.

Lemma setAddAll_NoDup (l acc : list string) :
  NoDup acc -> NoDup (PostFilterUI.setAddAll acc l).
Proof.
  revert acc. induction l as [|y l IH]; intros acc H;
    cbn [PostFilterUI.setAddAll]; [exact H|].
  apply IH. destruct (JS.arrayIncludes acc y) eqn:E; [exact H|].
  apply NoDup_app; [exact H | repeat constructor; intros [] |].
  intros x Hx [<-|[]].
  apply arrayIncludes_In in Hx. congruence.
Qed.

Lemma tagSet_In (ps : list Post.t) (acc : list string) (x : string) :
  In x (fold_left
          (fun acc post =>
             match Post.tags post with
             | Some ts => PostFilterUI.setAddAll acc ts
             | None => acc
             end) ps acc)
  <-> In x acc
      \/ exists p ts, In p ps /\ Post.tags p = Some ts /\ In x ts.
Proof.
  revert acc. induction ps as [|p ps IH]; intros acc; cbn [fold_left].
  - split; [now left | intros [H|(p & ts & [] & _)]; exact H].
  - rewrite IH. destruct (Post.tags p) as [ts|] eqn:E.
    + rewrite setAddAll_In. split.
      * intros [[H|H]|(q & qs & Hq & Hqs & Hx)]; [now left | |].
        -- right. exists p, ts. repeat split; auto. now left.
        -- right. exists q, qs. repeat split; auto. now right.
      * intros [H|(q & qs & [<-|Hq] & Hqs & Hx)]; [now left; left | |].
        -- rewrite E in Hqs. injection Hqs as <-. left. now right.
        -- right. now exists q, qs.
    + split.
      * intros [H|(q & qs & Hq & Hqs & Hx)]; [now left|].
        right. exists q, qs. repeat split; auto. now right.
      * intros [H|(q & qs & [<-|Hq] & Hqs & Hx)]; [now left | congruence |].
        right. now exists q, qs.
Qed.

Lemma tagSet_NoDup (ps : list Post.t) (acc : list string) :
  NoDup acc ->
  NoDup (fold_left
           (fun acc post =>
              match Post.tags post with
              | Some ts => PostFilterUI.setAddAll acc ts
              | None => acc
              end) ps acc).
Proof.
  revert acc. induction ps as [|p ps IH]; intros acc H; cbn [fold_left];
    [exact H|].
  apply IH. destruct (Post.tags p); [now apply setAddAll_NoDup | exact H].
Qed.

(** X1.  [extractAllTags] collects in [allTags] exactly the tags carried by
    the posts, each of them once, in increasing order of the code units;
    nothing else of the instance changes. *)
Theorem extractAllTags_universe (st : PostFilterUI.t) :
  let st' := PostFilterUI.extractAllTags st in
  (forall tag,
      In tag (PostFilterUI.allTags st')
      <-> exists p ts,
            In p (PostFilterUI.posts st) /\ Post.tags p = Some ts /\ In tag ts)
  /\ NoDup (PostFilterUI.allTags st')
  /\ Sorted (fun a b => String.ltb a b = true) (PostFilterUI.allTags st')
  /\ PostFilterUI.posts st' = PostFilterUI.posts st
  /\ PostFilterUI.filterState st' = PostFilterUI.filterState st
  /\ PostFilterUI.filteredPosts st' = PostFilterUI.filteredPosts st
  /\ PostFilterUI.uiCache st' = PostFilterUI.uiCache st
  /\ PostFilterUI.lastFilterKey st' = PostFilterUI.lastFilterKey st.
Proof.
  cbn zeta. unfold PostFilterUI.extractAllTags. cbn [PostFilterUI.allTags
    PostFilterUI.posts PostFilterUI.filterState PostFilterUI.filteredPosts
    PostFilterUI.lastFilterKey].
  split; [|split; [|split]].
  - intros tag. rewrite sort_In, tagSet_In. split.
    + intros [[]|H]. exact H.
    + intros H. now right.
  - apply NoDup_sort, tagSet_NoDup. constructor.
  - apply sort_strings_increasing, tagSet_NoDup. constructor.
  - repeat split.
Qed.

(** ** filterUI.js: how the result follows the filter state *)

Section FilterMore.
Variable Date_parse : string -> option Z.

(** What a call returns on an instance whose stored result belongs to its
    posts. *)
Lemma coherent_result (ps : list Post.t) (st : PostFilterUI.t) :
  Spec.cacheCoherent Date_parse ps st ->
  fst (PostFilterUI.filterAndSortPosts Date_parse st)
  = JS.sort (if String.eqb (PostFilterUI.sortOrder
                              (PostFilterUI.filterState st)) "newest"
             then PostFilterUI.newestFirst Date_parse
             else PostFilterUI.oldestFirst Date_parse)
      (filter (Spec.kept (PostFilterUI.filterState st)) ps).
Proof.
  intros H.
  destruct (filterAndSortPosts_coherent Date_parse ps st H) as [-> _].
  rewrite computeFiltered_eq. cbn [PostFilterUI.sortSelectedTags
    PostFilterUI.set_filterState PostFilterUI.filterState
    PostFilterUI.set_selectedTags PostFilterUI.sortOrder].
  f_equal. apply filter_ext. intros p. apply kept_sortSelectedTags.
Qed.

(** What the listeners that filter leave in [filteredPosts]. *)
Lemma applyFilters_result (ps : list Post.t) (st : PostFilterUI.t)
  (fs : PostFilterUI.FilterState) :
  PostFilterUI.reachable Date_parse ps st ->
  PostFilterUI.filteredPosts
    (PostFilterUI.applyFilters Date_parse (PostFilterUI.set_filterState fs st))
  = JS.sort (if String.eqb (PostFilterUI.sortOrder fs) "newest"
             then PostFilterUI.newestFirst Date_parse
             else PostFilterUI.oldestFirst Date_parse)
      (filter (Spec.kept fs) ps).
Proof.
  intros H. unfold PostFilterUI.applyFilters.
  rewrite stored_is_returned.
  apply (reachable_result Date_parse ps
           (PostFilterUI.set_filterState fs st)).
  now apply PostFilterUI.reach_state.
Qed.

Lemma selected_after_filter (st : PostFilterUI.t) :
  PostFilterUI.selectedTags
    (PostFilterUI.filterState
       (snd (PostFilterUI.filterAndSortPosts Date_parse st)))
  = JS.sort JS.defaultCompare
      (PostFilterUI.selectedTags (PostFilterUI.filterState st)).
Proof.
  unfold PostFilterUI.filterAndSortPosts.
  destruct (PostFilterUI.cacheHit st); reflexivity.
Qed.

End FilterMore.

Lemma sameIgnoringCase_truthy (a b : string) :
  Spec.sameIgnoringCase a b -> JS.truthy a = JS.truthy b.
Proof. destruct 1; reflexivity. Qed.

Lemma matchesIgnoringCase_trans (t1 t2 text : string) :
  Spec.matchesIgnoringCase t1 t2 ->
  Spec.matchesIgnoringCase t2 text ->
  Spec.matchesIgnoringCase t1 text.
Proof.
  intros H12 H2. apply includes_ignoring_case.
  apply includes_ignoring_case in H12, H2.
  apply includes_spec in H12, H2. apply includes_spec.
  destruct H12 as (a & b & E12). destruct H2 as (c & d & E2).
  exists (c +++ a), (b +++ d).
  rewrite E2, E12, !append_assoc. reflexivity.
Qed.

Lemma matchesIgnoringCase_empty (t : string) :
  Spec.matchesIgnoringCase t "" -> t = "".
Proof.
  intros (pre & mid & post & E & H).
  destruct pre; [|discriminate E]. destruct mid; [|discriminate E].
  now inversion H.
Qed.

(** X2.  The case of the search term does not matter: in a session on the
    posts [ps], two terms that differ by the case of their letters only
    leave the same result when typed into the search box. *)
Theorem search_term_case_is_ignored
  (Date_parse : string -> option Z) (ps : list Post.t) (st : PostFilterUI.t)
  (t1 t2 : string) :
  PostFilterUI.reachable Date_parse ps st ->
  Spec.sameIgnoringCase t1 t2 ->
  PostFilterUI.filteredPosts
    (PostFilterUI.handle Date_parse (PostFilterUI.SearchInput t1) st)
  = PostFilterUI.filteredPosts
      (PostFilterUI.handle Date_parse (PostFilterUI.SearchInput t2) st).
Proof.
  intros H Hc. cbn [PostFilterUI.handle].
  rewrite !(applyFilters_result Date_parse ps st _ H).
  cbn [PostFilterUI.sortOrder PostFilterUI.set_searchTerm].
  f_equal. apply filter_ext. intros p. unfold Spec.kept.
  cbn [PostFilterUI.searchTerm PostFilterUI.selectedTags
       PostFilterUI.set_searchTerm].
  rewrite (sameIgnoringCase_truthy _ _ Hc).
  apply sameIgnoringCase_iff in Hc. now rewrite Hc.
Qed.

Lemma search_term_case_is_ignored_witness :
  PostFilterUI.filteredPosts
    (PostFilterUI.handle Date.parseISO (PostFilterUI.SearchInput "DEPLOY")
       Examples.ui)
  = PostFilterUI.filteredPosts
      (PostFilterUI.handle Date.parseISO (PostFilterUI.SearchInput "deploy")
         Examples.ui)
  /\ PostFilterUI.filteredPosts
       (PostFilterUI.handle Date.parseISO (PostFilterUI.SearchInput "DEPLOY")
          Examples.ui)
     = [Examples.postC].
Proof.
  split; [|vm_compute; reflexivity].
  apply (search_term_case_is_ignored Date.parseISO Examples.posts).
  - apply PostFilterUI.reach_init.
  - repeat constructor.
Defined.

(** X3.  Typing on narrows the result: in a session on the posts [ps],
    when the term [t1] occurs in the term [t2] (case ignored), every post
    left by [t2] is left by [t1] too. *)
Theorem longer_search_term_narrows
  (Date_parse : string -> option Z) (ps : list Post.t) (st : PostFilterUI.t)
  (t1 t2 : string) :
  PostFilterUI.reachable Date_parse ps st ->
  Spec.matchesIgnoringCase t1 t2 ->
  incl
    (PostFilterUI.filteredPosts
       (PostFilterUI.handle Date_parse (PostFilterUI.SearchInput t2) st))
    (PostFilterUI.filteredPosts
       (PostFilterUI.handle Date_parse (PostFilterUI.SearchInput t1) st)).
Proof.
  intros H Hm p. cbn [PostFilterUI.handle].
  rewrite !(applyFilters_result Date_parse ps st _ H).
  rewrite !sort_In, !filter_In, !kept_spec.
  cbn [PostFilterUI.searchTerm PostFilterUI.selectedTags
       PostFilterUI.set_searchTerm].
  intros (Hin & Hs & Ht). repeat split; auto.
  unfold Spec.searchPredicate in *.
  destruct Hs as [->|[Hs|[(d & Hd & Hs)|(ts & tag & Hts & Htag & Hs)]]].
  - left. now apply matchesIgnoringCase_empty.
  - right. left. eapply matchesIgnoringCase_trans; eauto.
  - right. right. left. exists d. split; [exact Hd|].
    eapply matchesIgnoringCase_trans; eauto.
  - right. right. right. exists ts, tag. repeat split; auto.
    eapply matchesIgnoringCase_trans; eauto.
Qed.

Lemma longer_search_term_narrows_witness :
  incl
    (PostFilterUI.filteredPosts
       (PostFilterUI.handle Date.parseISO (PostFilterUI.SearchInput "Ship")
          Examples.ui))
    (PostFilterUI.filteredPosts
       (PostFilterUI.handle Date.parseISO (PostFilterUI.SearchInput "s")
          Examples.ui)).
Proof.
  apply (longer_search_term_narrows Date.parseISO Examples.posts).
  - apply PostFilterUI.reach_init.
  - exists "", "S", "hip". split; [reflexivity | repeat constructor].
Defined.



(** X5.  [clearCache] repairs any instance: whatever key and result it
    holds, stale or not, the next [filterAndSortPosts] misses the cache and
    returns the filter of the current posts under the current filter
    state; and an [init] with other posts that follows it stores the
    filter of those posts. *)
Theorem clearCache_forces_recomputation
  (Date_parse : string -> option Z) (st : PostFilterUI.t) :
  let st' := PostFilterUI.clearCache st in
  let fs := PostFilterUI.filterState st in
  let order :=
    if String.eqb (PostFilterUI.sortOrder fs) "newest"
    then PostFilterUI.newestFirst Date_parse
    else PostFilterUI.oldestFirst Date_parse in
  PostFilterUI.cacheHit st' = false
  /\ fst (PostFilterUI.filterAndSortPosts Date_parse st')
     = JS.sort order (filter (Spec.kept fs) (PostFilterUI.posts st))
  /\ forall ps,
       PostFilterUI.filteredPosts (PostFilterUI.init Date_parse ps st')
       = JS.sort order (filter (Spec.kept fs) ps).
Proof.
  intros st' fs order. split; [|split].
  - destruct (PostFilterUI.cacheHit st') eqn:E; [|reflexivity].
    apply cacheHit_true in E. destruct E as [E _].
    rewrite filterKey_unfold in E. now apply filterKeyOf_nonempty in E.
  - apply (coherent_result Date_parse (PostFilterUI.posts st) st').
    now apply coherent_no_key.
  - intros ps. unfold PostFilterUI.init. rewrite stored_is_returned.
    apply (coherent_result Date_parse ps).
    now apply coherent_no_key.
Qed.

(** ** filterUI.js: the selection of tags *)

Section SelectionFacts.
Variable Date_parse : string -> option Z.

Lemma selected_after_handle (e : PostFilterUI.Event) (st : PostFilterUI.t) :
  let sel := PostFilterUI.selectedTags (PostFilterUI.filterState st) in
  PostFilterUI.selectedTags
    (PostFilterUI.filterState (PostFilterUI.handle Date_parse e st))
  = match e with
    | PostFilterUI.TagChange tag true =>
        JS.sort JS.defaultCompare
          (if JS.arrayIncludes sel tag then sel else sel ++ [tag])%list
    | PostFilterUI.TagChange tag false =>
        JS.sort JS.defaultCompare
          (filter (fun t0 => negb (String.eqb t0 tag)) sel)
    | PostFilterUI.SearchInput _ | PostFilterUI.SortChange _ =>
        JS.sort JS.defaultCompare sel
    | PostFilterUI.GridClick | PostFilterUI.ListClick => sel
    | PostFilterUI.ClearClick => []
    end.
Proof.
  destruct e as [v|tag [|]|v| | |]; cbn [PostFilterUI.handle];
    unfold PostFilterUI.applyFilters, PostFilterUI.resetFilters;
    try rewrite selected_after_filter; reflexivity.
Qed.

Lemma handle_keeps_selection_tidy (e : PostFilterUI.Event)
  (st : PostFilterUI.t) :
  let tidy (s : PostFilterUI.t) :=
    NoDup (PostFilterUI.selectedTags (PostFilterUI.filterState s))
    /\ Sorted (fun a b => String.ltb a b = true)
         (PostFilterUI.selectedTags (PostFilterUI.filterState s)) in
  tidy st -> tidy (PostFilterUI.handle Date_parse e st).
Proof.
  intros tidy [Hnd Hs]. unfold tidy. rewrite selected_after_handle.
  set (sel := PostFilterUI.selectedTags (PostFilterUI.filterState st)) in *.
  assert (G : forall l, NoDup l ->
                NoDup (JS.sort JS.defaultCompare l)
                /\ Sorted (fun a b => String.ltb a b = true)
                     (JS.sort JS.defaultCompare l)).
  { intros l Hl. split; [now apply NoDup_sort
                        | now apply sort_strings_increasing]. }
  destruct e as [v|tag [|]|v| | |]; auto.
  - apply G. destruct (JS.arrayIncludes sel tag) eqn:E; [exact Hnd|].
    apply NoDup_app; [exact Hnd | repeat constructor; intros [] |].
    intros x Hx [<-|[]]. apply arrayIncludes_In in Hx. congruence.
  - apply G. now apply NoDup_filter.
  - split; constructor.
Qed.

End SelectionFacts.

(** X6.  In a session driven by the listeners, from the opening of the
    list view on, the selected tags never hold a tag twice and stand in
    increasing order of the code units. *)
Theorem selection_stays_tidy
  (Date_parse : string -> option Z) (ps : list Post.t)
  (events : list PostFilterUI.Event) :
  let st := FilterSession.listen Date_parse events
              (FilterSession.opened Date_parse ps) in
  NoDup (PostFilterUI.selectedTags (PostFilterUI.filterState st))
  /\ Sorted (fun a b => String.ltb a b = true)
       (PostFilterUI.selectedTags (PostFilterUI.filterState st)).
Proof.
  cbn zeta. unfold FilterSession.listen.
  assert (B : NoDup (PostFilterUI.selectedTags
                       (PostFilterUI.filterState
                          (FilterSession.opened Date_parse ps)))
              /\ Sorted (fun a b => String.ltb a b = true)
                   (PostFilterUI.selectedTags
                      (PostFilterUI.filterState
                         (FilterSession.opened Date_parse ps)))).
  { unfold FilterSession.opened, PostFilterUI.init.
    rewrite selected_after_filter. cbn. split; constructor. }
  revert B. generalize (FilterSession.opened Date_parse ps).
  induction events as [|e events IH]; intros st B; [exact B|].
  cbn [fold_left]. apply IH.
  now apply (handle_keeps_selection_tidy Date_parse e st).
Qed.

(** X7.  A checkbox does to the selection what its state says: after the
    change of the checkbox of [tag], a tag is selected if and only if it
    was selected before or is [tag] (checked), respectively was selected
    before and is not [tag] (unchecked). *)
Theorem checkbox_sets_membership
  (Date_parse : string -> option Z) (st : PostFilterUI.t)
  (tag t0 : string) (checked : bool) :
  let sel := PostFilterUI.selectedTags (PostFilterUI.filterState st) in
  In t0
    (PostFilterUI.selectedTags
       (PostFilterUI.filterState
          (PostFilterUI.handle Date_parse
             (PostFilterUI.TagChange tag checked) st)))
  <-> if checked then t0 = tag \/ In t0 sel else t0 <> tag /\ In t0 sel.
Proof.
  intros sel. rewrite selected_after_handle. fold sel.
  destruct checked; rewrite sort_In.
  - destruct (JS.arrayIncludes sel tag) eqn:E.
    + apply arrayIncludes_In in E. split; [now right|].
      intros [->|H]; assumption.
    + rewrite in_app_iff. cbn. split.
      * intros [H|[<-|[]]]; [now right | now left].
      * intros [->|H]; [right; now left | now left].
  - rewrite filter_In, negb_true_iff, String.eqb_neq. tauto.
Qed.

(** ** filterUI.js: the two sort orders *)

Lemma StronglySorted_snoc {A : Type} (R : A -> A -> Prop) (m : list A)
  (x : A) :
  StronglySorted R m -> Forall (fun b => R b x) m ->
  StronglySorted R (m ++ [x])%list.
Proof.
  induction 1 as [|y m Hm IH Hy]; intros Hx; cbn [app].
  - repeat constructor.
  - inversion Hx as [|? ? Hyx Hmx]; subst.
    constructor; [now apply IH|].
    apply Forall_app. split; [exact Hy | now repeat constructor].
Qed.

Lemma StronglySorted_rev {A : Type} (R : A -> A -> Prop) (l : list A) :
  StronglySorted R l -> StronglySorted (fun a b => R b a) (rev l).
Proof.
  induction 1 as [|x l Hs IH Hx]; [constructor|].
  cbn [rev]. apply StronglySorted_snoc; [exact IH|].
  rewrite Forall_forall in Hx |- *. intros b Hb.
  apply Hx. now apply in_rev.
Qed.

(** Two arrangements of the same elements, both sorted by an order that
    only equal elements satisfy both ways, are the same. *)
Lemma sorted_unique {A : Type} (R : A -> A -> Prop) (l1 : list A) :
  forall l2,
    (forall a b, In a l1 -> In b l1 -> R a b -> R b a -> a = b) ->
    Permutation l1 l2 ->
    StronglySorted R l1 -> StronglySorted R l2 -> l1 = l2.
Proof.
  induction l1 as [|x l1 IH]; intros l2 Hanti Hp H1 H2.
  - apply Permutation_nil in Hp. now subst.
  - destruct l2 as [|y l2].
    + apply Permutation_sym, Permutation_nil in Hp. discriminate Hp.
    + inversion H1 as [|? ? H1' Hx]; subst.
      inversion H2 as [|? ? H2' Hy]; subst.
      rewrite Forall_forall in Hx, Hy.
      assert (Hy1 : In y (x :: l1))
        by (apply (Permutation_in _ (Permutation_sym Hp)); now left).
      assert (Hx2 : In x (y :: l2))
        by (apply (Permutation_in _ Hp); now left).
      assert (E : x = y).
      { destruct Hy1 as [E|Hy1]; [exact E|].
        destruct Hx2 as [E|Hx2]; [now symmetry|].
        apply Hanti; [now left | now right | now apply Hx | now apply Hy]. }
      subst y. f_equal. apply IH; auto.
      * intros a b Ha Hb. apply Hanti; now right.
      * now apply Permutation_cons_inv in Hp.
Qed.

(** X8.  The sort order decides the arrangement only: in a session on the
    posts [ps], the results under 'newest' and under 'oldest' hold the
    same posts; when every post is dated and no two posts share a date,
    each is the other one reversed. *)
Theorem sort_orders_mirror
  (Date_parse : string -> option Z) (ps : list Post.t) (st : PostFilterUI.t) :
  PostFilterUI.reachable Date_parse ps st ->
  let newest :=
    PostFilterUI.filteredPosts
      (PostFilterUI.handle Date_parse (PostFilterUI.SortChange "newest") st) in
  let oldest :=
    PostFilterUI.filteredPosts
      (PostFilterUI.handle Date_parse (PostFilterUI.SortChange "oldest") st) in
  Permutation newest oldest
  /\ (Spec.validDates Date_parse ps ->
      (forall a b, In a ps -> In b ps ->
                   Date_parse (Post.date a) = Date_parse (Post.date b) ->
                   a = b) ->
      newest = rev oldest).
Proof.
  intros H newest oldest.
  set (l := filter (Spec.kept (PostFilterUI.filterState st)) ps).
  assert (En : newest = JS.sort (PostFilterUI.newestFirst Date_parse) l).
  { unfold newest. cbn [PostFilterUI.handle].
    now rewrite (applyFilters_result Date_parse ps st _ H). }
  assert (Eo : oldest = JS.sort (PostFilterUI.oldestFirst Date_parse) l).
  { unfold oldest. cbn [PostFilterUI.handle].
    now rewrite (applyFilters_result Date_parse ps st _ H). }
  assert (P : Permutation newest oldest).
  { rewrite En, Eo. eapply perm_trans;
      [apply Permutation_sym, sort_perm | apply sort_perm]. }
  split; [exact P|]. intros Hv Hd.
  assert (Hvl : Spec.validDates Date_parse l)
    by (now apply validDates_filter).
  apply (sorted_unique (Spec.notOlder Date_parse)).
  - intros a b Ha Hb (ta & tb & Ea & Eb & Hab) (tb' & ta' & Eb' & Ea' & Hba).
    rewrite En in Ha, Hb. apply sort_In in Ha, Hb.
    apply filter_In in Ha, Hb.
    apply Hd; [apply Ha | apply Hb|].
    rewrite Ea, Eb. rewrite Ea in Ea'. rewrite Eb in Eb'.
    injection Ea' as <-. injection Eb' as <-. f_equal. lia.
  - eapply perm_trans; [exact P | apply Permutation_rev].
  - rewrite En. now apply sort_newestFirst_sorted.
  - rewrite Eo.
    apply StronglySorted_weaken
      with (R := fun a b => Spec.notNewer Date_parse b a).
    + intros a b (tb & ta & Eb & Ea & Hba). exists ta, tb. auto.
    + apply StronglySorted_rev. now apply sort_oldestFirst_sorted.
Qed.

Lemma sort_orders_mirror_witness :
  PostFilterUI.filteredPosts
    (PostFilterUI.handle Date.parseISO (PostFilterUI.SortChange "newest")
       Examples.ui)
  = rev (PostFilterUI.filteredPosts
           (PostFilterUI.handle Date.parseISO
              (PostFilterUI.SortChange "oldest") Examples.ui))
  /\ PostFilterUI.filteredPosts
       (PostFilterUI.handle Date.parseISO (PostFilterUI.SortChange "oldest")
          Examples.ui)
     = [Examples.postC; Scenario.postA; Scenario.postB].
Proof.
  split; [|vm_compute; reflexivity].
  apply (proj2 (sort_orders_mirror Date.parseISO Examples.posts Examples.ui
                  (PostFilterUI.reach_init _ _))).
  - repeat constructor; discriminate.
  - intros a b [<-|[<-|[<-|[]]]] [<-|[<-|[<-|[]]]]; vm_compute;
      intros E; try reflexivity; discriminate E.
Defined.

(** ** app.js: navigation round trips *)





Lemma navigateTo_content (v : string) (p : option string) (st : App.t) :
  App.content (App.navigateTo v p st)
  = Some (App.renderRoute (App.routeOfHash (App.assignHash (App.hashOf v p)))).
Proof.
  unfold App.navigateTo.
  destruct (10 <? _)%nat; reflexivity.
Qed.

(** What the hash holds after [navigateTo(v, i)] with an id. *)
Lemma assignHash_with_id (v i : string) :
  Spec.hashSafe v = true -> JS.truthy v = true ->
  JS.startsWith v "#" = false ->
  App.assignHash (v +++ "/" +++ i)
  = String "#" (v +++ String "/" (App.encodeFragment i)).
Proof.
  intros Hs Ht Hh. destruct v as [|c v]; [discriminate Ht|].
  assert (Hc : Ascii.eqb c "#" = false).
  { cbn [JS.startsWith] in Hh. rewrite andb_true_r, Ascii.eqb_sym in Hh.
    exact Hh. }
  unfold App.assignHash. cbn [String.append]. rewrite Hc.
  change (String c (v +++ String "/" i)) with (String c v +++ String "/" i).
  rewrite encodeFragment_append, (encodeFragment_safe _ Hs).
  change (App.encodeFragment (String "/" i))
    with (String "/" (App.encodeFragment i)).
  reflexivity.
Qed.

Lemma orNull_match (e : string) :
  JS.orNull (Some e)
  = match e with
    | EmptyString => None
    | String c r => Some (String c r)
    end.
Proof. destruct e; reflexivity. Qed.

(** The route read back after [navigateTo(v, id)], the id cut at its first
    slash: the view, and what the hash made of the id. *)
Lemma routeOfHash_with_id (v i rest : string) :
  Spec.plain v = true -> JS.includes i "/" = false ->
  (App.routeOfHash (String "#" (v +++ String "/" (App.encodeFragment i)))
   = {| App.view := v; App.postId := JS.orNull (Some (App.encodeFragment i)) |})
  /\ App.routeOfHash
       (String "#" (v +++ String "/"
                      (App.encodeFragment (i +++ String "/" rest))))
     = {| App.view := v; App.postId := JS.orNull (Some (App.encodeFragment i)) |}.
Proof.
  intros Hv Hi. destruct (plain_spec v Hv) as [Hvt Hvs].
  assert (He : JS.includes (App.encodeFragment i) "/" = false)
    by (now rewrite encodeFragment_slash).
  unfold App.routeOfHash. cbn [JS.substring1]. split.
  - rewrite (split_at_slash v _ Hvs), (split_no_slash _ He).
    cbn [nth_error]. now rewrite Hvt.
  - rewrite encodeFragment_append.
    change (App.encodeFragment (String "/" rest))
      with (String "/" (App.encodeFragment rest)).
    rewrite (split_at_slash v _ Hvs), (split_at_slash _ _ He).
    cbn [nth_error]. now rewrite Hvt.
Qed.

(** X10.  What a navigation renders.  The id of [navigateTo('posts', id)]
    reaches the page through the hash: the browser removes its tabs and
    newlines and percent-encodes its spaces, quotes, angle brackets,
    backticks, controls and non-ASCII units, and the router cuts it at the
    first slash.  The detail view is rendered for what is left of the id,
    the list when nothing is left or the id is missing; so an id the hash
    holds as written gets its own detail view, and an id with a space in
    it does not.  [navigateTo('home', ...)] renders the home view whatever
    the id, and so does every route of the grammar whose view is not
    posts. *)
Theorem navigateTo_renders (st : App.t) :
  (forall i, JS.includes i "/" = false ->
     App.content (App.navigateTo "posts" (Some i) st)
     = Some (match App.encodeFragment i with
             | EmptyString => App.RenderPostsList
             | String c r => App.RenderPostDetail (String c r)
             end))
  /\ (forall i, Spec.plain i = true -> Spec.hashSafe i = true ->
        App.content (App.navigateTo "posts" (Some i) st)
        = Some (App.RenderPostDetail i))
  /\ App.content (App.navigateTo "posts" None st) = Some App.RenderPostsList
  /\ App.content (App.navigateTo "posts" (Some "") st)
     = Some App.RenderPostsList
  /\ (forall i rest, JS.includes i "/" = false ->
        App.content (App.navigateTo "posts" (Some (i +++ String "/" rest)) st)
        = Some (match App.encodeFragment i with
                | EmptyString => App.RenderPostsList
                | String c r => App.RenderPostDetail (String c r)
                end))
  /\ (forall p, App.content (App.navigateTo "home" p st) = Some App.RenderHome)
  /\ (forall v p, Spec.isRoute {| App.view := v; App.postId := p |} = true ->
        v <> "posts" ->
        App.content (App.navigateTo v p st) = Some App.RenderHome).
Proof.
  assert (G : forall i, JS.includes i "/" = false ->
     App.content (App.navigateTo "posts" (Some i) st)
     = Some (match App.encodeFragment i with
             | EmptyString => App.RenderPostsList
             | String c r => App.RenderPostDetail (String c r)
             end)).
  { intros i Hi. rewrite navigateTo_content. unfold App.hashOf.
    destruct (JS.truthy i) eqn:Ht.
    - rewrite (assignHash_with_id "posts" i eq_refl eq_refl eq_refl).
      rewrite (proj1 (routeOfHash_with_id "posts" i "" eq_refl Hi)).
      rewrite orNull_match. unfold App.renderRoute. cbn [App.view App.postId].
      destruct (App.encodeFragment i); reflexivity.
    - destruct i; [reflexivity | discriminate Ht]. }
  split; [exact G|]. split; [|split; [|split; [|split; [|split]]]].
  - intros i Hi Hs. rewrite (G i (proj2 (plain_spec i Hi))).
    rewrite (encodeFragment_safe i Hs).
    destruct i; [discriminate (proj1 (plain_spec _ Hi)) | reflexivity].
  - now rewrite navigateTo_content.
  - now rewrite navigateTo_content.
  - intros i rest Hi. rewrite navigateTo_content. unfold App.hashOf.
    assert (Ht : JS.truthy (i +++ String "/" rest) = true)
      by (destruct i; reflexivity).
    rewrite Ht.
    rewrite (assignHash_with_id "posts" _ eq_refl eq_refl eq_refl).
    rewrite (proj2 (routeOfHash_with_id "posts" i rest eq_refl Hi)).
    rewrite orNull_match. unfold App.renderRoute. cbn [App.view App.postId].
    destruct (App.encodeFragment i); reflexivity.
  - intros p. rewrite navigateTo_content. unfold App.hashOf.
    destruct p as [i|]; [|reflexivity].
    destruct (JS.truthy i); [|reflexivity].
    rewrite (assignHash_with_id "home" i eq_refl eq_refl eq_refl).
    unfold App.routeOfHash. cbn [JS.substring1].
    rewrite (split_at_slash "home" _ eq_refl). reflexivity.
  - intros v p Hr Hv. rewrite navigateTo_content.
    pose proof (routeOfHash_assignHash
                  {| App.view := v; App.postId := p |} Hr) as E.
    cbn [App.view App.postId] in E. rewrite E.
    unfold App.renderRoute. cbn [App.view].
    destruct (String.eqb v "home"); [reflexivity|].
    destruct (String.eqb_spec v "posts"); [contradiction | reflexivity].
Qed.

Lemma navigateTo_renders_witness :
  App.content (App.navigateTo "posts" (Some "a") (App.start ""))
  = Some (App.RenderPostDetail "a")
  /\ App.content (App.navigateTo "posts" (Some "my post") (App.start ""))
     = Some (App.RenderPostDetail "my%20post")
  /\ App.content (App.navigateTo "posts" (Some "a/b") (App.start ""))
     = Some (App.RenderPostDetail "a")
  /\ App.content (App.navigateTo "about" None (App.start ""))
     = Some App.RenderHome.
Proof.
  destruct (navigateTo_renders (App.start ""))
    as (H1 & H2 & _ & _ & H5 & _ & H7).
  split; [apply (H2 "a"); reflexivity|].
  split; [exact (H1 "my post" eq_refl)|].
  split; [exact (H5 "a" "b" eq_refl)|].
  apply (H7 "about" None); [reflexivity | discriminate].
Defined.



(** ** app.js: the cache of list items *)

Section MapFacts.
Context {V : Type}.

Lemma get_set_same (m : DomCache.Map V) (k : string) (v : V) :
  DomCache.get (DomCache.set m k v) k = Some v.
Proof.
  induction m as [|[k' v'] m IH]; cbn.
  - now rewrite String.eqb_refl.
  - destruct (String.eqb k' k) eqn:E; cbn.
    + now rewrite String.eqb_refl.
    + now rewrite E.
Qed.

Lemma get_set_other (m : DomCache.Map V) (k k0 : string) (v : V) :
  k0 <> k -> DomCache.get (DomCache.set m k v) k0 = DomCache.get m k0.
Proof.
  intros Hne. induction m as [|[k' v'] m IH]; cbn.
  - destruct (String.eqb_spec k k0); [congruence | reflexivity].
  - destruct (String.eqb_spec k' k) as [->|Hk]; cbn.
    + destruct (String.eqb_spec k k0); [congruence | reflexivity].
    + destruct (String.eqb k' k0); [reflexivity | exact IH].
Qed.

Lemma get_delete_other (m : DomCache.Map V) (k k0 : string) :
  k0 <> k -> DomCache.get (DomCache.delete m k) k0 = DomCache.get m k0.
Proof.
  intros Hne. unfold DomCache.delete.
  induction m as [|[k' v'] m IH]; [reflexivity|].
  cbn [filter fst].
  destruct (String.eqb_spec k' k) as [->|Hk]; cbn [negb DomCache.get].
  - destruct (String.eqb_spec k k0); [congruence | exact IH].
  - now rewrite IH.
Qed.

Lemma get_delete_same (m : DomCache.Map V) (k : string) :
  DomCache.get (DomCache.delete m k) k = None.
Proof.
  unfold DomCache.delete.
  induction m as [|[k' v'] m IH]; [reflexivity|].
  cbn [filter fst].
  destruct (String.eqb k' k) eqn:E; cbn [negb DomCache.get]; [exact IH|].
  now rewrite E.
Qed.
End MapFacts.

Lemma append_length (a b : string) :
  String.length (a +++ b) = (String.length a + String.length b)%nat.
Proof.
  induction a as [|c a IH]; cbn; [reflexivity | now rewrite IH].
Qed.

Lemma list_key_differs (i : string) : i +++ "-list" <> i.
Proof.
  intros E. apply (f_equal String.length) in E.
  rewrite append_length in E. cbn in E. lia.
Qed.

Section CacheFacts.
Variables Node Image : Type.
Variable itemHTML : Post.t -> string.

Lemma createPostListItemHTML_spec (post : Post.t)
  (c : DomCache.t Node Image) :
  let key := Post.id post +++ "-list" in
  let r := DomCache.createPostListItemHTML itemHTML post c in
  DomCache.get (DomCache.postListItems (snd r)) key = Some (fst r)
  /\ (forall k v,
         DomCache.get (DomCache.postListItems c) k = Some v ->
         DomCache.get (DomCache.postListItems (snd r)) k = Some v)
  /\ DomCache.postDetails (snd r) = DomCache.postDetails c
  /\ DomCache.images (snd r) = DomCache.images c.
Proof.
  intros key r. unfold r, DomCache.createPostListItemHTML, DomCache.has.
  fold key.
  destruct (DomCache.get (DomCache.postListItems c) key) as [h|] eqn:E;
    cbn [fst snd DomCache.postListItems DomCache.postDetails DomCache.images].
  - repeat split; auto.
  - split; [apply get_set_same|]. split; [|split; reflexivity].
    intros k v Hk. rewrite get_set_other; [exact Hk|].
    intros ->. congruence.
Qed.

Lemma createPostListItemHTML_hit (post : Post.t) (c : DomCache.t Node Image)
  (h : string) :
  DomCache.get (DomCache.postListItems c) (Post.id post +++ "-list") = Some h ->
  DomCache.createPostListItemHTML itemHTML post c = (h, c).
Proof.
  intros E. unfold DomCache.createPostListItemHTML, DomCache.has.
  now rewrite E.
Qed.

End CacheFacts.

(** X12.  [createPostListItemHTML] builds the item of a post once: after a
    call for a post, a call for any post of the same id, whatever its
    other fields have become, returns the HTML of the first call and leaves
    the cache as it is. *)
Theorem list_item_is_built_once
  (Node Image : Type) (itemHTML : Post.t -> string)
  (post post' : Post.t) (c : DomCache.t Node Image) :
  Post.id post' = Post.id post ->
  let r := DomCache.createPostListItemHTML itemHTML post c in
  DomCache.createPostListItemHTML itemHTML post' (snd r) = (fst r, snd r).
Proof.
  intros Hid r. apply createPostListItemHTML_hit. rewrite Hid.
  exact (proj1 (createPostListItemHTML_spec Node Image itemHTML post c)).
Qed.

Lemma list_item_is_built_once_witness :
  let r := DomCache.createPostListItemHTML Examples.itemHTML Scenario.postA
             Examples.cache in
  fst r = "<article>a</article>"
  /\ DomCache.createPostListItemHTML Examples.itemHTML Examples.postA' (snd r)
     = ("<article>a</article>", snd r).
Proof.
  intros r. split; [reflexivity|].
  apply (list_item_is_built_once unit unit Examples.itemHTML
           Scenario.postA Examples.postA' Examples.cache).
  reflexivity.
Defined.

(** X13.  [clearPostCache(id)] removes the cached page of the post but
    never its list item: the item is stored under the id followed by
    -list, a key the call does not touch, so the list keeps showing the
    HTML built before.  [clearAllCache] does remove it: the next call
    builds the item anew. *)
Theorem clearPostCache_keeps_the_list_item
  (Node Image : Type) (itemHTML : Post.t -> string)
  (post post' : Post.t) (c : DomCache.t Node Image) :
  Post.id post' = Post.id post ->
  let r := DomCache.createPostListItemHTML itemHTML post c in
  let cleared := DomCache.clearPostCache (Post.id post) (snd r) in
  DomCache.get (DomCache.postDetails cleared) (Post.id post) = None
  /\ DomCache.createPostListItemHTML itemHTML post' cleared = (fst r, cleared)
  /\ fst (DomCache.createPostListItemHTML itemHTML post'
            (DomCache.clearAllCache (snd r)))
     = itemHTML post'.
Proof.
  intros Hid r cleared. split; [apply get_delete_same|]. split.
  - apply createPostListItemHTML_hit. rewrite Hid. unfold cleared.
    cbn [DomCache.clearPostCache DomCache.postListItems].
    rewrite get_delete_other by apply list_key_differs.
    exact (proj1 (createPostListItemHTML_spec Node Image itemHTML post c)).
  - reflexivity.
Qed.

Lemma clearPostCache_keeps_the_list_item_witness :
  let r := DomCache.createPostListItemHTML Examples.itemHTML Scenario.postA
             Examples.cache in
  let cleared := DomCache.clearPostCache "a" (snd r) in
  DomCache.createPostListItemHTML Examples.itemHTML Examples.postA' cleared
  = ("<article>a</article>", cleared)
  /\ fst (DomCache.createPostListItemHTML Examples.itemHTML Examples.postA'
            (DomCache.clearAllCache (snd r)))
     = "<article>renamed</article>".
Proof.
  intros r cleared.
  destruct (clearPostCache_keeps_the_list_item unit unit Examples.itemHTML
              Scenario.postA Examples.postA' Examples.cache eq_refl)
    as (_ & H2 & H3).
  split; [exact H2 | exact H3].
Defined.

Lemma displayItems_spec (Node Image : Type) (itemHTML : Post.t -> string)
  (l : list Post.t) :
  forall c : DomCache.t Node Image,
    let r := DomCache.displayItems itemHTML l c in
    (forall k v,
        DomCache.get (DomCache.postListItems c) k = Some v ->
        DomCache.get (DomCache.postListItems (snd r)) k = Some v)
    /\ (forall p, In p l ->
          DomCache.get (DomCache.postListItems (snd r))
            (Post.id p +++ "-list") <> None)
    /\ ((forall p, In p l ->
           DomCache.get (DomCache.postListItems c)
             (Post.id p +++ "-list") <> None) ->
        snd r = c).
Proof.
  induction l as [|post l IH]; intros c r.
  - unfold r. cbn. repeat split; auto.
  - unfold r. cbn [DomCache.displayItems].
    pose proof (createPostListItemHTML_spec Node Image itemHTML post c)
      as (G1 & G2 & _).
    destruct (DomCache.createPostListItemHTML itemHTML post c)
      as [html c1] eqn:E1.
    cbn [fst snd] in G1, G2.
    specialize (IH c1). cbn zeta in IH.
    destruct (DomCache.displayItems itemHTML l c1) as [rest c2] eqn:E2.
    cbn [fst snd] in IH |- *. destruct IH as (I1 & I2 & I3).
    split; [|split].
    + intros k v Hk. apply I1, G2, Hk.
    + intros p [<-|Hp]; [|now apply I2].
      rewrite (I1 _ _ G1). discriminate.
    + intros Hall.
      assert (Ec : c1 = c).
      { destruct (DomCache.get (DomCache.postListItems c)
                    (Post.id post +++ "-list")) as [h|] eqn:Eh.
        - rewrite (createPostListItemHTML_hit Node Image itemHTML post c h Eh)
            in E1. now injection E1 as _ <-.
        - exfalso. apply (Hall post); [now left | exact Eh]. }
      subst c1. apply I3. intros p Hp. apply Hall. now right.
Qed.

(** X14.  Rendering the list is repeatable: once [displayPosts] has
    rendered a list of posts, rendering the same list again gives the same
    markup and builds no item anew (the cache is left as it is). *)
Theorem displayItems_is_repeatable
  (Node Image : Type) (itemHTML : Post.t -> string)
  (l : list Post.t) (c : DomCache.t Node Image) :
  let r := DomCache.displayItems itemHTML l c in
  DomCache.displayItems itemHTML l (snd r) = (fst r, snd r).
Proof.
  revert c. induction l as [|post l IH]; intros c r; [reflexivity|].
  unfold r. cbn [DomCache.displayItems].
  pose proof (createPostListItemHTML_spec Node Image itemHTML post c)
    as (G1 & _).
  destruct (DomCache.createPostListItemHTML itemHTML post c)
    as [html c1] eqn:E1.
  cbn [fst snd] in G1.
  pose proof (displayItems_spec Node Image itemHTML l c1) as (I1 & _).
  specialize (IH c1). cbn zeta in IH.
  destruct (DomCache.displayItems itemHTML l c1) as [rest c2] eqn:E2.
  cbn [fst snd] in IH, I1 |- *.
  rewrite (createPostListItemHTML_hit Node Image itemHTML post c2 html
             (I1 _ _ G1)).
  now rewrite IH.
Qed.

(** ** postRenderer.js: preloading *)

Lemma checkAll_nth (check : nat -> string -> bool)
  (g : list PostRenderer.GalleryImage) :
  forall k i,
    nth_error (PostRenderer.checkAll check k g) i
    = option_map (fun img => (img, check (k + i)%nat (PostRenderer.src img)))
        (nth_error g i).
Proof.
  induction g as [|x g IH]; intros k i.
  - now destruct i.
  - destruct i as [|i]; cbn [PostRenderer.checkAll nth_error option_map].
    + now rewrite Nat.add_0_r.
    + rewrite IH. now rewrite Nat.add_succ_comm.
Qed.

Lemma checkAll_length (check : nat -> string -> bool)
  (g : list PostRenderer.GalleryImage) (k : nat) :
  List.length (PostRenderer.checkAll check k g) = List.length g.
Proof.
  revert k. induction g as [|x g IH]; intros k; cbn; [reflexivity|].
  now rewrite IH.
Qed.

Lemma loaded_after_preload (check : nat -> string -> bool)
  (g : list PostRenderer.GalleryImage) (st : PostRenderer.t) :
  PostRenderer.loadedGalleryImages
    (PostRenderer.preloadGalleryImages check
       (PostRenderer.set_galleryImages g st))
  = map (fun r => PostRenderer.substitute (PostRenderer.placeholderImage st)
                    (fst r) (snd r))
      (PostRenderer.checkAll check 0 g).
Proof.
  unfold PostRenderer.preloadGalleryImages.
  cbn [PostRenderer.set_galleryImages PostRenderer.galleryImages].
  destruct g; reflexivity.
Qed.

(** X15.  The preloader keeps one entry per gallery image, in order: an
    image whose check succeeds is kept as it is; one whose check fails is
    replaced by an entry that points to the placeholder image, is flagged
    as a placeholder, keeps the caption and has an alternative text (its
    own, or a default one). *)
Theorem preload_keeps_every_position
  (check : nat -> string -> bool) (g : list PostRenderer.GalleryImage)
  (st : PostRenderer.t) :
  let st' :=
    PostRenderer.preloadGalleryImages check
      (PostRenderer.set_galleryImages g st) in
  List.length (PostRenderer.loadedGalleryImages st') = List.length g
  /\ forall i img,
       nth_error g i = Some img ->
       (check i (PostRenderer.src img) = true ->
        nth_error (PostRenderer.loadedGalleryImages st') i = Some img)
       /\ (check i (PostRenderer.src img) = false ->
           exists img',
             nth_error (PostRenderer.loadedGalleryImages st') i = Some img'
             /\ PostRenderer.src img' = PostRenderer.placeholderImage st
             /\ PostRenderer.isPlaceholder img' = true
             /\ PostRenderer.caption img' = PostRenderer.caption img
             /\ exists a, PostRenderer.alt img' = Some a /\ a <> "").
Proof.
  intros st'. unfold st'. rewrite loaded_after_preload.
  split; [now rewrite length_map, checkAll_length|].
  intros i img Hi.
  assert (E : nth_error
                (map (fun r => PostRenderer.substitute
                                 (PostRenderer.placeholderImage st)
                                 (fst r) (snd r))
                   (PostRenderer.checkAll check 0 g)) i
              = Some (PostRenderer.substitute
                        (PostRenderer.placeholderImage st) img
                        (check i (PostRenderer.src img)))).
  { rewrite nth_error_map, checkAll_nth, Hi. reflexivity. }
  rewrite E. split; intros Hc; rewrite Hc; cbn [PostRenderer.substitute].
  - reflexivity.
  - eexists. split; [reflexivity|]. cbn. repeat split.
    destruct (PostRenderer.alt img) as [[|c a]|]; eexists;
      (split; [reflexivity | discriminate]).
Qed.

Lemma preload_keeps_every_position_witness :
  nth_error (PostRenderer.loadedGalleryImages Scenario.preloaded) 0
  = Some (Scenario.image "img/1.png")
  /\ exists img',
       nth_error (PostRenderer.loadedGalleryImages Scenario.preloaded) 1
       = Some img'
       /\ PostRenderer.src img' = "/img/placeholder.png"
       /\ PostRenderer.isPlaceholder img' = true.
Proof.
  destruct (preload_keeps_every_position Scenario.check Scenario.gallery
              PostRenderer.new) as [_ H].
  split.
  - apply (proj1 (H 0%nat (Scenario.image "img/1.png") eq_refl)). reflexivity.
  - destruct (proj2 (H 1%nat (Scenario.image "img/2.png") eq_refl) eq_refl)
      as (img' & E & Hs & Hp & _).
    exists img'. repeat split; assumption.
Defined.

(** ** postRenderer.js: moving through the viewer *)

Lemma rem_next (i n : Z) :
  (0 <= i < n)%Z ->
  Z.rem (i + 1) n = (if (i + 1 <? n)%Z then i + 1 else 0)%Z.
Proof.
  intros H. destruct (Z.ltb_spec (i + 1) n) as [L|L].
  - apply Z.rem_small. lia.
  - replace (i + 1)%Z with n by lia. apply Z.rem_same. lia.
Qed.

Lemma rem_previous (i n : Z) :
  (0 <= i < n)%Z ->
  Z.rem (i - 1 + n) n = (if (i =? 0)%Z then n - 1 else i - 1)%Z.
Proof.
  intros H. rewrite Z.rem_mod_nonneg by lia.
  destruct (Z.eqb_spec i 0) as [->|Hne].
  - replace (0 - 1 + n)%Z with (n - 1)%Z by lia. apply Z.mod_small. lia.
  - replace (i - 1 + n)%Z with ((i - 1) + 1 * n)%Z by lia.
    rewrite Z.mod_add by lia. apply Z.mod_small. lia.
Qed.

Lemma wrap_inverse (i n : Z) :
  (0 <= i < n)%Z ->
  (if ((if i + 1 <? n then i + 1 else 0) =? 0)%Z then n - 1
   else (if i + 1 <? n then i + 1 else 0) - 1)%Z = i
  /\ (if ((if i =? 0 then n - 1 else i - 1) + 1 <? n)%Z
      then (if i =? 0 then n - 1 else i - 1) + 1 else 0)%Z = i.
Proof.
  intros H. split.
  - destruct (Z.ltb_spec (i + 1) n).
    + destruct (Z.eqb_spec (i + 1) 0); lia.
    + destruct (Z.eqb_spec 0 0); lia.
  - destruct (Z.eqb_spec i 0).
    + destruct (Z.ltb_spec (n - 1 + 1) n); lia.
    + destruct (Z.ltb_spec (i - 1 + 1) n); lia.
Qed.

Lemma updateGalleryDisplay_shows (st : PostRenderer.t)
  (img : PostRenderer.GalleryImage) :
  PostRenderer.arrayGet (PostRenderer.currentGalleryImages st)
    (PostRenderer.currentImageIndex st) = Some img ->
  exists st',
    PostRenderer.updateGalleryDisplay st = Some st'
    /\ PostRenderer.currentGalleryImages st'
       = PostRenderer.currentGalleryImages st
    /\ PostRenderer.currentImageIndex st' = PostRenderer.currentImageIndex st
    /\ PostRenderer.galleryImg st' = Some img
    /\ PostRenderer.modalHidden st' = PostRenderer.modalHidden st
    /\ PostRenderer.loadedGalleryImages st'
       = PostRenderer.loadedGalleryImages st.
Proof.
  intros E. unfold PostRenderer.updateGalleryDisplay. rewrite E.
  destruct (PostRenderer.currentGalleryImages st) as [|x v] eqn:Ev.
  - exfalso. unfold PostRenderer.arrayGet in E.
    destruct (_ <? 0)%Z; [discriminate E|].
    destruct (Z.to_nat _); discriminate E.
  - eexists. split; [reflexivity|]. cbn. repeat split; reflexivity.
Qed.

(** A navigation request inside the navigable set: the new index and the
    image shown. *)
Lemma navigate_step (o : PostRenderer.Nav) (st : PostRenderer.t) :
  let v := PostRenderer.currentGalleryImages st in
  let i := PostRenderer.currentImageIndex st in
  let n := PostRenderer.len v in
  (0 <= i < n)%Z ->
  let i' := match o with
            | PostRenderer.Next => (if (i + 1 <? n) then i + 1 else 0)%Z
            | PostRenderer.Previous => (if (i =? 0) then n - 1 else i - 1)%Z
            end in
  exists st',
    PostRenderer.navigate o st = Some st'
    /\ PostRenderer.currentGalleryImages st' = v
    /\ PostRenderer.currentImageIndex st' = i'
    /\ (0 <= i' < n)%Z
    /\ PostRenderer.galleryImg st' = PostRenderer.arrayGet v i'
    /\ PostRenderer.modalHidden st' = PostRenderer.modalHidden st
    /\ PostRenderer.loadedGalleryImages st'
       = PostRenderer.loadedGalleryImages st.
Proof.
  intros v i n Hi i'.
  assert (Hi' : (0 <= i' < n)%Z).
  { unfold i'. destruct o.
    - destruct (Z.ltb_spec (i + 1) n); lia.
    - destruct (Z.eqb_spec i 0); lia. }
  assert (Hrem : match o with
                 | PostRenderer.Next => Z.rem (i + 1) n
                 | PostRenderer.Previous => Z.rem (i - 1 + n) n
                 end = i').
  { unfold i'. destruct o; [now apply rem_next | now apply rem_previous]. }
  destruct (arrayGet_in_range v i' Hi') as (img & Eg & _).
  assert (Enav : PostRenderer.navigate o st
                 = PostRenderer.updateGalleryDisplay
                     (PostRenderer.set_currentImageIndex i' st)).
  { rewrite <- Hrem.
    destruct o; cbn [PostRenderer.navigate];
      unfold PostRenderer.nextImage, PostRenderer.previousImage;
      fold v; fold i; fold n; unfold n;
      (destruct v as [|x v']; [|reflexivity]);
      cbn in Hi; lia. }
  destruct (updateGalleryDisplay_shows
              (PostRenderer.set_currentImageIndex i' st) img Eg)
    as (st' & E & Hv & Hidx & Hg & Hm & Hl).
  exists st'. rewrite Enav. split; [exact E|].
  split; [exact Hv|]. split; [exact Hidx|]. split; [exact Hi'|].
  split; [now rewrite Hg, Eg|]. split; [exact Hm | exact Hl].
Qed.

(** X16.  In the viewer, next and previous undo each other: from any index
    inside the navigable set, next followed by previous, and previous
    followed by next, come back to the same index and show the image of
    that index. *)
Theorem next_and_previous_are_inverse (st : PostRenderer.t) :
  let v := PostRenderer.currentGalleryImages st in
  let i := PostRenderer.currentImageIndex st in
  (0 <= i < PostRenderer.len v)%Z ->
  forall o1 o2,
    o1 <> o2 ->
    exists st1 st2,
      PostRenderer.navigate o1 st = Some st1
      /\ PostRenderer.navigate o2 st1 = Some st2
      /\ PostRenderer.currentGalleryImages st2 = v
      /\ PostRenderer.currentImageIndex st2 = i
      /\ PostRenderer.galleryImg st2 = PostRenderer.arrayGet v i.
Proof.
  intros v i Hi o1 o2 Hne.
  destruct (navigate_step o1 st Hi) as (st1 & E1 & V1 & I1 & R1 & _).
  fold v in V1. fold i in I1, R1.
  assert (R1' : (0 <= PostRenderer.currentImageIndex st1
                 < PostRenderer.len (PostRenderer.currentGalleryImages st1))%Z)
    by (rewrite V1, I1; exact R1).
  destruct (navigate_step o2 st1 R1') as (st2 & E2 & V2 & I2 & _ & G2 & _).
  exists st1, st2. rewrite V1 in V2, I2, G2. rewrite I1 in I2, G2.
  assert (Ei : PostRenderer.currentImageIndex st2 = i).
  { rewrite I2. destruct o1, o2; try congruence.
    - exact (proj1 (wrap_inverse i (PostRenderer.len v) Hi)).
    - exact (proj2 (wrap_inverse i (PostRenderer.len v) Hi)). }
  repeat split; auto. rewrite G2, <- I2, Ei. reflexivity.
Qed.

Lemma next_and_previous_are_inverse_witness :
  exists st0 st1 st2,
    PostRenderer.openGallery 3 Examples.allLoaded = Some st0
    /\ PostRenderer.navigate PostRenderer.Next st0 = Some st1
    /\ PostRenderer.navigate PostRenderer.Previous st1 = Some st2
    /\ PostRenderer.currentImageIndex st1 = 0%Z
    /\ PostRenderer.currentImageIndex st2 = 3%Z
    /\ PostRenderer.galleryImg st2 = Some (Scenario.image "img/4.png").
Proof.
  eexists. 
  assert (E0 : PostRenderer.openGallery 3 Examples.allLoaded
               = Some (match PostRenderer.openGallery 3 Examples.allLoaded with
                       | Some s => s
                       | None => Examples.allLoaded
                       end)) by (vm_compute; reflexivity).
  set (st0 := match PostRenderer.openGallery 3 Examples.allLoaded with
              | Some s => s
              | None => Examples.allLoaded
              end) in *.
  assert (R : (0 <= PostRenderer.currentImageIndex st0
               < PostRenderer.len (PostRenderer.currentGalleryImages st0))%Z)
    by (vm_compute; split; [discriminate | reflexivity]).
  destruct (next_and_previous_are_inverse st0 R PostRenderer.Next
              PostRenderer.Previous ltac:(discriminate))
    as (st1 & st2 & E1 & E2 & _ & I2 & G2).
  exists st1, st2. split; [exact E0|]. split; [exact E1|]. split; [exact E2|].
  split.
  - destruct (navigate_step PostRenderer.Next st0 R) as (s & Es & _ & Is & _).
    rewrite E1 in Es. injection Es as <-. exact Is.
  - split; [exact I2 | exact G2].
Defined.

Lemma full_turn (i n : Z) :
  (0 <= i < n)%Z ->
  forall d, d = 1%Z \/ d = (-1)%Z -> ((i + n * d) mod n)%Z = i.
Proof.
  intros H d Hd. replace (i + n * d)%Z with (i + d * n)%Z by lia.
  rewrite Z.mod_add by lia. now apply Z.mod_small.
Qed.

Lemma navigate_mod (o : PostRenderer.Nav) (st : PostRenderer.t) :
  let v := PostRenderer.currentGalleryImages st in
  let i := PostRenderer.currentImageIndex st in
  let n := PostRenderer.len v in
  (0 <= i < n)%Z ->
  exists st',
    PostRenderer.navigate o st = Some st'
    /\ PostRenderer.currentGalleryImages st' = v
    /\ PostRenderer.currentImageIndex st'
       = ((i + match o with
               | PostRenderer.Next => 1
               | PostRenderer.Previous => -1
               end) mod n)%Z
    /\ PostRenderer.galleryImg st'
       = PostRenderer.arrayGet v (PostRenderer.currentImageIndex st').
Proof.
  intros v i n Hi.
  destruct (navigate_step o st Hi) as (st' & E & Hv & Hidx & _ & Hg & _).
  exists st'. split; [exact E|]. split; [exact Hv|]. split.
  - rewrite Hidx. destruct o.
    + transitivity (Z.rem (i + 1) n);
        [symmetry; exact (rem_next i n Hi) | apply Z.rem_mod_nonneg; lia].
    + transitivity (Z.rem (i - 1 + n) n);
        [symmetry; exact (rem_previous i n Hi)|].
      rewrite Z.rem_mod_nonneg by lia.
      replace (i - 1 + n)%Z with (i + -1 + 1 * n)%Z by lia.
      apply Z.mod_add. lia.
  - now rewrite Hidx.
Qed.

Lemma repeatNav_mod (o : PostRenderer.Nav) (k : nat) :
  forall st : PostRenderer.t,
    let v := PostRenderer.currentGalleryImages st in
    let i := PostRenderer.currentImageIndex st in
    let n := PostRenderer.len v in
    (0 <= i < n)%Z ->
    exists st',
      Gallery.repeatNav o k st = Some st'
      /\ PostRenderer.currentGalleryImages st' = v
      /\ PostRenderer.currentImageIndex st'
         = ((i + Z.of_nat k * match o with
                              | PostRenderer.Next => 1
                              | PostRenderer.Previous => -1
                              end) mod n)%Z.
Proof.
  induction k as [|k IH]; intros st v i n Hi.
  - exists st. split; [reflexivity|]. split; [reflexivity|].
    rewrite Z.mul_0_l, Z.add_0_r. symmetry. apply Z.mod_small. exact Hi.
  - destruct (navigate_mod o st Hi) as (st1 & E1 & V1 & I1 & _).
    fold v in V1. fold i n in I1.
    assert (R1 : (0 <= PostRenderer.currentImageIndex st1
                  < PostRenderer.len (PostRenderer.currentGalleryImages st1))%Z).
    { rewrite V1, I1. apply Z.mod_pos_bound. unfold n in *. lia. }
    destruct (IH st1 R1) as (st' & E & V & I).
    exists st'. cbn [Gallery.repeatNav]. rewrite E1.
    split; [exact E|]. split; [now rewrite V, V1|].
    rewrite I, V1, I1. fold n.
    rewrite Z.add_mod_idemp_l by (unfold n in *; lia).
    f_equal. lia.
Qed.

(** X17.  The viewer wraps at both ends and goes round: next on the last
    image shows the first one, previous on the first image shows the last
    one, and as many next (or previous) requests as there are images come
    back to the image they started from. *)
Theorem viewer_wraps_around (st : PostRenderer.t) :
  let v := PostRenderer.currentGalleryImages st in
  let i := PostRenderer.currentImageIndex st in
  let n := PostRenderer.len v in
  (0 <= i < n)%Z ->
  (i = (n - 1)%Z ->
   exists st',
     PostRenderer.nextImage st = Some st'
     /\ PostRenderer.currentImageIndex st' = 0%Z
     /\ PostRenderer.galleryImg st' = nth_error v 0)
  /\ (i = 0%Z ->
      exists st',
        PostRenderer.previousImage st = Some st'
        /\ PostRenderer.currentImageIndex st' = (n - 1)%Z
        /\ PostRenderer.galleryImg st' = nth_error v (List.length v - 1))
  /\ (forall o,
        exists st',
          Gallery.repeatNav o (List.length v) st = Some st'
          /\ PostRenderer.currentGalleryImages st' = v
          /\ PostRenderer.currentImageIndex st' = i).
Proof.
  intros v i n Hi. split; [|split].
  - intros Hlast.
    destruct (navigate_step PostRenderer.Next st Hi)
      as (st' & E & _ & Hidx & _ & Hg & _).
    fold v i n in Hidx, Hg.
    assert (Z0 : (if (i + 1 <? n)%Z then (i + 1)%Z else 0%Z) = 0%Z)
      by (destruct (Z.ltb_spec (i + 1) n); lia).
    rewrite Z0 in Hidx, Hg.
    exists st'. split; [exact E|]. split; [exact Hidx | exact Hg].
  - intros Hfirst.
    destruct (navigate_step PostRenderer.Previous st Hi)
      as (st' & E & _ & Hidx & _ & Hg & _).
    fold v i n in Hidx, Hg.
    assert (Z0 : (if (i =? 0)%Z then (n - 1)%Z else (i - 1)%Z) = (n - 1)%Z)
      by (destruct (Z.eqb_spec i 0); lia).
    rewrite Z0 in Hidx, Hg.
    exists st'. split; [exact E|]. split; [exact Hidx|].
    rewrite Hg. unfold PostRenderer.arrayGet.
    destruct (Z.ltb_spec (n - 1) 0); [lia|].
    f_equal. unfold n, PostRenderer.len. lia.
  - intros o.
    destruct (repeatNav_mod o (List.length v) st Hi) as (st' & E & V & I).
    exists st'. split; [exact E|]. split; [exact V|].
    rewrite I. destruct o; apply (full_turn i n Hi); auto.
Qed.

Lemma viewer_wraps_around_witness :
  exists st0 st1 st2,
    PostRenderer.openGallery 0 Examples.allLoaded = Some st0
    /\ PostRenderer.previousImage st0 = Some st1
    /\ PostRenderer.galleryImg st1 = Some (Scenario.image "img/4.png")
    /\ Gallery.repeatNav PostRenderer.Next 4 st0 = Some st2
    /\ PostRenderer.currentImageIndex st2 = 0%Z.
Proof.
  assert (E0 : PostRenderer.openGallery 0 Examples.allLoaded
               = Some (match PostRenderer.openGallery 0 Examples.allLoaded with
                       | Some s => s
                       | None => Examples.allLoaded
                       end)) by (vm_compute; reflexivity).
  set (st0 := match PostRenderer.openGallery 0 Examples.allLoaded with
              | Some s => s
              | None => Examples.allLoaded
              end) in *.
  assert (R : (0 <= PostRenderer.currentImageIndex st0
               < PostRenderer.len (PostRenderer.currentGalleryImages st0))%Z)
    by (vm_compute; split; [discriminate | reflexivity]).
  destruct (viewer_wraps_around st0 R) as (_ & P & C).
  destruct (P eq_refl) as (st1 & E1 & _ & G1).
  destruct (C PostRenderer.Next) as (st2 & E2 & _ & I2).
  exists st0, st1, st2. split; [exact E0|]. split; [exact E1|].
  split; [exact G1|]. split; [exact E2 | exact I2].
Defined.

(** Where [openGallery] lands. *)
Lemma openGallery_lands (startIndex : Z) (st : PostRenderer.t) :
  let v := PostRenderer.viewableImages st in
  let n := PostRenderer.len v in
  v <> [] ->
  exists st',
    PostRenderer.openGallery startIndex st = Some st'
    /\ PostRenderer.modalHidden st' = false
    /\ PostRenderer.currentGalleryImages st' = v
    /\ PostRenderer.currentImageIndex st'
       = (if startIndex <? 0 then 0
          else if startIndex <? n then startIndex else n - 1)%Z
    /\ PostRenderer.galleryImg st'
       = nth_error v (Z.to_nat (PostRenderer.currentImageIndex st'))
    /\ PostRenderer.galleryImg st' <> None.
Proof.
  intros v n Hne.
  pose proof (len_pos v Hne) as Hn. fold n in Hn.
  set (i' := (if startIndex <? 0 then 0
              else if startIndex <? n then startIndex else n - 1)%Z).
  assert (Hc : Z.max 0 (Z.min startIndex (n - 1)) = i').
  { unfold i'. destruct (Z.ltb_spec startIndex 0);
      [|destruct (Z.ltb_spec startIndex n)]; lia. }
  assert (Hi' : (0 <= i' < n)%Z) by lia.
  destruct (arrayGet_in_range v i' Hi') as (img & Eg & _).
  set (st0 := {| PostRenderer.galleryImages := PostRenderer.galleryImages st;
                 PostRenderer.loadedGalleryImages :=
                   PostRenderer.loadedGalleryImages st;
                 PostRenderer.currentGalleryImages := v;
                 PostRenderer.currentImageIndex := i';
                 PostRenderer.placeholderImage :=
                   PostRenderer.placeholderImage st;
                 PostRenderer.modalHidden := false;
                 PostRenderer.galleryImg := PostRenderer.galleryImg st |}).
  assert (Eo : PostRenderer.openGallery startIndex st
               = PostRenderer.updateGalleryDisplay st0).
  { unfold st0. rewrite <- Hc. unfold PostRenderer.openGallery. fold v.
    unfold n. destruct v; [congruence | reflexivity]. }
  destruct (updateGalleryDisplay_shows st0 img Eg)
    as (st' & E & Hv & Hidx & Hg & Hm & _).
  cbn [PostRenderer.currentGalleryImages PostRenderer.currentImageIndex
       PostRenderer.modalHidden] in Hv, Hidx, Hm.
  exists st'. rewrite Eo. split; [exact E|]. split; [exact Hm|].
  split; [exact Hv|]. split; [exact Hidx|]. split.
  - rewrite Hg, Hidx, <- Eg. unfold PostRenderer.arrayGet.
    destruct (Z.ltb_spec i' 0); [lia | reflexivity].
  - rewrite Hg. discriminate.
Qed.

(** X18.  [openGallery] brings any start index into the navigable set: a
    negative index opens the viewer on the first viewable image, an index
    past the end on the last one, any other index on the image of that
    index; the modal is shown and no error is raised. *)
Theorem openGallery_clamps_the_index (startIndex : Z) (st : PostRenderer.t) :
  let v := PostRenderer.viewableImages st in
  let n := PostRenderer.len v in
  v <> [] ->
  exists st',
    PostRenderer.openGallery startIndex st = Some st'
    /\ PostRenderer.modalHidden st' = false
    /\ PostRenderer.currentGalleryImages st' = v
    /\ PostRenderer.currentImageIndex st'
       = (if startIndex <? 0 then 0
          else if startIndex <? n then startIndex else n - 1)%Z
    /\ PostRenderer.galleryImg st'
       = nth_error v (Z.to_nat (PostRenderer.currentImageIndex st'))
    /\ PostRenderer.galleryImg st' <> None.
Proof. exact (openGallery_lands startIndex st). Qed.

Lemma openGallery_clamps_the_index_witness :
  exists st',
    PostRenderer.openGallery 99 Scenario.preloaded = Some st'
    /\ PostRenderer.currentImageIndex st' = 1%Z
    /\ PostRenderer.galleryImg st' = Some (Scenario.image "img/3.png").
Proof.
  destruct (openGallery_clamps_the_index 99 Scenario.preloaded)
    as (st' & E & _ & _ & I & G & _).
  - vm_compute. discriminate.
  - exists st'. split; [exact E|]. split; [exact I|].
    rewrite G, I. reflexivity.
Defined.

(** ** postRenderer.js: the inline gallery *)

Lemma nth_error_firstn_lt {A : Type} (n i : nat) (l : list A) :
  (i < n)%nat -> nth_error (firstn n l) i = nth_error l i.
Proof.
  revert i l. induction n as [|n IH]; intros i l H; [lia|].
  destruct l as [|x l]; [now destruct i|].
  destruct i as [|i]; [reflexivity|]. cbn. apply IH. lia.
Qed.

Lemma nth_error_filter_prefix {A : Type} (P : A -> bool) (l : list A) :
  forall i x,
    nth_error l i = Some x ->
    (forall j y, (j <= i)%nat -> nth_error l j = Some y -> P y = true) ->
    nth_error (filter P l) i = Some x.
Proof.
  induction l as [|a l IH]; intros i x Hi Hp; [now destruct i|].
  cbn [filter]. rewrite (Hp 0%nat a (Nat.le_0_l i) eq_refl).
  destruct i as [|i]; [exact Hi|].
  cbn [nth_error] in *. apply IH; [exact Hi|].
  intros j y Hj Hy. apply (Hp (S j) y); [lia | exact Hy].
Qed.

(** X19.  A click on an inline gallery image opens the viewer on that very
    image when no failed image stands before it; a click on a placeholder
    does nothing. *)
Theorem inline_click_opens_the_image
  (idx : nat) (img : PostRenderer.GalleryImage) (st : PostRenderer.t) :
  (idx < 3)%nat ->
  nth_error (PostRenderer.loadedGalleryImages st) idx = Some img ->
  ((forall j x, (j <= idx)%nat ->
                nth_error (PostRenderer.loadedGalleryImages st) j = Some x ->
                PostRenderer.isPlaceholder x = false) ->
   exists st',
     Gallery.click (Gallery.Inline idx) st = Some st'
     /\ PostRenderer.modalHidden st' = false
     /\ PostRenderer.currentImageIndex st' = Z.of_nat idx
     /\ PostRenderer.galleryImg st' = Some img)
  /\ (PostRenderer.isPlaceholder img = true ->
      Gallery.click (Gallery.Inline idx) st = Some st).
Proof.
  intros Hidx Hnth.
  assert (Hd : nth_error (Gallery.displayImages st) idx = Some img)
    by (unfold Gallery.displayImages; now rewrite nth_error_firstn_lt).
  split.
  - intros Hp.
    assert (Hv : nth_error (PostRenderer.viewableImages st) idx = Some img).
    { unfold PostRenderer.viewableImages.
      apply nth_error_filter_prefix; [exact Hnth|].
      intros j y Hj Hy. now rewrite (Hp j y Hj Hy). }
    assert (Hlen : (idx < List.length (PostRenderer.viewableImages st))%nat)
      by (apply nth_error_Some; congruence).
    assert (Hne : PostRenderer.viewableImages st <> [])
      by (intros E; rewrite E in Hlen; cbn in Hlen; lia).
    destruct (openGallery_lands (Z.of_nat idx) st Hne)
      as (st' & E & Hm & _ & Hi & Hg & _).
    assert (Hi' : PostRenderer.currentImageIndex st' = Z.of_nat idx).
    { rewrite Hi. unfold PostRenderer.len.
      destruct (Z.ltb_spec (Z.of_nat idx) 0); [lia|].
      destruct (Z.ltb_spec (Z.of_nat idx)
                  (Z.of_nat (List.length (PostRenderer.viewableImages st))));
        [reflexivity | lia]. }
    exists st'. unfold Gallery.click. rewrite Hd.
    rewrite (Hp idx img (Nat.le_refl idx) Hnth).
    split; [exact E|]. split; [exact Hm|]. split; [exact Hi'|].
    now rewrite Hg, Hi', Nat2Z.id.
  - intros Hp. unfold Gallery.click. now rewrite Hd, Hp.
Qed.

Lemma inline_click_opens_the_image_witness :
  (exists st',
      Gallery.click (Gallery.Inline 0) Scenario.preloaded = Some st'
      /\ PostRenderer.galleryImg st' = Some (Scenario.image "img/1.png"))
  /\ Gallery.click (Gallery.Inline 1) Scenario.preloaded
     = Some Scenario.preloaded.
Proof.
  split.
  - destruct (proj1 (inline_click_opens_the_image 0
                       (Scenario.image "img/1.png") Scenario.preloaded
                       ltac:(lia) eq_refl))
      as (st' & E & _ & _ & G).
    + intros j x Hj. replace j with 0%nat by lia.
      intros Hx. injection Hx as <-. reflexivity.
    + exists st'. split; [exact E | exact G].
  - assert (E : exists img,
               nth_error (PostRenderer.loadedGalleryImages Scenario.preloaded) 1
               = Some img /\ PostRenderer.isPlaceholder img = true)
      by (eexists; split; vm_compute; reflexivity).
    destruct E as (img & E1 & E2).
    exact (proj2 (inline_click_opens_the_image 1 img Scenario.preloaded
                    ltac:(lia) E1) E2).
Defined.

(** The hypothesis of X19 is needed: with a failed image before it, the
    index of the clicked item is not its index among the viewable images,
    and the viewer opens on another image. *)
Example inline_click_after_a_failed_image :
  exists st',
    Gallery.click (Gallery.Inline 2) Scenario.preloaded = Some st'
    /\ nth_error (PostRenderer.loadedGalleryImages Scenario.preloaded) 2
       = Some (Scenario.image "img/3.png")
    /\ PostRenderer.currentImageIndex st' = 1%Z.
Proof. eexists. repeat split. Qed.

Lemma all_failed_are_placeholders (check : nat -> string -> bool)
  (ph : string) (g : list PostRenderer.GalleryImage) :
  forall k,
    (forall i img, nth_error g i = Some img ->
                   check (k + i)%nat (PostRenderer.src img) = false) ->
    Forall (fun x => PostRenderer.isPlaceholder x = true)
      (map (fun r => PostRenderer.substitute ph (fst r) (snd r))
         (PostRenderer.checkAll check k g)).
Proof.
  induction g as [|x g IH]; intros k H; [constructor|].
  cbn [PostRenderer.checkAll map fst snd]. constructor.
  - specialize (H 0%nat x eq_refl). rewrite Nat.add_0_r in H.
    now rewrite H.
  - apply IH. intros i img Hi.
    rewrite Nat.add_succ_comm. now apply (H (S i)).
Qed.

(** X20.  When no image of a gallery loads, nothing opens the viewer:
    after the preloading every entry is a placeholder, [openGallery]
    returns at once whatever the index, and a click on any item of the
    inline gallery leaves the renderer as it is. *)
Theorem nothing_opens_without_a_loaded_image
  (check : nat -> string -> bool) (g : list PostRenderer.GalleryImage)
  (st : PostRenderer.t) :
  (forall i img, nth_error g i = Some img ->
                 check i (PostRenderer.src img) = false) ->
  let st1 :=
    PostRenderer.preloadGalleryImages check
      (PostRenderer.set_galleryImages g st) in
  PostRenderer.viewableImages st1 = []
  /\ (forall startIndex, PostRenderer.openGallery startIndex st1 = Some st1)
  /\ (forall item, Gallery.click item st1 = Some st1)
  /\ PostRenderer.modalHidden st1 = PostRenderer.modalHidden st.
Proof.
  intros Hc st1.
  assert (Hall : Forall (fun x => PostRenderer.isPlaceholder x = true)
                   (PostRenderer.loadedGalleryImages st1)).
  { unfold st1. rewrite loaded_after_preload.
    apply all_failed_are_placeholders. exact Hc. }
  assert (Hv : PostRenderer.viewableImages st1 = []).
  { unfold PostRenderer.viewableImages.
    induction Hall as [|x l Hx _ IH]; [reflexivity|].
    cbn [filter]. now rewrite Hx. }
  assert (Ho : forall s, PostRenderer.openGallery s st1 = Some st1)
    by (intros s; unfold PostRenderer.openGallery; now rewrite Hv).
  split; [exact Hv|]. split; [exact Ho|]. split.
  - intros [idx|]; unfold Gallery.click.
    + destruct (nth_error (Gallery.displayImages st1) idx) as [img|] eqn:E;
        [|reflexivity].
      assert (Hin : In img (PostRenderer.loadedGalleryImages st1)).
      { unfold Gallery.displayImages in E.
        assert (Hlt : (idx < 3)%nat).
        { assert (L : (idx < List.length
                               (firstn 3 (PostRenderer.loadedGalleryImages st1)))%nat)
            by (apply nth_error_Some; congruence).
          rewrite length_firstn in L. lia. }
        rewrite nth_error_firstn_lt in E by exact Hlt.
        now apply nth_error_In in E. }
      rewrite Forall_forall in Hall. now rewrite (Hall img Hin).
    + destruct (Gallery.hasMore st1); [apply Ho | reflexivity].
  - unfold st1, PostRenderer.preloadGalleryImages.
    cbn [PostRenderer.set_galleryImages PostRenderer.galleryImages].
    destruct g; reflexivity.
Qed.

Lemma nothing_opens_without_a_loaded_image_witness :
  let st1 :=
    PostRenderer.preloadGalleryImages (fun _ _ => false)
      (PostRenderer.set_galleryImages Examples.gallery4 PostRenderer.new) in
  PostRenderer.viewableImages st1 = []
  /\ Gallery.click Gallery.ShowAll st1 = Some st1
  /\ PostRenderer.modalHidden st1 = true.
Proof.
  intros st1.
  destruct (nothing_opens_without_a_loaded_image (fun _ _ => false)
              Examples.gallery4 PostRenderer.new (fun _ _ _ => eq_refl))
    as (H1 & _ & H3 & H4).
  split; [exact H1|]. split; [apply H3 | exact H4].
Defined.

(** ** postRenderer.js: escaping *)

Lemma includes_unit_append (a b : string) (c : ascii) :
  JS.includes (a +++ b) (String c "")
  = JS.includes a (String c "") || JS.includes b (String c "").
Proof.
  induction a as [|x a IH].
  - cbn [String.append JS.includes JS.startsWith]. reflexivity.
  - cbn [String.append JS.includes JS.startsWith]. rewrite IH.
    now rewrite orb_assoc.
Qed.

Lemma escapeUnit_no_bracket (c : ascii) :
  JS.includes (Gallery.escapeUnit c) "<" = false
  /\ JS.includes (Gallery.escapeUnit c) ">" = false.
Proof.
  destruct c as [[] [] [] [] [] [] [] []]; split; reflexivity.
Qed.

Lemma unescapeUnit_escapeUnit (c : ascii) (r : string) :
  Gallery.unescapeUnit (Gallery.escapeUnit c +++ r) = Some (c, r).
Proof.
  destruct c as [[] [] [] [] [] [] [] []]; reflexivity.
Qed.

(** X21.  [escapeHtml] leaves no angle bracket in its result, so escaped
    text cannot open or close a tag; and it loses nothing: two different
    texts never have the same escaped form. *)
Theorem escapeHtml_closes_no_tag :
  (forall text,
      JS.includes (Gallery.escapeHtml text) "<" = false
      /\ JS.includes (Gallery.escapeHtml text) ">" = false)
  /\ (forall a b, Gallery.escapeHtml a = Gallery.escapeHtml b -> a = b).
Proof.
  split.
  - induction text as [|c text [IH1 IH2]]; [split; reflexivity|].
    cbn [Gallery.escapeHtml]. rewrite !includes_unit_append, IH1, IH2.
    destruct (escapeUnit_no_bracket c) as [-> ->]. split; reflexivity.
  - induction a as [|c a IH]; intros [|d b] H; cbn [Gallery.escapeHtml] in H.
    + reflexivity.
    + apply (f_equal Gallery.unescapeUnit) in H.
      rewrite unescapeUnit_escapeUnit in H. discriminate H.
    + apply (f_equal Gallery.unescapeUnit) in H.
      rewrite unescapeUnit_escapeUnit in H. discriminate H.
    + apply (f_equal Gallery.unescapeUnit) in H.
      rewrite !unescapeUnit_escapeUnit in H. injection H as -> H.
      f_equal. now apply IH.
Qed.

Lemma escapeHtml_closes_no_tag_witness :
  JS.includes (Gallery.escapeHtml "<b>bold</b>") "<" = false
  /\ Gallery.escapeHtml "<" <> Gallery.escapeHtml "&lt;".
Proof.
  split.
  - exact (proj1 (proj1 escapeHtml_closes_no_tag "<b>bold</b>")).
  - intros H. apply (proj2 escapeHtml_closes_no_tag) in H. discriminate H.
Defined.

(** X22.  [escapeHtml] touches nothing but the ampersand, the two angle
    brackets and the no-break space: a text free of them, quotation marks
    included, comes back unchanged, so a quotation mark in a title or an
    alternative text reaches the attribute it is written into as it
    is. *)
Theorem escapeHtml_leaves_quotes (text : string) :
  (forall c, In c (list_ascii_of_string text) ->
             c <> "&"%char /\ c <> "<"%char /\ c <> ">"%char
             /\ c <> "160"%char) ->
  Gallery.escapeHtml text = text.
Proof.
  induction text as [|c text IH]; intros H; [reflexivity|].
  cbn [Gallery.escapeHtml].
  rewrite IH by (intros x Hx; apply H; now right).
  destruct (H c (or_introl eq_refl)) as (H1 & H2 & H3 & H4).
  unfold Gallery.escapeUnit.
  apply Ascii.eqb_neq in H1, H2, H3, H4. now rewrite H1, H2, H3, H4.
Qed.

Lemma escapeHtml_leaves_quotes_witness :
  Gallery.escapeHtml (String JS.dquote " onload='x'")
  = String JS.dquote " onload='x'".
Proof.
  apply escapeHtml_leaves_quotes.
  intros c Hc. cbn in Hc.
  repeat (destruct Hc as [<-|Hc];
          [repeat split; discriminate|]).
  destruct Hc.
Defined.

(** ** timeline.js: the order of the entries *)

Lemma monthOrder_cases (m : string) :
  (exists n, TimelineRenderer.monthOrder m = JS.Num n /\ (0 <= n <= 12)%Z)
  \/ (TimelineRenderer.monthOrder m = JS.NaN
      /\ TimelineRenderer.inherited m = true).
Proof.
  unfold TimelineRenderer.monthOrder.
  repeat match goal with
         | |- context [if String.eqb m ?x then _ else _] =>
             destruct (String.eqb m x);
             [left; eexists; split; [reflexivity | lia]|]
         end.
  destruct (TimelineRenderer.inherited m);
    [right; now split | left; eexists; split; [reflexivity | lia]].
Qed.

Lemma monthOrder_number (m : string) :
  TimelineRenderer.inherited m = false ->
  TimelineRenderer.monthOrder m = JS.Num (TimelineOrder.monthNumber m)
  /\ (0 <= TimelineOrder.monthNumber m <= 12)%Z.
Proof.
  intros H. unfold TimelineOrder.monthNumber.
  destruct (monthOrder_cases m) as [(n & -> & Hn)|[_ H']];
    [now split | congruence].
Qed.

Section ShapeFacts.
Context {A : Type} (yearOf : A -> Z) (monthOf : A -> string).

Let named (a : A) : Prop := TimelineRenderer.inherited (monthOf a) = false.

Let key (a : A) : Z := (yearOf a * 13 + TimelineOrder.monthNumber (monthOf a))%Z.

Lemma descending_rank (x y : A) :
  named x -> named y ->
  JS.positive (TimelineOrder.descending yearOf monthOf x y)
  = (- key y <? - key x)%Z.
Proof.
  intros Hx Hy. unfold TimelineOrder.descending, key.
  destruct (monthOrder_number _ Hx) as [-> Bx].
  destruct (monthOrder_number _ Hy) as [-> By].
  destruct (Z.eqb_spec (yearOf y) (yearOf x)) as [E|E]; cbn.
  - rewrite E. destruct (Z.ltb_spec 0 (TimelineOrder.monthNumber (monthOf y)
                                        - TimelineOrder.monthNumber (monthOf x)));
      destruct (Z.ltb_spec
                  (- (yearOf x * 13 + TimelineOrder.monthNumber (monthOf y)))
                  (- (yearOf x * 13 + TimelineOrder.monthNumber (monthOf x))));
      try reflexivity; lia.
  - destruct (Z.ltb_spec 0 (yearOf y - yearOf x));
      destruct (Z.ltb_spec
                  (- (yearOf y * 13 + TimelineOrder.monthNumber (monthOf y)))
                  (- (yearOf x * 13 + TimelineOrder.monthNumber (monthOf x))));
      try reflexivity; lia.
Qed.

Lemma ascending_rank (x y : A) :
  named x -> named y ->
  JS.positive (TimelineOrder.ascending yearOf monthOf x y)
  = (key y <? key x)%Z.
Proof.
  intros Hx Hy. unfold TimelineOrder.ascending, key.
  destruct (monthOrder_number _ Hx) as [-> Bx].
  destruct (monthOrder_number _ Hy) as [-> By].
  destruct (Z.eqb_spec (yearOf x) (yearOf y)) as [E|E]; cbn.
  - rewrite E. destruct (Z.ltb_spec 0 (TimelineOrder.monthNumber (monthOf x)
                                        - TimelineOrder.monthNumber (monthOf y)));
      destruct (Z.ltb_spec
                  (yearOf y * 13 + TimelineOrder.monthNumber (monthOf y))
                  (yearOf y * 13 + TimelineOrder.monthNumber (monthOf x)));
      try reflexivity; lia.
  - destruct (Z.ltb_spec 0 (yearOf x - yearOf y));
      destruct (Z.ltb_spec
                  (yearOf y * 13 + TimelineOrder.monthNumber (monthOf y))
                  (yearOf x * 13 + TimelineOrder.monthNumber (monthOf x)));
      try reflexivity; lia.
Qed.

Lemma key_order (x y : A) :
  named x -> named y ->
  (key y <= key x)%Z
  <-> TimelineOrder.notBefore (yearOf x) (monthOf x) (yearOf y) (monthOf y).
Proof.
  intros Hx Hy. unfold key, TimelineOrder.notBefore.
  destruct (monthOrder_number _ Hx) as [_ Bx].
  destruct (monthOrder_number _ Hy) as [_ By]. lia.
Qed.

(** Later dates first: order and stability of the sort. *)
Lemma descending_sorted (l : list A) :
  Forall named l ->
  StronglySorted
    (fun a b =>
       TimelineOrder.notBefore (yearOf a) (monthOf a) (yearOf b) (monthOf b))
    (JS.sort (TimelineOrder.descending yearOf monthOf) l).
Proof.
  intros Hl.
  assert (Hs : Forall named (JS.sort (TimelineOrder.descending yearOf monthOf) l)).
  { rewrite Forall_forall in Hl |- *. intros a Ha. apply Hl.
    now apply sort_In in Ha. }
  assert (S : StronglySorted
                (fun a b => named a /\ named b /\ (key b <= key a)%Z)
                (JS.sort (TimelineOrder.descending yearOf monthOf) l)).
  { apply StronglySorted_weaken
      with (R := Spec.byRank
                   (fun a => if TimelineRenderer.inherited (monthOf a)
                             then None else Some (- key a)%Z)).
    - intros a b (ra & rb & Ha & Hb & Hab).
      destruct (TimelineRenderer.inherited (monthOf a)) eqn:Ia;
        [discriminate Ha|].
      destruct (TimelineRenderer.inherited (monthOf b)) eqn:Ib;
        [discriminate Hb|].
      injection Ha as <-. injection Hb as <-.
      repeat split; auto. lia.
    - apply sort_sorted.
      + intros x y rx ry Hx Hy.
        destruct (TimelineRenderer.inherited (monthOf x)) eqn:Ix;
          [discriminate Hx|].
        destruct (TimelineRenderer.inherited (monthOf y)) eqn:Iy;
          [discriminate Hy|].
        injection Hx as <-. injection Hy as <-.
        now apply descending_rank.
      + eapply Forall_impl; [|exact Hl]. intros a Ha. unfold named in Ha.
        rewrite Ha. discriminate. }
  eapply StronglySorted_weaken; [|exact S].
  intros a b (Ha & Hb & Hab). now apply key_order.
Qed.

Lemma ascending_sorted (l : list A) :
  Forall named l ->
  StronglySorted
    (fun a b =>
       TimelineOrder.notBefore (yearOf b) (monthOf b) (yearOf a) (monthOf a))
    (JS.sort (TimelineOrder.ascending yearOf monthOf) l).
Proof.
  intros Hl.
  assert (S : StronglySorted
                (fun a b => named a /\ named b /\ (key a <= key b)%Z)
                (JS.sort (TimelineOrder.ascending yearOf monthOf) l)).
  { apply StronglySorted_weaken
      with (R := Spec.byRank
                   (fun a => if TimelineRenderer.inherited (monthOf a)
                             then None else Some (key a))).
    - intros a b (ra & rb & Ha & Hb & Hab).
      destruct (TimelineRenderer.inherited (monthOf a)) eqn:Ia;
        [discriminate Ha|].
      destruct (TimelineRenderer.inherited (monthOf b)) eqn:Ib;
        [discriminate Hb|].
      injection Ha as <-. injection Hb as <-.
      repeat split; auto.
    - apply sort_sorted.
      + intros x y rx ry Hx Hy.
        destruct (TimelineRenderer.inherited (monthOf x)) eqn:Ix;
          [discriminate Hx|].
        destruct (TimelineRenderer.inherited (monthOf y)) eqn:Iy;
          [discriminate Hy|].
        injection Hx as <-. injection Hy as <-.
        now apply ascending_rank.
      + eapply Forall_impl; [|exact Hl]. intros a Ha. unfold named in Ha.
        rewrite Ha. discriminate. }
  eapply StronglySorted_weaken; [|exact S].
  intros a b (Ha & Hb & Hab). now apply key_order.
Qed.

Lemma descending_stable (l : list A) (y n : Z) :
  Forall named l ->
  filter (fun a => TimelineOrder.onDate y n (yearOf a) (monthOf a))
    (JS.sort (TimelineOrder.descending yearOf monthOf) l)
  = filter (fun a => TimelineOrder.onDate y n (yearOf a) (monthOf a)) l.
Proof.
  intros Hl.
  assert (G : forall m,
             (forall a, In a m -> named a) ->
             filter (fun a => TimelineOrder.onDate y n (yearOf a) (monthOf a)
                              && negb (TimelineRenderer.inherited (monthOf a)))
               (JS.sort (TimelineOrder.descending yearOf monthOf) m)
             = filter (fun a => TimelineOrder.onDate y n (yearOf a) (monthOf a)
                                && negb (TimelineRenderer.inherited (monthOf a)))
                 m).
  { intros m _. apply sort_stable. intros a b Ha Hb.
    apply andb_true_iff in Ha, Hb. destruct Ha as [Ha Na], Hb as [Hb Nb].
    apply negb_true_iff in Na, Nb.
    unfold TimelineOrder.onDate in Ha, Hb.
    apply andb_true_iff in Ha, Hb.
    destruct Ha as [Ya Ma], Hb as [Yb Mb].
    apply Z.eqb_eq in Ya, Ma, Yb, Mb.
    rewrite (descending_rank a b Na Nb). unfold key.
    apply Z.ltb_ge. lia. }
  rewrite Forall_forall in Hl.
  assert (E : forall m,
             (forall a, In a m -> named a) ->
             filter (fun a => TimelineOrder.onDate y n (yearOf a) (monthOf a)
                              && negb (TimelineRenderer.inherited (monthOf a))) m
             = filter (fun a => TimelineOrder.onDate y n (yearOf a) (monthOf a))
                 m).
  { intros m Hm. apply filter_ext_in. intros a Ha.
    specialize (Hm a Ha). unfold named in Hm. rewrite Hm.
    apply andb_true_r. }
  rewrite <- (E l Hl), <- (G l Hl). symmetry. apply E.
  intros a Ha. apply Hl. now apply sort_In in Ha.
Qed.

End ShapeFacts.

Lemma ascending_is_descending_reversed
  {A : Type} (yearOf : A -> Z) (monthOf : A -> string) (l : list A) :
  Forall (fun a => TimelineRenderer.inherited (monthOf a) = false) l ->
  (forall a b, In a l -> In b l ->
               yearOf a = yearOf b ->
               TimelineOrder.monthNumber (monthOf a)
               = TimelineOrder.monthNumber (monthOf b) ->
               a = b) ->
  JS.sort (TimelineOrder.ascending yearOf monthOf) l
  = rev (JS.sort (TimelineOrder.descending yearOf monthOf) l).
Proof.
  intros Hl Hd.
  apply (sorted_unique
           (fun a b =>
              TimelineOrder.notBefore (yearOf b) (monthOf b)
                (yearOf a) (monthOf a))).
  - intros a b Ha Hb Hab Hba. apply sort_In in Ha, Hb.
    unfold TimelineOrder.notBefore in Hab, Hba.
    apply Hd; auto; lia.
  - eapply perm_trans; [apply Permutation_sym, sort_perm|].
    eapply perm_trans; [apply sort_perm | apply Permutation_rev].
  - now apply ascending_sorted.
  - apply (StronglySorted_rev
             (fun a b =>
                TimelineOrder.notBefore (yearOf a) (monthOf a)
                  (yearOf b) (monthOf b))).
    now apply descending_sorted.
Qed.

(** X23.  [getAccomplishments] returns the accomplishments of the loaded
    document rearranged, none lost or added.  When no month is a name
    inherited from Object.prototype, the result runs from the latest date
    to the earliest, a month that is no month name counting as month 0,
    and entries of one date keep the order of the document. *)
Theorem getAccomplishments_latest_first
  (st : TimelineRenderer.t) (data : TimelineRenderer.TimelineData)
  (l : list TimelineRenderer.Accomplishment) :
  TimelineRenderer.timelineData st = Some data ->
  TimelineRenderer.accomplishments data = Some l ->
  Permutation l (TimelineRenderer.getAccomplishments st)
  /\ (Forall (fun a => TimelineRenderer.inherited (TimelineRenderer.month a)
                       = false) l ->
      StronglySorted
        (fun a b =>
           TimelineOrder.notBefore
             (TimelineRenderer.year a) (TimelineRenderer.month a)
             (TimelineRenderer.year b) (TimelineRenderer.month b))
        (TimelineRenderer.getAccomplishments st)
      /\ forall y n,
          filter (fun a => TimelineOrder.onDate y n (TimelineRenderer.year a)
                             (TimelineRenderer.month a))
            (TimelineRenderer.getAccomplishments st)
          = filter (fun a => TimelineOrder.onDate y n (TimelineRenderer.year a)
                               (TimelineRenderer.month a)) l).
Proof.
  intros Hd Ha. unfold TimelineRenderer.getAccomplishments.
  rewrite Hd, Ha. split; [apply sort_perm|]. intros Hl. split.
  - exact (descending_sorted TimelineRenderer.year TimelineRenderer.month l Hl).
  - intros y n.
    exact (descending_stable TimelineRenderer.year TimelineRenderer.month
             l y n Hl).
Qed.

Lemma getAccomplishments_latest_first_witness :
  map TimelineRenderer.title
    (TimelineRenderer.getAccomplishments Examples.loaded)
  = ["second"; "third"; "first"]
  /\ StronglySorted
       (fun a b =>
          TimelineOrder.notBefore
            (TimelineRenderer.year a) (TimelineRenderer.month a)
            (TimelineRenderer.year b) (TimelineRenderer.month b))
       (TimelineRenderer.getAccomplishments Examples.loaded).
Proof.
  split; [vm_compute; reflexivity|].
  destruct (getAccomplishments_latest_first Examples.loaded Examples.timeline
              _ eq_refl eq_refl) as [_ H].
  apply H. repeat constructor.
Defined.

(** X24.  [getWorkHistory] returns the jobs of the loaded document
    rearranged.  When no start month is a name inherited from
    Object.prototype, the result runs from the latest start to the
    earliest, and jobs started on one date keep the order of the
    document. *)
Theorem getWorkHistory_latest_first
  (st : TimelineRenderer.t) (data : TimelineRenderer.TimelineData)
  (l : list TimelineRenderer.Job) :
  TimelineRenderer.timelineData st = Some data ->
  TimelineRenderer.workHistory data = Some l ->
  Permutation l (TimelineRenderer.getWorkHistory st)
  /\ (Forall (fun j => TimelineRenderer.inherited
                         (TimelineRenderer.startMonth j) = false) l ->
      StronglySorted
        (fun a b =>
           TimelineOrder.notBefore
             (TimelineRenderer.startYear a) (TimelineRenderer.startMonth a)
             (TimelineRenderer.startYear b) (TimelineRenderer.startMonth b))
        (TimelineRenderer.getWorkHistory st)
      /\ forall y n,
          filter (fun j => TimelineOrder.onDate y n
                             (TimelineRenderer.startYear j)
                             (TimelineRenderer.startMonth j))
            (TimelineRenderer.getWorkHistory st)
          = filter (fun j => TimelineOrder.onDate y n
                               (TimelineRenderer.startYear j)
                               (TimelineRenderer.startMonth j)) l).
Proof.
  intros Hd Hw. unfold TimelineRenderer.getWorkHistory.
  rewrite Hd, Hw. split; [apply sort_perm|]. intros Hl. split.
  - exact (descending_sorted TimelineRenderer.startYear
             TimelineRenderer.startMonth l Hl).
  - intros y n.
    exact (descending_stable TimelineRenderer.startYear
             TimelineRenderer.startMonth l y n Hl).
Qed.

Lemma getWorkHistory_latest_first_witness :
  map TimelineRenderer.position
    (TimelineRenderer.getWorkHistory Examples.loaded)
  = ["developer"; "intern"]
  /\ StronglySorted
       (fun a b =>
          TimelineOrder.notBefore
            (TimelineRenderer.startYear a) (TimelineRenderer.startMonth a)
            (TimelineRenderer.startYear b) (TimelineRenderer.startMonth b))
       (TimelineRenderer.getWorkHistory Examples.loaded).
Proof.
  split; [vm_compute; reflexivity|].
  destruct (getWorkHistory_latest_first Examples.loaded Examples.timeline
              _ eq_refl eq_refl) as [_ H].
  apply H. repeat constructor.
Defined.

(** X25.  The two copies of timeline.js order the accomplishments in
    opposite directions: when no month is an inherited name and no two
    accomplishments fall on one date, the array of js/timeline.js is the
    array of the other copy reversed. *)
Theorem timeline_copies_mirror
  (st : TimelineRenderer.t) (data : TimelineRenderer.TimelineData)
  (l : list TimelineRenderer.Accomplishment) :
  TimelineRenderer.timelineData st = Some data ->
  TimelineRenderer.accomplishments data = Some l ->
  Forall (fun a => TimelineRenderer.inherited (TimelineRenderer.month a)
                   = false) l ->
  (forall a b, In a l -> In b l ->
               TimelineRenderer.year a = TimelineRenderer.year b ->
               TimelineOrder.monthNumber (TimelineRenderer.month a)
               = TimelineOrder.monthNumber (TimelineRenderer.month b) ->
               a = b) ->
  TimelineRenderer.getAccomplishmentsChronological st
  = rev (TimelineRenderer.getAccomplishments st).
Proof.
  intros Hd Ha Hl Hu.
  unfold TimelineRenderer.getAccomplishmentsChronological,
    TimelineRenderer.getAccomplishments.
  rewrite Hd, Ha.
  exact (ascending_is_descending_reversed TimelineRenderer.year
           TimelineRenderer.month l Hl Hu).
Qed.

Lemma timeline_copies_mirror_witness :
  map TimelineRenderer.title
    (TimelineRenderer.getAccomplishmentsChronological Examples.loaded)
  = ["first"; "third"; "second"]
  /\ TimelineRenderer.getAccomplishmentsChronological Examples.loaded
     = rev (TimelineRenderer.getAccomplishments Examples.loaded).
Proof.
  split; [vm_compute; reflexivity|].
  apply (timeline_copies_mirror Examples.loaded Examples.timeline _
           eq_refl eq_refl).
  - repeat constructor.
  - intros a b Ha Hb.
    cbn in Ha, Hb.
    destruct Ha as [<-|[<-|[<-|[]]]]; destruct Hb as [<-|[<-|[<-|[]]]];
      vm_compute; intros H1 H2; try reflexivity; discriminate.
Defined.

(** ** generate-index.js *)

Lemma substring_skip (pre r : string) (m : nat) :
  String.substring (String.length pre) m (pre +++ r) = String.substring 0 m r.
Proof. induction pre as [|c pre IH]; [reflexivity | exact IH]. Qed.

Lemma substring_whole (s : string) :
  String.substring 0 (String.length s) s = s.
Proof.
  induction s as [|c s IH]; [reflexivity|]. cbn. now rewrite IH.
Qed.

Lemma substring_split (s : string) :
  forall k, (k <= String.length s)%nat ->
            s = String.substring 0 k s
                +++ String.substring k (String.length s - k) s.
Proof.
  induction s as [|c s IH]; intros [|k] Hk; cbn in Hk |- *.
  - reflexivity.
  - lia.
  - now rewrite substring_whole.
  - f_equal. apply IH. lia.
Qed.

Lemma endsWith_spec (s suffix : string) :
  GenerateIndex.endsWith s suffix = true <-> exists pre, s = pre +++ suffix.
Proof.
  unfold GenerateIndex.endsWith. rewrite andb_true_iff, Nat.leb_le, String.eqb_eq.
  split.
  - intros [Hle E].
    exists (String.substring 0 (String.length s - String.length suffix) s).
    pose proof (substring_split s (String.length s - String.length suffix)
                  ltac:(lia)) as S.
    replace (String.length s - (String.length s - String.length suffix))%nat
      with (String.length suffix) in S by lia.
    rewrite E in S. exact S.
  - intros [pre ->]. rewrite append_length. split; [lia|].
    replace (String.length pre + String.length suffix - String.length suffix)%nat
      with (String.length pre) by lia.
    rewrite substring_skip. apply substring_whole.
Qed.

Lemma append_cancel_r (c a : string) :
  forall b, a +++ c = b +++ c -> a = b.
Proof.
  induction a as [|x a IH]; intros [|y b] H.
  - reflexivity.
  - apply (f_equal String.length) in H. cbn in H.
    rewrite append_length in H. lia.
  - apply (f_equal String.length) in H. cbn in H.
    rewrite append_length in H. lia.
  - cbn in H. injection H as -> H. f_equal. now apply IH.
Qed.

(** The files the script reads: the name ends in .json and is not
    index.json. *)
Lemma isPostFile_spec (file : string) :
  GenerateIndex.isPostFile file = true
  <-> exists stem, file = stem +++ ".json" /\ stem <> "index".
Proof.
  unfold GenerateIndex.isPostFile.
  rewrite andb_true_iff, endsWith_spec, negb_true_iff, String.eqb_neq.
  split.
  - intros [[stem ->] Hn]. exists stem. split; [reflexivity|].
    intros ->. now apply Hn.
  - intros (stem & -> & Hn). split; [now exists stem|].
    intros H. apply Hn. now apply (append_cancel_r ".json").
Qed.

Lemma readAll_None (files : list GenerateIndex.File) :
  GenerateIndex.readAll files = None <-> exists name, In (name, None) files.
Proof.
  induction files as [|[name [content|]] files IH]; cbn [GenerateIndex.readAll].
  - split; [discriminate | intros [? []]].
  - destruct (GenerateIndex.readAll files) as [l|].
    + split; [discriminate|]. intros [n [H|H]]; [discriminate H|].
      assert (N : Some l = None) by (apply (proj2 IH); now exists n).
      discriminate N.
    + split; [|reflexivity]. intros _.
      destruct (proj1 IH eq_refl) as [n Hn]. exists n. now right.
  - split; [|reflexivity]. intros _. exists name. now left.
Qed.

Lemma readAll_Some (files : list GenerateIndex.File) :
  forall l,
    GenerateIndex.readAll files = Some l ->
    List.length l = List.length files
    /\ forall e, In e l <->
                 exists name content,
                   In (name, Some content) files
                   /\ e = GenerateIndex.entryOf content.
Proof.
  induction files as [|[name [content|]] files IH]; intros l H;
    cbn [GenerateIndex.readAll] in H.
  - injection H as <-. split; [reflexivity|].
    intros e. split; [intros [] | intros (? & ? & [] & _)].
  - destruct (GenerateIndex.readAll files) as [l'|]; [|discriminate H].
    injection H as <-. destruct (IH l' eq_refl) as [Hlen Hin].
    split; [cbn; now rewrite Hlen|]. intros e. split.
    + intros [<-|He].
      * exists name, content. split; [now left | reflexivity].
      * apply Hin in He. destruct He as (n & c & Hc & ->).
        exists n, c. split; [now right | reflexivity].
    + intros (n & c & [Hc|Hc] & ->).
      * injection Hc as _ <-. now left.
      * right. apply Hin. now exists n, c.
  - discriminate H.
Qed.

(** X26.  generate-index.js reads the files whose name ends in .json and
    is not index.json, and no other file.  It stops on an exception, and
    writes nothing, exactly when one of those files does not parse; a
    damaged index.json or a file of another kind never stops it.
    Otherwise the index holds one entry per file read, the entries are the
    id, title, date and tags of the files, and every entry has a tags
    array. *)
Theorem generate_reads_the_post_files
  (Date_parse : string -> option Z) (dir : list GenerateIndex.File) :
  (GenerateIndex.generate Date_parse dir = None
   <-> exists stem, In (stem +++ ".json", None) dir /\ stem <> "index")
  /\ forall index,
      GenerateIndex.generate Date_parse dir = Some index ->
      List.length index
      = List.length (filter (fun f => GenerateIndex.isPostFile (fst f)) dir)
      /\ (forall e,
             In e index <->
             exists stem content,
               In (stem +++ ".json", Some content) dir
               /\ stem <> "index"
               /\ e = GenerateIndex.entryOf content)
      /\ forall e, In e index -> App.meta_tags e <> None.
Proof.
  unfold GenerateIndex.generate. split.
  - destruct (GenerateIndex.readAll
                (filter (fun f => GenerateIndex.isPostFile (fst f)) dir))
      as [l|] eqn:E.
    + split; [discriminate|]. intros (stem & Hin & Hn).
      assert (N : GenerateIndex.readAll
                    (filter (fun f => GenerateIndex.isPostFile (fst f)) dir)
                  = None).
      { apply readAll_None. exists (stem +++ ".json").
        apply filter_In. split; [exact Hin|].
        apply isPostFile_spec. now exists stem. }
      congruence.
    + split; [|reflexivity]. intros _.
      apply readAll_None in E. destruct E as [name Hin].
      apply filter_In in Hin. destruct Hin as [Hin Hp].
      apply isPostFile_spec in Hp. destruct Hp as (stem & Hs & Hn).
      cbn [fst] in Hs. subst name. now exists stem.
  - intros index H.
    destruct (GenerateIndex.readAll
                (filter (fun f => GenerateIndex.isPostFile (fst f)) dir))
      as [l|] eqn:E; [|discriminate H].
    injection H as <-. destruct (readAll_Some _ l E) as [Hlen Hin].
    assert (M : forall e,
               In e (JS.sort (GenerateIndex.newestFirst Date_parse) l) <->
               exists stem content,
                 In (stem +++ ".json", Some content) dir
                 /\ stem <> "index"
                 /\ e = GenerateIndex.entryOf content).
    { intros e. rewrite sort_In, Hin. split.
      - intros (name & content & Hf & ->).
        apply filter_In in Hf. destruct Hf as [Hf Hp].
        apply isPostFile_spec in Hp. destruct Hp as (stem & Hs & Hn).
        cbn [fst] in Hs. subst name. now exists stem, content.
      - intros (stem & content & Hf & Hn & ->).
        exists (stem +++ ".json"), content. split; [|reflexivity].
        apply filter_In. split; [exact Hf|].
        apply isPostFile_spec. now exists stem. }
    split; [now rewrite sort_length|]. split; [exact M|].
    intros e He. apply M in He. destruct He as (_ & content & _ & _ & ->).
    discriminate.
Qed.

Section IndexOrder.
Variable Date_parse : string -> option Z.

Lemma sort_index_sorted (l : list App.PostMeta) :
  Forall (fun e => Date_parse (App.meta_date e) <> None) l ->
  StronglySorted
    (fun a b => exists ta tb,
         Date_parse (App.meta_date a) = Some ta
         /\ Date_parse (App.meta_date b) = Some tb
         /\ (tb <= ta)%Z)
    (JS.sort (GenerateIndex.newestFirst Date_parse) l).
Proof.
  intros Hv.
  apply StronglySorted_weaken
    with (R := Spec.byRank
                 (fun e => option_map Z.opp (Date_parse (App.meta_date e)))).
  - intros a b (ra & rb & Ha & Hb & Hab).
    destruct (Date_parse (App.meta_date a)) as [ta|]; [|discriminate Ha].
    destruct (Date_parse (App.meta_date b)) as [tb|]; [|discriminate Hb].
    cbn in Ha, Hb. injection Ha as <-. injection Hb as <-.
    exists ta, tb. repeat split. lia.
  - apply sort_sorted.
    + intros x y rx ry Hx Hy.
      unfold GenerateIndex.newestFirst, PostFilterUI.dateDiff.
      destruct (Date_parse (App.meta_date x)) as [tx|]; [|discriminate Hx].
      destruct (Date_parse (App.meta_date y)) as [ty|]; [|discriminate Hy].
      cbn in Hx, Hy |- *. injection Hx as <-. injection Hy as <-.
      destruct (Z.ltb_spec 0 (ty - tx)), (Z.ltb_spec (- ty) (- tx));
        try reflexivity; lia.
    + eapply Forall_impl; [|exact Hv]. cbn. intros e He.
      destruct (Date_parse (App.meta_date e)); [discriminate | congruence].
Qed.

End IndexOrder.

(** X27.  When every post file read carries a date that parses, the index
    generate-index.js writes runs from the newest entry to the oldest. *)
Theorem generate_orders_newest_first
  (Date_parse : string -> option Z) (dir : list GenerateIndex.File)
  (index : list App.PostMeta) :
  GenerateIndex.generate Date_parse dir = Some index ->
  (forall name content,
      In (name, Some content) dir ->
      GenerateIndex.isPostFile name = true ->
      Date_parse (Post.date content) <> None) ->
  StronglySorted
    (fun a b => exists ta tb,
         Date_parse (App.meta_date a) = Some ta
         /\ Date_parse (App.meta_date b) = Some tb
         /\ (tb <= ta)%Z)
    index.
Proof.
  unfold GenerateIndex.generate. intros H Hv.
  destruct (GenerateIndex.readAll
              (filter (fun f => GenerateIndex.isPostFile (fst f)) dir))
    as [l|] eqn:E; [|discriminate H].
  injection H as <-. apply sort_index_sorted.
  destruct (readAll_Some _ l E) as [_ Hin].
  apply Forall_forall. intros e He.
  apply Hin in He. destruct He as (name & content & Hf & ->).
  apply filter_In in Hf. destruct Hf as [Hf Hp].
  exact (Hv name content Hf Hp).
Qed.

Lemma generate_orders_newest_first_witness :
  option_map (map App.meta_id)
    (GenerateIndex.generate Date.parseISO Examples.directory)
  = Some [Post.id Scenario.postB; Post.id Scenario.postA]
  /\ exists index,
      GenerateIndex.generate Date.parseISO Examples.directory = Some index
      /\ StronglySorted
           (fun a b => exists ta tb,
                Date.parseISO (App.meta_date a) = Some ta
                /\ Date.parseISO (App.meta_date b) = Some tb
                /\ (tb <= ta)%Z)
           index.
Proof.
  split; [vm_compute; reflexivity|].
  eexists. split; [vm_compute; reflexivity|].
  eapply (generate_orders_newest_first Date.parseISO Examples.directory);
    [vm_compute; reflexivity|].
  intros name content Hin Hp. cbn in Hin.
  destruct Hin as [Hin|[Hin|[Hin|[Hin|[]]]]]; try discriminate Hin;
    injection Hin as <- <-; vm_compute; discriminate.
Defined.

Lemma generate_reads_the_post_files_witness :
  exists index,
    GenerateIndex.generate Date.parseISO Examples.directory = Some index
    /\ List.length index = 2%nat
    /\ forall e, In e index -> App.meta_tags e <> None.
Proof.
  eexists. split; [vm_compute; reflexivity|].
  split; [reflexivity|].
  apply (proj2 (generate_reads_the_post_files Date.parseISO Examples.directory)
           _ eq_refl).
Defined.
